(** * finflow: bank-statement extraction pipeline

    A shallow embedding of [src/finflow/statement_parsing] and
    [src/finflow/data_handler/data_loader.py].

    Python [str] values are lists of Unicode code points.  The regular
    expressions of [transaction_patterns.py] run on a backtracking engine
    that enumerates match states in the priority order of Python's [re]
    module.  The Unicode decimal-digit table ([unicodedata.decimal], the
    characters matched by [\d] and accepted by [int] and [float]) is a
    parameter of the development.  The library calls the program is
    built on ([float], [strptime], [str.contains], [sort_values]) are
    embedded as CPython, pandas and numpy implement them; the sort is
    numpy's quicksort, which is proved to sort and shown not to be
    stable. *)

From Stdlib Require Import NArith ZArith Lia String Ascii DecimalString.
From stdpp Require Import base option list sorting.

Local Open Scope N_scope.

(** ** Python strings *)

Abbreviation char := N.
Abbreviation str := (list char).

(** An ASCII literal as a [str]. *)
Definition lit (s : string) : str := N_of_ascii <$> list_ascii_of_string s.
Global Arguments lit : simpl never.

Definition LF : char := 10.
Definition CR : char := 13.

(** [str.isspace] on one code point (CPython's [_PyUnicode_IsWhitespace]);
    this is also the class [\s] of [re] on [str] patterns. *)
Definition is_space (c : char) : bool :=
  ((9 <=? c) && (c <=? 13)) || ((28 <=? c) && (c <=? 32))
  || (c =? 133) || (c =? 160) || (c =? 5760)
  || ((8192 <=? c) && (c <=? 8202))
  || (c =? 8232) || (c =? 8233) || (c =? 8239) || (c =? 8287)
  || (c =? 12288).

(** The Unicode tables the program consults through built-ins:
    [unicodedata.decimal], the value of a character of category Nd, and
    the case mapping behind [str.lower]. *)
Class UnicodeData := {
  decimal : char → option N;
  str_lower : str → str
}.

Definition c_tolower (c : char) : char :=
  if (65 <=? c) && (c <=? 90) then c + 32 else c.

Definition ascii_decimal (c : char) : option N :=
  if (48 <=? c) && (c <=? 57) then Some (c - 48) else None.

(** What the development assumes of the tables: Latin-1 has no decimal
    digits besides ['0'..'9'], a whitespace character is not a digit,
    digit values are below ten, and on ASCII text [str.lower] only maps
    ['A'..'Z'] to ['a'..'z']. *)
Class UnicodeLaws (U : UnicodeData) : Prop := {
  decimal_latin1 : ∀ c, c < 256 → decimal c = ascii_decimal c;
  decimal_space : ∀ c, is_space c = true → decimal c = None;
  decimal_lt : ∀ c d, decimal c = Some d → d < 10;
  lower_ascii : ∀ s, Forall (λ c, c < 128) s → str_lower s = c_tolower <$> s
}.

Definition is_decimal `{U : UnicodeData} (c : char) : bool :=
  match decimal c with Some _ => true | None => false end.

(** ** Regular expressions *)

Inductive cclass :=
| CAny                          (* [.] under DOTALL *)
| CChar (c : char)              (* a literal character *)
| CRange (lo hi : char)         (* [lo-hi] *)
| CDigit                        (* [\d] *)
| CSpace                        (* [\s] *)
| CNotSpace                     (* [\S] *)
| CNotLF                        (* [.] without DOTALL *)
| COr (a b : cclass).           (* union inside [[...]] *)

Inductive regex :=
| Eps
| Chr (k : cclass)
| Seq (a b : regex)
| Alt (a b : regex)             (* [a|b], [a] first *)
| Star (greedy : bool) (a : regex)  (* [a*] and [a*?] *)
| Group (n : nat) (a : regex).  (* capture group number [n], from 1 *)

Fixpoint cmatch `{U : UnicodeData} (k : cclass) (c : char) : bool :=
  match k with
  | CAny => true
  | CChar x => c =? x
  | CRange lo hi => (lo <=? c) && (c <=? hi)
  | CDigit => is_decimal c
  | CSpace => is_space c
  | CNotSpace => negb (is_space c)
  | CNotLF => negb (c =? 10)
  | COr a b => cmatch a c || cmatch b c
  end.

(** A match state: the text still to be read and the groups captured so
    far (slot [n - 1] holds group [n]). *)
Record mstate := MState { rest : str; caps : list (option str) }.

(** The text consumed between two states of one run. *)
Definition consumed (st st' : mstate) : str :=
  take (length (rest st) - length (rest st')) (rest st).

Definition progress (st st' : mstate) : bool :=
  bool_decide (length (rest st') < length (rest st))%nat.

(** Iterations of a repeat body.  An iteration that reads nothing ends the
    loop, so [length (rest st)] iterations are always enough. *)
Fixpoint loop (body : mstate → list mstate) (greedy : bool)
    (fuel : nat) (st : mstate) : list mstate :=
  match fuel with
  | O => [st]
  | S fuel' =>
      let again :=
        filter (λ st', progress st st' = true) (body st)
          ≫= loop body greedy fuel' in
      if greedy then again ++ [st] else st :: again
  end.

(** [run r st]: every way [r] matches at [st], best first. *)
Fixpoint run `{U : UnicodeData} (r : regex) (st : mstate) : list mstate :=
  match r with
  | Eps => [st]
  | Chr k =>
      match rest st with
      | c :: t => if cmatch k c then [MState t (caps st)] else []
      | [] => []
      end
  | Seq a b => run a st ≫= run b
  | Alt a b => run a st ++ run b st
  | Star g a => loop (run a) g (length (rest st)) st
  | Group n a =>
      (λ st', MState (rest st')
                (<[pred n := Some (consumed st st')]> (caps st')))
        <$> run a st
  end.

(** Derived forms. *)
Definition chr (c : char) : regex := Chr (CChar c).
Definition word (s : str) : regex := foldr (λ c r, Seq (chr c) r) Eps s.
Definition opt (a : regex) : regex := Alt a Eps.            (* [a?] *)
Definition plus (g : bool) (a : regex) : regex := Seq a (Star g a).
Fixpoint rep (n : nat) (a : regex) : regex :=                (* [a{n}] *)
  match n with O => Eps | S n' => Seq a (rep n' a) end.
Fixpoint upto (n : nat) (a : regex) : regex :=               (* [a{0,n}] *)
  match n with O => Eps | S n' => opt (Seq a (upto n' a)) end.
Definition rep_range (m n : nat) (a : regex) : regex :=      (* [a{m,n}] *)
  Seq (rep m a) (upto (n - m) a).

Declare Scope re_scope.
Delimit Scope re_scope with re.
Bind Scope re_scope with regex.
Infix "⋅" := Seq (at level 40, left associativity) : re_scope.

(** *** Matching, searching, [findall] *)

(** A compiled pattern: the expression and its number of groups. *)
Record pattern := Pattern { pat_re : regex; pat_groups : nat }.

Section search.
Context `{U : UnicodeData}.

(** The best match starting exactly at the head of [s].  With
    [must_advance] an empty match is rejected and the engine backtracks. *)
Definition match_here (p : pattern) (must_advance : bool) (s : str)
    : option mstate :=
  let st := MState s (replicate (pat_groups p) None) in
  head (filter (λ st', must_advance = true → progress st st' = true)
          (run (pat_re p) st)).

(** [findall] returns the groups of each match; a group that did not
    take part in the match is the empty string. *)
Definition groups (st : mstate) : list str := default [] <$> caps st.

(** Scanning for non-overlapping matches, left to right.  [skip] counts
    the characters of the previous match that are still to be passed. *)
Fixpoint scan (p : pattern) (s : str) (skip : nat) : list (list str) :=
  match skip, s with
  | S k, _ :: t => scan p t k
  | S _, [] => []
  | O, _ =>
      let next (found : list (list str)) (len : nat) :=
        match s with
        | [] => found
        | _ :: t => found ++ scan p t (pred len)
        end in
      match match_here p false s with
      | None => next [] 0%nat
      | Some st =>
          let n := (length s - length (rest st))%nat in
          match n with
          | S _ => next [groups st] n
          | O =>
              (* an empty match: the next attempt at this position
                 must advance *)
              match match_here p true s with
              | None => next [groups st] 0%nat
              | Some st' =>
                  next [groups st; groups st']
                    (length s - length (rest st'))%nat
              end
          end
      end
  end.

Definition findall (p : pattern) (s : str) : list (list str) := scan p s 0.
End search.

(** ** The pattern registry ([transaction_types.py], [transaction_patterns.py]) *)

Inductive TransactionType := DIRECT_DEBIT | CARD_TRANSACTION | TRANSFER.

Global Instance TransactionType_eq_dec : EqDecision TransactionType.
Proof. solve_decision. Defined.

Module Patterns.
Local Open Scope re_scope.

Definition d : regex := Chr CDigit.
Definition upper_or_digit : cclass := COr (CRange 65 90) (CRange 48 57).
Definition letter : cclass := COr (CRange 65 90) (CRange 97 122).
Definition anything : cclass := COr CSpace CNotSpace.
Definition newline : regex := opt (chr CR) ⋅ chr LF.       (* [\r?\n] *)

(** [\d{2}\.\d{2}\.\d{4}] *)
Definition date_re : regex :=
  rep 2 d ⋅ chr 46 ⋅ rep 2 d ⋅ chr 46 ⋅ rep 4 d.

(** [(?:[A-Z0-9]+/\d+ ?)+] *)
Definition codes : regex :=
  plus true (plus true (Chr upper_or_digit) ⋅ chr 47 ⋅ plus true d
             ⋅ opt (chr 32)).

(** [-?\d{1,3}(?:\.\d{3})*,\d{2}] *)
Definition amount : regex :=
  opt (chr 45) ⋅ rep_range 1 3 d ⋅ Star true (chr 46 ⋅ rep 3 d)
  ⋅ chr 44 ⋅ rep 2 d.

Definition direct_debit : pattern :=
  Pattern
    (Group 1 date_re ⋅ newline
     ⋅ Group 2 date_re ⋅ word (lit "Lastschrift /") ⋅ newline
     ⋅ word (lit "Belastung") ⋅ newline
     ⋅ Group 3 (plus true (Chr upper_or_digit)) ⋅ newline
     ⋅ Group 4 codes
     ⋅ Group 5 (Chr letter ⋅ Star false (Chr anything))
     ⋅ Group 6 amount)
    6.

(** ["Ü"] is U+00DC and ["ä"] is U+00E4. *)
Definition transfer : pattern :=
  Pattern
    (Group 1 date_re ⋅ chr LF
     ⋅ Group 2 date_re ⋅ word (220 :: lit "bertrag /") ⋅ chr LF
     ⋅ word (220 :: lit "berweisung") ⋅ chr LF
     ⋅ Group 3 (plus true (Chr upper_or_digit)) ⋅ chr LF
     ⋅ Group 4 codes
     ⋅ Group 5 (Star true (Chr CSpace) ⋅ plus false (Chr anything))
     ⋅ chr LF ⋅ word (lit "Gl" ++ 228 :: lit "ubiger-ID:") ⋅ chr LF
     ⋅ word (lit "DE") ⋅ rep 2 d ⋅ word (lit "ZZZ") ⋅ rep 11 d
     ⋅ Group 6 amount)
    6.
End Patterns.

(** [TRANSACTION_PATTERNS]: a dict, in insertion order. *)
Definition TRANSACTION_PATTERNS : list (TransactionType * list pattern) :=
  [ (DIRECT_DEBIT, [Patterns.direct_debit]);
    (TRANSFER, [Patterns.transfer]) ].

(** [SAMPLE_TEXT] of [tests/.../test_transaction_patterns.py]. *)
Definition SAMPLE_TEXT : str :=
  lit "04.12.2024" ++ LF ::
  lit "04.12.2024Lastschrift /" ++ LF ::
  lit "Belastung" ++ LF ::
  lit "7L2C1U7N2KRV" ++ LF ::
  lit "5LYN/35742D.T.NET Service OHG 402505/129801/EUR 48.40" ++ LF ::
  lit "End-to-End-Ref.:" ++ LF ::
  lit "150808" ++ LF ::
  lit "CORE /Mandatsref.:" ++ LF ::
  lit "402505" ++ LF ::
  lit "Gl" ++ 228 :: lit "ubiger-ID:" ++ LF ::
  lit "DE92ZZZ00000085710-48,40" ++ [LF].

(** ** Built-ins used by the field normalizer *)

(** Exceptions: [ValueError], and whatever PyPDF2 or [os] raise. *)
Inductive exn :=
| ValueError
| LibraryError (what : str).

Global Instance exn_eq_dec : EqDecision exn.
Proof. solve_decision. Defined.

Global Instance exn_ret : MRet (sum exn) := λ A a, inr a.
Global Instance exn_bind : MBind (sum exn) := λ A B f r,
  match r with inr a => f a | inl e => inl e end.

(** A built-in given as a partial function raises [ValueError] where it
    is undefined. *)
Definition or_ValueError {A} (r : option A) : exn + A :=
  match r with Some a => inr a | None => inl ValueError end.

(** [try: return e / except ValueError: return None] *)
Definition except_ValueError {A} (r : exn + A) : exn + option A :=
  match r with
  | inr a => inr (Some a)
  | inl ValueError => inr None
  | inl e => inl e
  end.

Fixpoint lstrip (s : str) : str :=
  match s with
  | c :: t => if is_space c then lstrip t else s
  | [] => []
  end.
Definition rstrip (s : str) : str := reverse (lstrip (reverse s)).
(** [str.strip()] *)
Definition strip (s : str) : str := rstrip (lstrip s).

Fixpoint is_prefix (p s : str) : bool :=
  match p, s with
  | [], _ => true
  | a :: p', b :: s' => (a =? b) && is_prefix p' s'
  | _ :: _, [] => false
  end.
Definition startswith (s p : str) : bool := is_prefix p s.
Definition endswith (s p : str) : bool := is_prefix (reverse p) (reverse s).

(** [s.replace(old, new)] for a non-empty [old]: occurrences are replaced
    left to right, without overlap. *)
Fixpoint replace_go (old new : str) (skip : nat) (s : str) : str :=
  match s with
  | [] => []
  | c :: t =>
      match skip with
      | S k => replace_go old new k t
      | O =>
          if is_prefix old s
          then new ++ replace_go old new (pred (length old)) t
          else c :: replace_go old new 0 t
      end
  end.
Definition replace (s old new : str) : str := replace_go old new 0 s.

(** *** Numbers from strings *)

(** C's [Py_ISSPACE] and [Py_ISDIGIT], on the ASCII form of a number. *)
Definition c_isspace (c : char) : bool := (c =? 32) || ((9 <=? c) && (c <=? 13)).
Definition c_isdigit (c : char) : bool := (48 <=? c) && (c <=? 57).
(** [_PyUnicode_TransformDecimalAndSpaceToASCII]: digits of any script
    become ASCII digits and spaces become [' ']; the result ends in ['?']
    at the first other character that is not ASCII. *)
Fixpoint to_ascii `{U : UnicodeData} (s : str) : str :=
  match s with
  | [] => []
  | c :: t =>
      if c <? 127 then c :: to_ascii t
      else if is_space c then 32 :: to_ascii t
      else match decimal c with
           | Some v => (48 + v) :: to_ascii t
           | None => [63]
           end
  end.

(** [_Py_string_to_number_with_underscores]: an underscore may only stand
    between two digits; a NUL character is an error. *)
Fixpoint drop_underscores (prev : char) (s : str) : option str :=
  match s with
  | [] => if prev =? 95 then None else Some []
  | c :: t =>
      if c =? 0 then None
      else if c =? 95
      then if c_isdigit prev then drop_underscores c t else None
      else if (prev =? 95) && negb (c_isdigit c) then None
      else (c ::.) <$> drop_underscores c t
  end.

Fixpoint c_lstrip (s : str) : str :=
  match s with
  | c :: t => if c_isspace c then c_lstrip t else s
  | [] => []
  end.
Definition c_strip (s : str) : str := reverse (c_lstrip (reverse (c_lstrip s))).

(** The longest run of ASCII digits at the head of [s], as digit values. *)
Fixpoint digit_run (s : str) : list N * str :=
  match s with
  | c :: t =>
      if c_isdigit c
      then let '(ds, r) := digit_run t in ((c - 48) :: ds, r)
      else ([], s)
  | [] => ([], [])
  end.

Definition of_digits (ds : list N) : N := foldl (λ acc v, 10 * acc + v) 0 ds.

Definition read_sign (s : str) : bool * str :=
  match s with
  | c :: t =>
      if c =? 45 then (true, t) else if c =? 43 then (false, t) else (false, s)
  | [] => (false, s)
  end.

(** A Python [float] read from a decimal string.  [Finite neg m e] is the
    binary64 value nearest to [(-1)^neg * m * 10^e]; the model keeps the
    decimal and leaves the rounding to the hardware format aside. *)
Inductive pyfloat :=
| Finite (neg : bool) (m : N) (e : Z)
| Infinity (neg : bool)
| NaN.

(** [_Py_parse_inf_or_nan], after the sign. *)
Definition read_inf_or_nan (neg : bool) (s : str) : option pyfloat :=
  let l := c_tolower <$> s in
  if bool_decide (l = lit "inf") || bool_decide (l = lit "infinity")
  then Some (Infinity neg)
  else if bool_decide (l = lit "nan") then Some NaN
  else None.

(** The decimal grammar of [strtod]: digits, an optional point and more
    digits, an optional exponent; all of [s] must be read. *)
Definition read_decimal (neg : bool) (s : str) : option pyfloat :=
  let '(ip, r1) := digit_run s in
  let '(fp, r2) :=
    match r1 with
    | c :: t => if c =? 46 then digit_run t else ([], r1)
    | [] => ([], r1)
    end in
  match ip ++ fp with
  | [] => None
  | _ :: _ =>
      let m := of_digits (ip ++ fp) in
      let shift := Z.of_nat (length fp) in
      match r2 with
      | [] => Some (Finite neg m (- shift)%Z)
      | c :: t =>
          if (c =? 101) || (c =? 69)
          then
            let '(eneg, t') := read_sign t in
            match digit_run t' with
            | ((_ :: _) as ed, []) =>
                let x := Z.of_N (of_digits ed) in
                Some (Finite neg m ((if eneg then - x else x) - shift)%Z)
            | _ => None
            end
          else None
      end
  end.

(** [float(s)] for a [str]; [None] is [ValueError]. *)
Definition py_float `{U : UnicodeData} (s : str) : option pyfloat :=
  s1 ← drop_underscores 0 (to_ascii s);
  let '(neg, body) := read_sign (c_strip s1) in
  match read_inf_or_nan neg body with
  | Some x => Some x
  | None => read_decimal neg body
  end.

(** [int(s)] for a [str] in base ten; [None] is [ValueError]. *)
Definition py_int `{U : UnicodeData} (s : str) : option Z :=
  s1 ← drop_underscores 0 (to_ascii s);
  let '(neg, body) := read_sign (c_strip s1) in
  match digit_run body with
  | ((_ :: _) as ds, []) =>
      let x := Z.of_N (of_digits ds) in Some (if neg then - x else x)%Z
  | _ => None
  end.

(** *** Dates and [datetime.strptime] *)

Record date := Date { year : Z; month : Z; day : Z }.

Global Instance date_eq_dec : EqDecision date.
Proof. solve_decision. Defined.

Definition is_leap (y : Z) : bool :=
  ((y mod 4 =? 0) && (negb (y mod 100 =? 0) || (y mod 400 =? 0)))%Z.

Definition days_in_month (y m : Z) : Z :=
  (if m =? 2 then (if is_leap y then 29 else 28)
   else if (m =? 4) || (m =? 6) || (m =? 9) || (m =? 11) then 30
   else 31)%Z.

(** The checks of the [datetime.date] constructor; [None] is [ValueError]. *)
Definition make_date (y m d : Z) : option date :=
  if ((1 <=? y) && (y <=? 9999) && (1 <=? m) && (m <=? 12)
      && (1 <=? d) && (d <=? days_in_month y m))%Z
  then Some (Date y m d) else None.

Module Strptime.
Local Open Scope re_scope.

Definition d : regex := Patterns.d.

Definition range (lo hi : char) : regex := Chr (CRange lo hi).

(** The expressions [_strptime] substitutes for the directives:
    [%d] is [3[0-1]|[1-2]\d|0[1-9]|[1-9]| [1-9]],
    [%m] is [1[0-2]|0[1-9]|[1-9]] and [%Y] is [\d\d\d\d]. *)
Definition dd : regex :=
  Alt (chr 51 ⋅ range 48 49)
    (Alt (range 49 50 ⋅ d)
       (Alt (chr 48 ⋅ range 49 57)
          (Alt (range 49 57) (chr 32 ⋅ range 49 57)))).
Definition mm : regex :=
  Alt (chr 49 ⋅ range 48 50) (Alt (chr 48 ⋅ range 49 57) (range 49 57)).
Definition yyyy : regex := d ⋅ d ⋅ d ⋅ d.

(** The format ["%d.%m.%Y"]; the named groups d, m, Y are numbered
    1, 2, 3. *)
Definition format_dmY : pattern :=
  Pattern (Group 1 dd ⋅ chr 46 ⋅ Group 2 mm ⋅ chr 46 ⋅ Group 3 yyyy) 3.

(** [datetime.strptime(s, "%d.%m.%Y").date()]: the format's expression
    must match at the start of [s] and the match must reach its end
    (else "unconverted data remains"); the three fields go through
    [int] and the date constructor.  [None] is [ValueError]. *)
Definition strptime_dmY `{U : UnicodeData} (s : str) : option date :=
  found ← match_here format_dmY false s;
  if bool_decide (rest found = [])
  then
    match groups found with
    | [gd; gm; gy] =>
        dv ← py_int gd; mv ← py_int gm; yv ← py_int gy;
        make_date yv mv dv
    | _ => None
    end
  else None.
End Strptime.

(** ** The field normalizer ([PDFTransactionParser.parse_amount], [parse_date]) *)

Section normalizer.
Context `{U : UnicodeData}.

(** [try: return float(amount_str.replace(".", "").replace(",", "."))]
    [except ValueError: return None] *)
Definition parse_amount (amount_str : str) : exn + option pyfloat :=
  except_ValueError
    (or_ValueError
       (py_float
          (replace (replace amount_str (lit ".") []) (lit ",") (lit ".")))).

(** [try: return dt.datetime.strptime(date_str, "%d.%m.%Y").date()]
    [except ValueError: return None] *)
Definition parse_date (date_str : str) : exn + option date :=
  except_ValueError (or_ValueError (Strptime.strptime_dmY date_str)).
End normalizer.

(** ** Records, the logger and the outside world *)

(** One row of the parser's DataFrame; the fields are the columns
    [COL_BOOKING_DATE] ... [COL_AMOUNT], in this order. *)
Record TransactionRecord := Row {
  booking_date : option date;        (* "Booking Date" *)
  value_date : option date;          (* "Value Date" *)
  transaction_id : str;              (* "Transaction ID" *)
  code : str;                        (* "Code" *)
  description : str;                 (* "Description" *)
  amount : option pyfloat            (* "Amount" *)
}.

(** A DataFrame of transactions is the list of its rows; [df.empty] and
    [len(df)] are about the rows. *)
Abbreviation DataFrame := (list TransactionRecord).
Definition df_empty (df : DataFrame) : bool := bool_decide (df = []).

(** The levels the parser logs at, with [logging]'s numbers. *)
Inductive level := INFO | WARNING.
Definition levelno (l : level) : Z :=
  match l with INFO => 20 | WARNING => 30 end.

Record log_entry := Log { lvl : level; msg : str }.

(** [Logger.isEnabledFor] on a logger whose level is [log_level], the value
    [__init__] passes to [setLevel] ([logging.INFO] unless the caller
    chooses another), and the calls that such a logger hands on to its
    handler. *)
Definition isEnabledFor (log_level : Z) (l : level) : bool :=
  (log_level <=? levelno l)%Z.
Definition emitted (log_level : Z) (calls : list log_entry) : list log_entry :=
  filter (λ e, isEnabledFor log_level (lvl e) = true) calls.

(** What the run reads from outside: the entries [os.listdir] returns for
    a folder, in its enumeration order, and for a path either the pages
    [PdfReader] finds, each with the result of [extract_text()], or the
    exception [PdfReader] raises. *)
Record world := World {
  listdir : str → exn + list str;
  PdfReader : str → exn + list (option str);
  resolve : str → str
}.

(** The parser object and what it has done: [self.transactions], the
    calls made on [self.logger] (which of them reach the handler is
    [emitted]), and the files handed to [to_csv]. *)
Record parser := Parser {
  source_folder : str;
  transactions : DataFrame;
  logger : list log_entry;
  written : list (str * DataFrame)
}.

(** Statements either finish with a value or raise; both leave a state. *)
Definition M (A : Type) : Type := parser → (exn + A) * parser.

Definition raise {A} (e : exn) : M A := λ σ, (inl e, σ).
Definition lift {A} (r : exn + A) : M A := λ σ, (r, σ).

Global Instance M_ret : MRet M := λ A a σ, (inr a, σ).
Global Instance M_bind : MBind M := λ A B f m σ,
  match m σ with
  | (inr a, σ') => f a σ'
  | (inl e, σ') => (inl e, σ')
  end.

Definition log_call (l : level) (m : str) : M unit :=
  λ σ, (inr tt, Parser (source_folder σ) (transactions σ)
                  (logger σ ++ [Log l m]) (written σ)).
Definition set_transactions (df : DataFrame) : M unit :=
  λ σ, (inr tt, Parser (source_folder σ) df (logger σ) (written σ)).
Definition get_transactions : M DataFrame := λ σ, (inr (transactions σ), σ).
Definition get_source_folder : M str := λ σ, (inr (source_folder σ), σ).
Definition to_csv (path : str) (df : DataFrame) : M unit :=
  λ σ, (inr tt, Parser (source_folder σ) (transactions σ) (logger σ)
                  (written σ ++ [(path, df)])).

(** A [for] loop that threads an accumulator. *)
Fixpoint for_each {A B} (xs : list A) (acc : B) (body : A → B → M B) : M B :=
  match xs with
  | [] => mret acc
  | x :: xs' => acc' ← body x acc; for_each xs' acc' body
  end.

(** [enumerate] *)
Definition enumerate {A} (xs : list A) : list (nat * A) :=
  zip (seq 0 (length xs)) xs.

(** An integer in an f-string. *)
Definition str_of_nat (n : nat) : str :=
  lit (NilEmpty.string_of_uint (Nat.to_uint n)).

(** [os.path.basename] and [os.path.join] of [posixpath]. *)
Fixpoint basename_go (s cur : str) : str :=
  match s with
  | [] => cur
  | c :: t => if c =? 47 then basename_go t [] else basename_go t (cur ++ [c])
  end.
Definition basename (p : str) : str := basename_go p [].
Definition path_join (a b : str) : str :=
  if startswith b (lit "/") then b
  else if bool_decide (a = []) || endswith a (lit "/") then a ++ b
  else a ++ lit "/" ++ b.

(** ** Sorting a DataFrame ([pd.concat], [DataFrame.sort_values]) *)

(** Python's order on [datetime.date]: by year, then month, then day. *)
Definition date_leb (a b : date) : bool :=
  ((year a <? year b)
   || ((year a =? year b)
       && ((month a <? month b)
           || ((month a =? month b) && (day a <=? day b)))))%Z.
Definition date_le (a b : date) : Prop := date_leb a b = true.
Definition date_ltb (a b : date) : bool :=
  ((year a <? year b)
   || ((year a =? year b)
       && ((month a <? month b)
           || ((month a =? month b) && (day a <? day b)))))%Z.

(** [sort_values] is called without [kind], so the keys go through
    numpy's [argsort(kind="quicksort")].  Its contract is the indices of
    the keys in an order that sorts them; nothing is promised about equal
    keys.  The routine itself is [NpySort.npy_aquicksort] below. *)
Class Argsort := { argsort : list date → list nat }.

Class ArgsortLaws (Sort : Argsort) : Prop := {
  argsort_perm : ∀ ks, argsort ks ≡ₚ seq 0 (length ks);
  argsort_sorted : ∀ ks, StronglySorted date_le (omap (ks !!.) (argsort ks))
}.

Section sorting.
Context `{Sort : Argsort}.

(** [pandas.core.sorting.nargsort] with [ascending=True] and
    [na_position="last"] on an object column: missing keys are set
    aside, the others are argsorted, and the missing ones are put back
    at the end in their original order. *)
Definition nargsort (items : list (option date)) : list nat :=
  let tagged := enumerate items in
  let non_nan_idx := fst <$> filter (λ p, is_Some p.2) tagged in
  let non_nans := omap snd tagged in
  let nan_idx := fst <$> filter (λ p, p.2 = None) tagged in
  omap (non_nan_idx !!.) (argsort non_nans) ++ nan_idx.

(** [df.take(indexer)] *)
Definition df_take (df : DataFrame) (indexer : list nat) : DataFrame :=
  omap (df !!.) indexer.

(** [df.sort_values(by=COL_BOOKING_DATE)] *)
Definition sort_values (df : DataFrame) : DataFrame :=
  df_take df (nargsort (booking_date <$> df)).
End sorting.

(** *** numpy's quicksort

    [ndarray.argsort(kind="quicksort")] on an array of objects, which is
    what the column of booking dates is, runs numpy's generic
    [npy_aquicksort] (npysort/quicksort) on the indices [0 .. n-1]: an
    introsort with a median of three, insertion sort on the partitions
    of at most [SMALL_QUICKSORT + 1] elements, and [npy_aheapsort] below
    the depth limit.  Pointers into [tosort] are offsets; the two stacks
    [stack] and [depth], pushed and popped together, are one list. *)

(** The key of an index. *)
Definition key_at (ks : list date) (i : nat) : date :=
  default (Date 0 0 0) (ks !! i).

Module NpySort.
Local Open Scope Z_scope.

Definition SMALL_QUICKSORT : Z := 16.

Section keys.
Variable v : list date.

(** [cmp(v + i*elsize, v + j*elsize, arr) < 0], where [cmp] is
[OBJECT_compare]: Python's [<] on the two keys. *)
Definition lt (i j : nat) : bool := date_ltb (key_at v i) (key_at v j).

Definition get (a : list nat) (p : Z) : nat := default 0%nat (a !! Z.to_nat p).
Definition set (a : list nat) (p : Z) (x : nat) : list nat :=
  <[Z.to_nat p := x]> a.
Definition INTP_SWAP (a : list nat) (p q : Z) : list nat :=
  set (set a p (get a q)) q (get a p).

(** The inner loop of [npy_aheapsort], on the array [a = tosort - 1]
that starts at offset [base]:
[for (i, j; j <= n;) { ... } a[i] = tmp;] *)
Fixpoint sift (fuel : nat) (a : list nat) (base n : Z) (tmp : nat) (i j : Z)
: list nat :=
  match fuel with
  | O => a
  | S fuel =>
  if j <=? n then
    let j :=
      if (j <? n) && lt (get a (base + j)) (get a (base + j + 1))
      then j + 1 else j in
    if lt tmp (get a (base + j))
    then sift fuel (set a (base + i) (get a (base + j))) base n tmp j (j + j)
    else set a (base + i) tmp
  else set a (base + i) tmp
  end.

(** [for (l = n >> 1; l > 0; --l)] *)
Fixpoint heapify (fuel : nat) (a : list nat) (base n l : Z) : list nat :=
  match fuel with
  | O => a
  | S fuel =>
  if 0 <? l
  then heapify fuel
         (sift (S (Z.to_nat n)) a base n (get a (base + l)) l (Z.shiftl l 1))
         base n (l - 1)
  else a
  end.

(** [for (; n > 1;)] *)
Fixpoint unheap (fuel : nat) (a : list nat) (base n : Z) : list nat :=
  match fuel with
  | O => a
  | S fuel =>
  if 1 <? n then
    let tmp := get a (base + n) in
    let a := set a (base + n) (get a (base + 1)) in
    let n := n - 1 in
    unheap fuel (sift (S (Z.to_nat n)) a base n tmp 1 2) base n
  else a
  end.

Definition npy_aheapsort (a : list nat) (tosort n : Z) : list nat :=
  let base := tosort - 1 in
  unheap (Z.to_nat n)
(heapify (Z.to_nat n) a base n (Z.shiftr n 1)) base n.

(** [do { ++pi; } while (cmp(key of *pi, vp, arr) < 0);] and its
mirror image; [vp] is the index whose key is the pivot. *)
Fixpoint scan_right (fuel : nat) (a : list nat) (vp : nat) (pi : Z) : Z :=
  match fuel with
  | O => pi
  | S fuel =>
  let pi := pi + 1 in
  if lt (get a pi) vp then scan_right fuel a vp pi else pi
  end.

Fixpoint scan_left (fuel : nat) (a : list nat) (vp : nat) (pj : Z) : Z :=
  match fuel with
  | O => pj
  | S fuel =>
  let pj := pj - 1 in
  if lt vp (get a pj) then scan_left fuel a vp pj else pj
  end.

(** [for (;;) { ...; if (pi >= pj) break; INTP_SWAP of *pi and *pj; }] *)
Fixpoint exchange (fuel : nat) (a : list nat) (vp : nat) (pi pj : Z)
: list nat * Z :=
  match fuel with
  | O => (a, pi)
  | S fuel =>
  let pi := scan_right (length a) a vp pi in
  let pj := scan_left (length a) a vp pj in
  if pj <=? pi then (a, pi)
  else exchange fuel (INTP_SWAP a pi pj) vp pi pj
  end.

(** The body of [while ((pr - pl) > SMALL_QUICKSORT)] up to the place
of the pivot: the median of three goes to [pr - 1], the exchanges
run between [pl] and [pr - 1], and the pivot is put at [pi]. *)
Definition partition (a : list nat) (pl pr : Z) : list nat * Z :=
  let pm := pl + Z.shiftr (pr - pl) 1 in
  let a := if lt (get a pm) (get a pl) then INTP_SWAP a pm pl else a in
  let a := if lt (get a pr) (get a pm) then INTP_SWAP a pr pm else a in
  let a := if lt (get a pm) (get a pl) then INTP_SWAP a pm pl else a in
  let vp := get a pm in
  let pj := pr - 1 in
  let a := INTP_SWAP a pm pj in
  let '(a, pi) := exchange (length a) a vp pl pj in
  let pk := pr - 1 in
  (INTP_SWAP a pi pk, pi).

(** [while ((pr - pl) > SMALL_QUICKSORT)]: partition, push the larger
part with the depth, go on with the smaller one. *)
Fixpoint partitions (fuel : nat) (a : list nat) (pl pr : Z)
(stack : list (Z * Z * Z)) (cdepth : Z)
: list nat * Z * Z * list (Z * Z * Z) :=
  match fuel with
  | O => (a, pl, pr, stack)
  | S fuel =>
  if SMALL_QUICKSORT <? pr - pl then
    let '(a, pi) := partition a pl pr in
    let cdepth := cdepth - 1 in
    if pi - pl <? pr - pi
    then partitions fuel a pl (pi - 1) ((pi + 1, pr, cdepth) :: stack) cdepth
    else partitions fuel a (pi + 1) pr ((pl, pi - 1, cdepth) :: stack) cdepth
  else (a, pl, pr, stack)
  end.

(** [while (pj > pl && cmp(vp, key of *pk, arr) < 0) *pj-- = *pk--;] *)
Fixpoint shift (fuel : nat) (a : list nat) (pl : Z) (vi : nat) (pj : Z)
: list nat * Z :=
  match fuel with
  | O => (a, pj)
  | S fuel =>
  if (pl <? pj) && lt vi (get a (pj - 1))
  then shift fuel (set a pj (get a (pj - 1))) pl vi (pj - 1)
  else (a, pj)
  end.

(** [for (pi = pl + 1; pi <= pr; ++pi)] *)
Fixpoint insertion (fuel : nat) (a : list nat) (pl pr pi : Z) : list nat :=
  match fuel with
  | O => a
  | S fuel =>
  if pi <=? pr then
    let vi := get a pi in
    let '(a, pj) := shift (length a) a pl vi pi in
    insertion fuel (set a pj vi) pl pr (pi + 1)
  else a
  end.

(** [while (1)], left when the stack is empty. *)
Fixpoint sort_loop (fuel : nat) (a : list nat) (pl pr : Z)
(stack : list (Z * Z * Z)) (cdepth : Z) : list nat :=
  match fuel with
  | O => a
  | S fuel =>
  let '(a, stack) :=
    if cdepth <? 0
    then (npy_aheapsort a pl (pr - pl + 1), stack)
    else
      let '(a, pl, pr, stack) :=
        partitions (length a) a pl pr stack cdepth in
      (insertion (length a) a pl pr (pl + 1), stack) in
  match stack with
  | [] => a
  | (pl, pr, cdepth) :: stack => sort_loop fuel a pl pr stack cdepth
  end
  end.

Definition npy_get_msb (unum : Z) : Z := Z.log2 unum.

(** [argsort]: the sort runs on [tosort = arange(n)]. *)
Definition npy_aquicksort : list nat :=
  let num := Z.of_nat (length v) in
  sort_loop (S (length v)) (seq 0 (length v)) 0 (num - 1) []
(npy_get_msb num * 2).
End keys.
End NpySort.

Definition numpy_argsort : Argsort := {| argsort := NpySort.npy_aquicksort |}.

(** ** The extractor ([PDFTransactionParser.parse_pdf], [parse_pdfs]) *)

(** [dict.get(key, [])] on a dict kept in insertion order. *)
Fixpoint dict_get {V} (d : list (TransactionType * list V))
    (key : TransactionType) : list V :=
  match d with
  | [] => []
  | (k, v) :: d' => if decide (k = key) then v else dict_get d' key
  end.

Section extractor.
Context `{U : UnicodeData} `{Sort : Argsort}.
Variable w : world.

(** The two comprehensions that build [pattern_items]. *)
Definition pattern_items (transaction_type : option TransactionType)
    : list (TransactionType * pattern) :=
  match transaction_type with
  | Some ty => (λ p, (ty, p)) <$> dict_get TRANSACTION_PATTERNS ty
  | None =>
      '(tx_type, patterns) ← TRANSACTION_PATTERNS;
      (λ p, (tx_type, p)) <$> patterns
  end.

(** Unpacking a match into six names and building the row's dict. *)
Definition record_of_match (m : list str) : exn + TransactionRecord :=
  match m with
  | [booking; value; tid; cd; desc; amount_str] =>
      b ← parse_date booking;
      v ← parse_date value;
      a ← parse_amount amount_str;
      inr (Row b v tid cd (strip desc) a)
  | _ => inl ValueError
  end.

(** The loops over [pattern_items] and over [pattern.findall(text)]. *)
Definition extract_page (items : list (TransactionType * pattern))
    (text : str) (transaction_list : list TransactionRecord)
    : M (list TransactionRecord) :=
  for_each items transaction_list (λ item acc,
    for_each (findall item.2 text) acc (λ m acc',
      r ← lift (record_of_match m); mret (acc' ++ [r]))).

Definition no_text_warning (pdf_path : str) (page_index : nat) : str :=
  lit "Page " ++ str_of_nat (page_index + 1) ++ lit " in "
  ++ basename pdf_path ++ lit " has no extractable text.".

(** The body of the loop over [enumerate(reader.pages)]; [not text]
    holds for [None] and for the empty string. *)
Definition page_step (pdf_path : str)
    (transaction_type : option TransactionType)
    (page : nat * option str) (transaction_list : list TransactionRecord)
    : M (list TransactionRecord) :=
  let '(page_index, text) := page in
  match text with
  | None | Some [] =>
      log_call WARNING (no_text_warning pdf_path page_index);;
      mret transaction_list
  | Some text =>
      extract_page (pattern_items transaction_type) text transaction_list
  end.

(** [parse_pdf] once its arguments are bound. *)
Definition parse_pdf_body (pdf_path : str)
    (transaction_type : option TransactionType) : M DataFrame :=
  pages ← lift (PdfReader w pdf_path);
  transaction_list ←
    for_each (enumerate pages) [] (page_step pdf_path transaction_type);
  let df : DataFrame := transaction_list in
  log_call INFO (lit "Parsed " ++ str_of_nat (length df)
                 ++ lit " transactions from " ++ basename pdf_path);;
  mret df.

(** A call of [parse_pdf]: [transaction_type] is [None] when the caller
    leaves the argument out, and the default of the [def] is then taken;
    [Some None] is the caller passing Python's [None]. *)
Definition parse_pdf (pdf_path : str)
    (transaction_type : option (option TransactionType)) : M DataFrame :=
  parse_pdf_body pdf_path (default (Some DIRECT_DEBIT) transaction_type).

Definition parse_pdfs_body (transaction_type : option TransactionType)
    (output_csv : option str) : M DataFrame :=
  folder ← get_source_folder;
  names ← lift (listdir w folder);
  all_dfs ← for_each names [] (λ filename (all_dfs : list DataFrame),
    if endswith (str_lower filename) (lit ".pdf")
    then
      let pdf_path := path_join folder filename in
      df_pdf ← parse_pdf pdf_path (Some transaction_type);
      if negb (df_empty df_pdf)
      then mret (all_dfs ++ [df_pdf]) else mret all_dfs
    else mret all_dfs);
  (if bool_decide (all_dfs ≠ [])
   then set_transactions (sort_values (concat all_dfs))
   else set_transactions []);;
  total ← get_transactions;
  log_call INFO (lit "Total transactions parsed: "
                 ++ str_of_nat (length total));;
  match output_csv with
  | Some path =>
      let path' := resolve w path in
      df ← get_transactions;
      to_csv path' df;;
      log_call INFO (lit "Saved transactions to " ++ path')
  | None => mret tt
  end;;
  get_transactions.

(** A call of [parse_pdfs], with the same convention for the arguments
    the caller leaves out. *)
Definition parse_pdfs (transaction_type : option (option TransactionType))
    (output_csv : option (option str)) : M DataFrame :=
  parse_pdfs_body (default (Some DIRECT_DEBIT) transaction_type)
    (default None output_csv).
End extractor.

(** ** The downstream loader ([DataLoader.load]) *)

(** [sep.join(xs)] *)
Fixpoint str_join (sep : str) (xs : list str) : str :=
  match xs with
  | [] => []
  | [x] => x
  | x :: xs' => x ++ sep ++ str_join sep xs'
  end.

(** The characters [re] reads as syntax; any other character stands for
    itself. *)
Definition re_special (c : char) : bool :=
  bool_decide (c ∈ lit ".^$*+?{}[]\|()").

(** [re.compile] on the patterns that use no syntax but [.] and [|]:
    the branches between the bars, each a run of atoms.  [None] on any
    other special character, which this model does not read. *)
Fixpoint re_branches (s : str) : option (list regex) :=
  match s with
  | [] => Some [Eps]
  | c :: t =>
      bs ← re_branches t;
      if c =? 124 then Some (Eps :: bs)
      else
        let atom :=
          if c =? 46 then Some (Chr CNotLF)
          else if re_special c then None else Some (chr c) in
        a ← atom;
        match bs with
        | b :: bs' => Some (Seq a b :: bs')
        | [] => None
        end
  end.

Fixpoint alternation (bs : list regex) : regex :=
  match bs with
  | [] => Eps
  | [b] => b
  | b :: bs' => Alt b (alternation bs')
  end.

Definition re_compile (s : str) : option pattern :=
  bs ← re_branches s; Some (Pattern (alternation bs) 0).

(** [regex.search(x) is not None] *)
Fixpoint re_search `{U : UnicodeData} (p : pattern) (s : str) : bool :=
  match match_here p false s with
  | Some _ => true
  | None => match s with [] => false | _ :: t => re_search p t end
  end.

(** A row of the CSV as [read_csv] gives it; an empty cell is NaN. *)
Record csv_row := CsvRow {
  csv_booking_date : option str;
  csv_value_date : option str;
  csv_transaction_id : option str;
  csv_code : option str;
  csv_description : option str;
  csv_amount : option str
}.

(** What the loader reads from outside: the rows of the file, and
    [pd.to_datetime] on the column of booking dates. *)
Record loader_world := LoaderWorld {
  read_csv : str → exn + list csv_row;
  to_datetime : list (option str) → exn + list (option date)
}.

Section loader.
Context `{U : UnicodeData}.
Variable w : loader_world.

(** [Series.str.contains(pattern, na=False)] on one cell, with the
    default [regex=True]. *)
Definition str_contains (p : pattern) (cell : option str) : bool :=
  match cell with
  | Some x => re_search p x
  | None => false
  end.

(** [DataLoader.load]; the frame is indexed by the converted booking
    dates.  [keywords] is [None] when the caller leaves it out.  The
    outer [None] of the result is a pattern outside [re_compile]. *)
Definition load (file_path : str) (keywords : option (list str))
    : option (exn + list (option date * csv_row)) :=
  let keywords := default [] keywords in
  match read_csv w file_path with
  | inl e => Some (inl e)
  | inr rows =>
      match to_datetime w (csv_booking_date <$> rows) with
      | inl e => Some (inl e)
      | inr dates =>
          let df := zip dates rows in
          if bool_decide (keywords ≠ [])
          then
            p ← re_compile (str_join (lit "|") keywords);
            Some (inr (filter (λ r, str_contains p (csv_description r.2) = true) df))
          else Some (inr df)
      end
  end.
End loader.

(** ** Vocabulary of the specification *)

(** The language of an expression: the strings it matches in full. *)
Inductive matches `{U : UnicodeData} : regex → str → Prop :=
| matches_Eps : matches Eps []
| matches_Chr k c : cmatch k c = true → matches (Chr k) [c]
| matches_Seq a b u v : matches a u → matches b v → matches (Seq a b) (u ++ v)
| matches_Alt_l a b u : matches a u → matches (Alt a b) u
| matches_Alt_r a b u : matches b u → matches (Alt a b) u
| matches_Star_nil g a : matches (Star g a) []
| matches_Star_cons g a u v :
    matches a u → matches (Star g a) v → matches (Star g a) (u ++ v)
| matches_Group n a u : matches a u → matches (Group n a) u.

(** [needle in hay] *)
Fixpoint contains (hay needle : str) : bool :=
  is_prefix needle hay
  || match hay with [] => false | _ :: t => contains t needle end.

(** The number a run of decimal digits of any script denotes. *)
Definition digit_values `{U : UnicodeData} (s : str) : list N :=
  omap decimal s.
Definition number `{U : UnicodeData} (s : str) : N := of_digits (digit_values s).

(** [a] stands before [b] in [l]. *)
Definition precedes {A} (l : list A) (a b : A) : Prop :=
  ∃ i j, (i < j)%nat ∧ l !! i = Some a ∧ l !! j = Some b.

(** The rows one page contributes, as a plain function of its text. *)
Definition page_rows `{U : UnicodeData} (transaction_type : option TransactionType)
    (text : str) : list TransactionRecord :=
  item ← pattern_items transaction_type;
  m ← findall item.2 text;
  match record_of_match m with inr r => [r] | inl _ => [] end.

(** The matches of one page, in the order the loops meet them. *)
Definition page_matches `{U : UnicodeData}
    (transaction_type : option TransactionType) (text : str) : list (list str) :=
  item ← pattern_items transaction_type; findall item.2 text.

(** [not text] is false. *)
Definition has_text (page : option str) : bool :=
  match page with Some (_ :: _) => true | _ => false end.

Definition text_of (page : option str) : str := default [] page.

(** The diagnostics of the pages of one document, numbered from [i]. *)
Fixpoint page_warnings (pdf_path : str) (i : nat) (pages : list (option str))
    : list log_entry :=
  match pages with
  | [] => []
  | page :: rest_pages =>
      (if has_text page then []
       else [Log WARNING (no_text_warning pdf_path i)])
      ++ page_warnings pdf_path (S i) rest_pages
  end.

(** ** Tables and sorts to instantiate the parameters with *)

(** The table restricted to ASCII. *)
Definition ascii_unicode : UnicodeData :=
  {| decimal := ascii_decimal; str_lower := fmap c_tolower |}.

(** ASCII and the Arabic-Indic digits U+0660 to U+0669. *)
Definition arabic_unicode : UnicodeData :=
  {| decimal := λ c,
       if (1632 <=? c) && (c <=? 1641) then Some (c - 1632)
       else ascii_decimal c;
     str_lower := fmap c_tolower |}.

(** An insertion sort of the indices that puts an index in front of the
    indices whose keys are not smaller: among equal keys the later one
    comes first.  It keeps the contract of [argsort] as well. *)
Fixpoint insert_index (ks : list date) (i : nat) (l : list nat) : list nat :=
  match l with
  | [] => [i]
  | j :: l' =>
      if date_leb (key_at ks i) (key_at ks j) then i :: l
      else j :: insert_index ks i l'
  end.

Definition insertion_argsort : Argsort :=
  {| argsort := λ ks, foldl (λ acc i, insert_index ks i acc) [] (seq 0 (length ks)) |}.

(** The rows of a document: those of its pages that have text. *)
Definition doc_rows `{U : UnicodeData} (transaction_type : option TransactionType)
    (pages : list (option str)) : DataFrame :=
  page ← pages;
  if has_text page then page_rows transaction_type (text_of page) else [].

(** The state after some more calls on the logger. *)
Definition add_log (entries : list log_entry) (σ : parser) : parser :=
  Parser (source_folder σ) (transactions σ) (logger σ ++ entries) (written σ).

Definition parsed_info (pdf_path : str) (n : nat) : log_entry :=
  Log INFO (lit "Parsed " ++ str_of_nat n ++ lit " transactions from "
            ++ basename pdf_path).

(** The test [parse_pdfs] applies to a directory entry. *)
Definition is_pdf_name `{U : UnicodeData} (filename : str) : bool :=
  endswith (str_lower filename) (lit ".pdf").

(** The documents of a folder as the loop of [parse_pdfs] meets them: the
    frames of the documents read so far, up to the first document that
    [PdfReader] refuses, and the log entries written on the way. *)
Fixpoint batch `{U : UnicodeData} (w : world) (folder : str)
    (transaction_type : option TransactionType) (names : list str)
    : (exn + list DataFrame) * list log_entry :=
  match names with
  | [] => (inr [], [])
  | filename :: names' =>
      if is_pdf_name filename
      then
        let pdf_path := path_join folder filename in
        match PdfReader w pdf_path with
        | inl e => (inl e, [])
        | inr pages =>
            let df := doc_rows transaction_type pages in
            let entries :=
              page_warnings pdf_path 0 pages
              ++ [parsed_info pdf_path (length df)] in
            match batch w folder transaction_type names' with
            | (inr dfs, l) => (inr (df :: dfs), entries ++ l)
            | (inl e, l) => (inl e, entries ++ l)
            end
        end
      else batch w folder transaction_type names'
  end.

Definition has_booking_date (r : TransactionRecord) : bool :=
  bool_decide (is_Some (booking_date r)).

(** Expressions without capture groups, and without repetition. *)
Fixpoint groupless (r : regex) : bool :=
  match r with
  | Eps | Chr _ => true
  | Seq a b | Alt a b => groupless a && groupless b
  | Star _ a => groupless a
  | Group _ _ => false
  end.

Fixpoint starfree (r : regex) : bool :=
  match r with
  | Eps | Chr _ => true
  | Seq a b | Alt a b => starfree a && starfree b
  | Star _ _ => false
  | Group _ a => starfree a
  end.

(** The sign of a numeral. *)
Definition sign_str (neg : bool) : str := if neg then [45] else [].

(** [s.replace(k, new)] for a one-character [k], read character by
    character. *)
Definition subst_char (k : char) (new : str) (s : str) : str :=
  s ≫= (λ x, if x =? k then new else [x]).

(** ** Vocabulary of the proofs *)

(** What every result of a run satisfies: it is reached by reading a
    string of the expression's language, and the number of group slots
    does not change. *)
Definition reaches `{U : UnicodeData} (r : regex) (st st' : mstate) : Prop :=
  ∃ u, rest st = u ++ rest st' ∧ matches r u
       ∧ length (caps st') = length (caps st).

(** The state in which a pattern with three groups starts on [s]. *)
Definition start (s : str) : mstate := MState s [None; None; None].

(** The frames [parse_pdfs] keeps: those that are not empty. *)
Definition kept (dfs : list DataFrame) : list DataFrame :=
  filter (λ df, negb (df_empty df) = true) dfs.

(** The frame a complete run stores and returns. *)
Definition combined `{Sort : Argsort} (dfs : list DataFrame) : DataFrame :=
  if bool_decide (kept dfs ≠ []) then sort_values (concat dfs) else [].

Definition total_info (df : DataFrame) : log_entry :=
  Log INFO (lit "Total transactions parsed: " ++ str_of_nat (length df)).

(** The state a complete run leaves. *)
Definition finished `{Sort : Argsort} (w : world) (dfs : list DataFrame)
    (l : list log_entry) (out : option str) (σ : parser) : parser :=
  let σ1 := add_log (l ++ [total_info (combined dfs)]) σ in
  match out with
  | Some path =>
      Parser (source_folder σ) (combined dfs)
        (logger σ1
         ++ [Log INFO (lit "Saved transactions to " ++ resolve w path)])
        (written σ ++ [(resolve w path, combined dfs)])
  | None =>
      Parser (source_folder σ) (combined dfs) (logger σ1) (written σ)
  end.

(** The rows with and without a booking date, and the dates. *)
Definition present (df : DataFrame) : DataFrame :=
  filter (λ r, is_Some (booking_date r)) df.
Definition missing (df : DataFrame) : DataFrame :=
  filter (λ r, booking_date r = None) df.
Definition keys (df : DataFrame) : list date := omap booking_date df.

(** The ordered part of a sorted frame: the dated rows, taken in the
    order [argsort] gives for their dates. *)
Definition front `{Sort : Argsort} (df : DataFrame) : DataFrame :=
  omap (present df !!.) (argsort (keys df)).

(** The order of two indices by their keys. *)
Definition key_le (ks : list date) (i j : nat) : Prop :=
  date_le (key_at ks i) (key_at ks j).

(** A table that answers from the laws where they decide and asks the
    given table elsewhere. *)
Definition on_latin1 (U : UnicodeData) : UnicodeData :=
  {| decimal := λ c, if c <? 256 then ascii_decimal c else decimal c;
     str_lower := str_lower |}.

(** A decimal digit of any script, and the ASCII digits of given values. *)
Definition digit `{U : UnicodeData} (c : char) : Prop := is_decimal c = true.
Definition ascii_digits (vs : list N) : str := (λ v, 48 + v) <$> vs.

(** The characters of a plain numeral: a sign, a point or an ASCII digit. *)
Definition numeral_char (c : char) : Prop := c = 45 ∨ c = 46 ∨ (48 ≤ c ≤ 57).

(** A field of a date: digits, after a space at most. *)
Definition token `{U : UnicodeData} (D : str) : Prop :=
  ∃ sp ds, D = sp ++ ds ∧ (sp = [] ∨ sp = [32]) ∧ ds ≠ [] ∧ Forall digit ds.

(** *** What the loops of the sort keep *)

Section npysort_spec.
Local Open Scope Z_scope.
Variable v : list date.

(** The key of index [x] is not greater than the key of index [y]. *)
Definition index_le (x y : nat) : Prop := NpySort.lt v y x = false.

(** [a'] is [a] with the entries at the offsets [pl .. pr] in another
  order. *)
Definition rearranged (a a' : list nat) (pl pr : Z) : Prop :=
length a' = length a
∧ a' ≡ₚ a
∧ ∀ p, 0 ≤ p → p < pl ∨ pr < p → NpySort.get a' p = NpySort.get a p.

Definition sorted_between (a : list nat) (pl pr : Z) : Prop :=
∀ p q, pl ≤ p → p ≤ q → q ≤ pr →
       index_le (NpySort.get a p) (NpySort.get a q).

(** The heap of [npy_aheapsort], on [a[1 .. n]] with [a = tosort - 1] at
  offset [base]: from the parent [lo] on, no child is greater than
  its parent. *)
Definition heap_child (p c : Z) : Prop := c = 2 * p ∨ c = 2 * p + 1.

Definition heap_from (a : list nat) (base lo n : Z) : Prop :=
∀ p c, lo ≤ p → heap_child p c → c ≤ n →
       index_le (NpySort.get a (base + c)) (NpySort.get a (base + p)).

(** The parts of [tosort] that wait to be sorted: the one the loop is
  at and those on the stack, each with its depth.  They lie in the
  array and share no offset. *)
Definition in_part (s : Z * Z * Z) (p : Z) : Prop := s.1.1 ≤ p ≤ s.1.2.

Definition in_array (a : list nat) (parts : list (Z * Z * Z)) : Prop :=
∀ s, s ∈ parts → 0 ≤ s.1.1 ∧ s.1.1 ≤ s.1.2 + 1 ∧ s.1.2 < Z.of_nat (length a).

Fixpoint apart (parts : list (Z * Z * Z)) : Prop :=
match parts with
| [] => True
| s :: parts' =>
    (∀ t p, t ∈ parts' → in_part s p → ¬ in_part t p) ∧ apart parts'
end.

(** What is settled so far: two offsets in order hold keys in order,
  unless both lie in one part that waits. *)
Definition settled (a : list nat) (parts : list (Z * Z * Z)) : Prop :=
∀ p q, 0 ≤ p → p < q → q < Z.of_nat (length a) →
       index_le (NpySort.get a p) (NpySort.get a q)
       ∨ ∃ s, s ∈ parts ∧ in_part s p ∧ in_part s q.

(** The invariant of the loops of [npy_aquicksort]. *)
Definition waiting (a : list nat) (parts : list (Z * Z * Z)) : Prop :=
settled a parts ∧ apart parts ∧ in_array a parts.

(** The passes of the outer loop that are left at most: one for each
  part and one for each of its offsets. *)
Definition weight (parts : list (Z * Z * Z)) : nat :=
sum_list ((λ s, S (Z.to_nat (s.1.2 - s.1.1 + 1))) <$> parts).
End npysort_spec.

(** ** Inputs of the examples *)

(** The description and the row [SAMPLE_TEXT] holds. *)
Definition sample_description : str :=
  lit "D.T.NET Service OHG 402505/129801/EUR 48.40" ++ LF ::
  lit "End-to-End-Ref.:" ++ LF ::
  lit "150808" ++ LF ::
  lit "CORE /Mandatsref.:" ++ LF ::
  lit "402505" ++ LF ::
  lit "Gl" ++ 228 :: lit "ubiger-ID:" ++ LF ::
  lit "DE92ZZZ00000085710".

Definition sample_row : TransactionRecord :=
  Row (Some (Date 2024 12 4)) (Some (Date 2024 12 4))
    (lit "7L2C1U7N2KRV") (lit "5LYN/35742") sample_description
    (Some (Finite true 4840 (-2))).

(** A DirectDebit block as the statements print it, laid out like
    [SAMPLE_TEXT]. *)
Definition statement_block (booking value tid : str) : str :=
  booking ++ LF ::
  value ++ lit "Lastschrift /" ++ LF ::
  lit "Belastung" ++ LF ::
  tid ++ LF ::
  lit "5LYN/35742D.T.NET Service OHG 402505/129801/EUR 48.40" ++ LF ::
  lit "End-to-End-Ref.:" ++ LF ::
  lit "150808" ++ LF ::
  lit "CORE /Mandatsref.:" ++ LF ::
  lit "402505" ++ LF ::
  lit "Gl" ++ 228 :: lit "ubiger-ID:" ++ LF ::
  lit "DE92ZZZ00000085710-48,40" ++ [LF].

(** The parser as [__init__] leaves it. *)
Definition new_parser (folder : str) : parser := Parser folder [] [] [].

(** A folder [/data] of documents given by name; a path that names no
    document cannot be opened. *)
Fixpoint read_doc (docs : list (str * (exn + list (option str))))
    (path : str) : exn + list (option str) :=
  match docs with
  | [] => inl (LibraryError path)
  | (name, r) :: docs' =>
      if bool_decide (lit "/data/" ++ name = path) then r
      else read_doc docs' path
  end.

Definition folder_world (docs : list (str * (exn + list (option str))))
    : world :=
  {| listdir := λ _, inr (fst <$> docs);
     PdfReader := read_doc docs;
     resolve := λ path, path |}.

(** One document of three pages: a block whose booking date is no
    calendar date, a page without text, and the sample block. *)
Definition three_pages : world :=
  folder_world
    [(lit "a.pdf",
      inr [Some (statement_block (lit "31.02.2024") (lit "04.12.2024")
                   (lit "7L2C1U7N2KRV"));
           None;
           Some SAMPLE_TEXT])].


(** Two documents with one transaction each, booked on the same day. *)
Definition second_row : TransactionRecord :=
  Row (Some (Date 2024 12 4)) (Some (Date 2024 12 4))
    (lit "8M3D2V8O3LSW") (lit "5LYN/35742") sample_description
    (Some (Finite true 4840 (-2))).

Definition same_day : world :=
  folder_world
    [(lit "a.pdf", inr [Some SAMPLE_TEXT]);
     (lit "b.pdf",
      inr [Some (statement_block (lit "04.12.2024") (lit "04.12.2024")
                   (lit "8M3D2V8O3LSW"))])].

(** A stored file of three rows, of which only the descriptions matter
    here. *)
Definition described (text : str) : csv_row :=
  CsvRow None None None None (Some text) None.

Definition three_rows : loader_world :=
  {| read_csv := λ _, inr [described (lit "ABC"); described (lit "A.C");
                           described (lit "xyz")];
     to_datetime := λ cells, inr ((λ _, None) <$> cells) |}.

(** What ties a match to the row made of it: the three strings kept,
    the description stripped, and every normalized field what the
    normalizer returns for its raw text. *)
Definition row_of_match `{U : UnicodeData} (m : list str) (r : TransactionRecord)
    : Prop :=
  ∃ booking value tid cd desc amount_str,
    m = [booking; value; tid; cd; desc; amount_str]
    ∧ parse_date booking = inr (booking_date r)
    ∧ parse_date value = inr (value_date r)
    ∧ parse_amount amount_str = inr (amount r)
    ∧ transaction_id r = tid ∧ code r = cd
    ∧ description r = strip desc.

(** The matches of a document, page by page. *)
Definition doc_matches `{U : UnicodeData}
    (transaction_type : option TransactionType) (pages : list (option str))
    : list (list str) :=
  page ← pages;
  if has_text page then page_matches transaction_type (text_of page) else [].

(** [re.fullmatch(r, s) is not None], by a search through the runs. *)
Definition fullmatch `{U : UnicodeData} (r : regex) (s : str) : bool :=
  bool_decide (Exists (λ st, rest st = []) (run r (MState s []))).

(** Two documents booked on different days, the later one first. *)
Definition row_booked (d : Z) (tid : str) : TransactionRecord :=
  Row (Some (Date 2024 12 d)) (Some (Date 2024 12 4)) tid
    (lit "5LYN/35742") sample_description (Some (Finite true 4840 (-2))).

Definition two_days : world :=
  folder_world
    [(lit "a.pdf",
      inr [Some (statement_block (lit "05.12.2024") (lit "04.12.2024")
                   (lit "8M3D2V8O3LSW"))]);
     (lit "notes.txt", inl (LibraryError (lit "not a PDF")));
     (lit "b.pdf", inr [Some SAMPLE_TEXT])].

(** The row of the first page of [three_pages]: no booking date. *)
Definition undated_row : TransactionRecord :=
  Row None (Some (Date 2024 12 4)) (lit "7L2C1U7N2KRV") (lit "5LYN/35742")
    sample_description (Some (Finite true 4840 (-2))).

(** A keyword in which [re] finds no syntax, and the test the claim
    states for a cell: some keyword is a substring of it. *)
Definition plain_keyword (k : str) : Prop := Forall (λ c, re_special c = false) k.


(** The keywords the analyses of the repository pass to [load]
    ([groceries.py] and [rent.py]). *)
Definition groceries_keywords : list str :=
  [lit "REWE"; lit "WIENER FEINBACKEREI"; lit "SCHECK-IN CENTER Alnature"].

Definition rent_keywords : list str := [lit "DWS Alternatives GmbH"].

(** One document with eighteen transactions booked on the same day, a
    page each; their ids end in the letters A to R. *)
Definition busy_day_ids : list str :=
  (λ n, lit "7L2C1U7N2KR" ++ [N.of_nat n]) <$> seq 65 18.

Definition busy_row (tid : str) : TransactionRecord :=
  Row (Some (Date 2024 12 4)) (Some (Date 2024 12 4)) tid
    (lit "5LYN/35742") sample_description (Some (Finite true 4840 (-2))).

Definition busy_day : world :=
  folder_world
    [(lit "a.pdf",
      inr ((λ tid, Some (statement_block (lit "04.12.2024") (lit "04.12.2024") tid))
           <$> busy_day_ids))].

(** The rows of [busy_day] as the pages hold them, and as numpy's
    quicksort leaves them. *)
Definition busy_day_arrived : DataFrame := busy_row <$> busy_day_ids.

Definition busy_day_returned : DataFrame :=
  busy_row
  <$> omap (busy_day_ids !!.)
        [0; 15; 14; 13; 12; 11; 10; 9; 8; 7; 6; 5; 4; 3; 2; 1; 16; 17]%nat.

(** ** The test of the DirectDebit pattern ([test_transaction_patterns.py]) *)

(** [TRANSACTION_PATTERN_TEST]: the test compiles the expression of the
    DirectDebit pattern once more, with the same flag. *)
Definition TRANSACTION_PATTERN_TEST : pattern := Patterns.direct_debit.

(** [pattern.search(text)]: the match at the first position that has
    one. *)
Fixpoint search `{U : UnicodeData} (p : pattern) (s : str) : option mstate :=
  match match_here p false s with
  | Some st => Some st
  | None => match s with [] => None | _ :: t => search p t end
  end.

(** [match.groups()]: a tuple with [None] for a group that took no part
    in the match. *)
Definition match_groups (m : mstate) : list (option str) := caps m.

(** How a test method ends: it passes, an assertion fails, or another
    exception leaves it. *)
Inductive outcome := Passed | Failed | Errored.

Definition and_then (a : outcome) (b : outcome) : outcome :=
  match a with Passed => b | _ => a end.

(** [groups[i]], which raises [IndexError] past the end of the tuple. *)
Definition item (groups : list (option str)) (i : nat)
    (k : option str → outcome) : outcome :=
  match groups !! i with Some x => k x | None => Errored end.

Definition assertEqual (x : option str) (y : str) : outcome :=
  if bool_decide (x = Some y) then Passed else Failed.

(** [assertTrue(x.startswith(p))]; [None] has no [startswith]. *)
Definition assertStartswith (x : option str) (p : str) : outcome :=
  match x with
  | Some s => if startswith s p then Passed else Failed
  | None => Errored
  end.

(** The body of [test_transaction_pattern_match], on a text. *)
Definition test_transaction_pattern_match_on `{U : UnicodeData} (text : str)
    : outcome :=
  match search TRANSACTION_PATTERN_TEST text with
  | None => Failed
  | Some m =>
      let groups := match_groups m in
      and_then (item groups 0 (λ g, assertEqual g (lit "04.12.2024")))
      (and_then (item groups 1 (λ g, assertEqual g (lit "04.12.2024")))
      (and_then (item groups 2 (λ g, assertEqual g (lit "7L2C1U7N2KRV")))
      (and_then (item groups 3 (λ g, assertEqual g (lit "5LYN/35742")))
      (and_then (item groups 4 (λ g, assertStartswith g (lit "D.T.NET Service")))
      (and_then (item groups 5 (λ g, assertEqual g (lit "DE92ZZZ00000085710")))
                (item groups 6 (λ g, assertEqual g (lit "-48,40"))))))))
  end.

Definition test_transaction_pattern_match `{U : UnicodeData} : outcome :=
  test_transaction_pattern_match_on SAMPLE_TEXT.

(** ** The labels of the plots ([plot_times_series.py]) *)

(** The tables behind [str.upper] and [str.isalpha]. *)
Class UnicodeCase := {
  str_upper : str → str;
  isalpha : char → bool
}.

Definition c_toupper (c : char) : char :=
  if (97 <=? c) && (c <=? 122) then c - 32 else c.

Definition c_isalpha (c : char) : bool :=
  ((65 <=? c) && (c <=? 90)) || ((97 <=? c) && (c <=? 122)).

(** What is assumed of these tables: on ASCII text [str.upper] only maps
    ['a'..'z'] to ['A'..'Z'], and the alphabetic ASCII characters are the
    letters. *)
Class UnicodeCaseLaws (C : UnicodeCase) : Prop := {
  upper_ascii : ∀ s, Forall (λ c, c < 128) s → str_upper s = c_toupper <$> s;
  isalpha_ascii : ∀ c, c < 128 → isalpha c = c_isalpha c
}.

(** [d.get(key, default)] on a dict from strings to strings. *)
Fixpoint str_dict_get (d : list (str * str)) (key default : str) : str :=
  match d with
  | [] => default
  | (k, v) :: d' => if bool_decide (k = key) then v else str_dict_get d' key default
  end.

Definition freq_map : list (str * str) :=
  [ (lit "D", lit "Daily");
    (lit "W", lit "Weekly");
    (lit "M", lit "Monthly");
    (lit "Q", lit "Quarterly");
    (lit "Y", lit "Yearly");
    (lit "A", lit "Yearly") ].

Definition frequency_label `{C : UnicodeCase} (freq : str) : str :=
  let base_freq := filter (λ c, isalpha c = true) (str_upper freq) in
  str_dict_get freq_map base_freq (lit "Every " ++ freq).

(** ** The tick labels ([euro_formatter]) *)

(** A [float] by its value: every finite one is [(-1)^neg * m * 2^e]
    for some [m] and [e], the others are the infinities and NaN. *)
Inductive pynumber :=
| Binary (neg : bool) (m : N) (e : Z)
| Inf (neg : bool)
| NotANumber.

(** The integer nearest to [m * 2^e], the even one of two that are
    equally near: the rounding of the format type [f] with precision
    0. *)
Definition round_half_even (m : N) (e : Z) : N :=
  match e with
  | Z.neg p =>
      let d := 2 ^ N.pos p in
      let q := m / d in
      let r := m mod d in
      if 2 * r <? d then q
      else if d <? 2 * r then q + 1
      else if N.even q then q else q + 1
  | _ => m * 2 ^ Z.to_N e
  end.

(** The decimal digits of a number, the last one first. *)
Fixpoint digits_rev (fuel : nat) (n : N) : str :=
  match fuel with
  | O => []
  | S fuel =>
      (48 + n mod 10) :: (if n <? 10 then [] else digits_rev fuel (n / 10))
  end.

Definition decimal_repr (n : N) : str :=
  reverse (digits_rev (S (N.to_nat (N.log2 n))) n).

(** The option [,]: a comma before every group of three digits, counted
    from the right; [k] digits are still to come in the group at
    hand. *)
Fixpoint group3 (k : nat) (digits : str) : str :=
  match digits with
  | [] => []
  | c :: t =>
      match k with
      | O => 44 :: c :: group3 2 t
      | S k' => c :: group3 k' t
      end
  end.

(** [format(x, ",.0f")] *)
Definition format_comma_f0 (x : pynumber) : str :=
  match x with
  | Binary neg m e =>
      let n := round_half_even m e in
      sign_str neg
      ++ reverse (group3 3 (digits_rev (S (N.to_nat (N.log2 n))) n))
  | Inf neg => sign_str neg ++ lit "inf"
  | NotANumber => lit "nan"
  end.

(** [euro_formatter(x, pos)]; the euro sign is U+20AC. *)
Definition euro_formatter {A} (x : pynumber) (pos : A) : str :=
  8364 :: format_comma_f0 x.

(** ** Constructing a parser ([PDFTransactionParser.__init__]) *)

Definition DATA_FOLDER_ENV : str := lit "DATA_FOLDER".

(** A [StreamHandler] with its formatter, given by the two format
    strings. *)
Record handler := StreamHandler { handler_fmt : str; handler_datefmt : str }.

(** The logger named "TransactionParser".  [logging.getLogger] hands the
    same object to every parser of the process, so its handlers and its
    level are one state that all parsers share. *)
Record logger_state := LoggerState {
  handlers : list handler;
  logger_level : Z
}.

(** What [__init__] reads from outside: the environment, and the path
    that [(Path(base).expanduser().resolve() / source_folder).resolve()]
    is. *)
Record init_world := InitWorld {
  getenv : str → option str;
  locate : str → str → str
}.

(** [PDFTransactionParser(source_folder, log_level)]; [log_level] is
    [None] when the caller leaves it out, and [logging.INFO] is 20. *)
Definition init (w : init_world) (source_folder : str) (log_level : option Z)
    (g : logger_state) : (exn + parser) * logger_state :=
  match getenv w DATA_FOLDER_ENV with
  | None | Some [] => (inl ValueError, g)
  | Some base_folder =>
      let self := Parser (locate w base_folder source_folder) [] [] [] in
      let hs :=
        if bool_decide (handlers g = [])
        then handlers g
             ++ [StreamHandler (lit "%(asctime)s [%(levelname)s] %(message)s")
                   (lit "%Y-%m-%d %H:%M:%S")]
        else handlers g in
      (inr self, LoggerState hs (default 20%Z log_level))
  end.

(** ** More vocabulary *)

(** *** A pattern of keywords read by hand *)

(** The alternatives of a pattern are the pieces between its bars.  An
    alternative stands at the head of a text when each of its characters
    meets itself there, a point any character but a line feed. *)
Fixpoint alternatives (s : str) : list str :=
  match s with
  | [] => [[]]
  | c :: t =>
      if c =? 124 then [] :: alternatives t
      else match alternatives t with
           | b :: bs => (c :: b) :: bs
           | [] => [[c]]
           end
  end.





(** The expression of one alternative. *)
Definition atom (c : char) : regex :=
  if c =? 46 then Chr CNotLF else chr c.

(** *** The order of equal keys *)


(** *** The text of a label *)

(** A label read back: the sign after the euro sign, and the number its
    digits write once the commas are taken out. *)
Definition read_label (s : str) : option (bool * N) :=
  match s with
  | c :: t =>
      if c =? 8364 then
        let '(neg, body) := read_sign t in
        let digits := filter (λ c, c ≠ 44) body in
        if bool_decide (digits ≠ [] ∧ Forall (λ c, c_isdigit c = true) digits)
        then Some (neg, of_digits ((λ c, c - 48) <$> digits))
        else None
      else None
  | [] => None
  end.

(** The form of the number in a label: [[0-9]{1,3}(,[0-9]{3})*]. *)
Definition label_re : regex :=
  Seq (rep_range 1 3 (Chr (CRange 48 57)))
    (Star true (Seq (chr 44) (rep 3 (Chr (CRange 48 57))))).

(** ** More inputs of the examples *)

(** A Transfer block as the statements print it, and its row. *)
Definition transfer_block : str :=
  lit "06.12.2024" ++ LF ::
  lit "06.12.2024" ++ 220 :: lit "bertrag /" ++ LF ::
  220 :: lit "berweisung" ++ LF ::
  lit "9N4E3W9P4MTX" ++ LF ::
  lit "5LYN/35742 Miete Dezember" ++ LF ::
  lit "Gl" ++ 228 :: lit "ubiger-ID:" ++ LF ::
  lit "DE92ZZZ00000085710-650,00" ++ [LF].

Definition transfer_row : TransactionRecord :=
  Row (Some (Date 2024 12 6)) (Some (Date 2024 12 6))
    (lit "9N4E3W9P4MTX") (lit "5LYN/35742 ") (lit "Miete Dezember")
    (Some (Finite true 65000 (-2))).

(** One page that holds a Transfer and, after it, a DirectDebit. *)
Definition mixed_page : world :=
  folder_world [(lit "a.pdf", inr [Some (transfer_block ++ SAMPLE_TEXT)])].

(** A folder without a PDF document, and [two_days] without the entry
    that is none. *)
Definition no_documents : world :=
  folder_world [(lit "notes.txt", inl (LibraryError (lit "not a PDF")))].

Definition two_days_only_pdfs : world :=
  folder_world
    [(lit "a.pdf",
      inr [Some (statement_block (lit "05.12.2024") (lit "04.12.2024")
                   (lit "8M3D2V8O3LSW"))]);
     (lit "b.pdf", inr [Some SAMPLE_TEXT])].

(** A document without a transaction: a title page and an empty page. *)
Definition no_blocks : world :=
  folder_world [(lit "a.pdf", inr [Some (lit "Kontoauszug 12/2024"); None])].

(** A stored file with purchases at two of the shops that [groceries.py]
    looks for, a rent payment, and a row without a description. *)
Definition shop_rows : list csv_row :=
  [described (lit "REWE Markt GmbH/Muenchen");
   described (lit "DWS Alternatives GmbH Miete");
   CsvRow None None None None None None;
   described (lit "Rewe online");
   described (lit "1234 WIENER FEINBACKEREI")].

Definition shops : loader_world :=
  {| read_csv := λ _, inr shop_rows;
     to_datetime := λ cells, inr ((λ _, None) <$> cells) |}.

(** A stored file whose descriptions differ in one character. *)
Definition dotted_rows : list csv_row :=
  [described (lit "ABC"); described (lit "A.C");
   described (65 :: LF :: [67]); described (lit "xyz")].

Definition dotted : loader_world :=
  {| read_csv := λ _, inr dotted_rows;
     to_datetime := λ cells, inr ((λ _, None) <$> cells) |}.

(** The case table restricted to ASCII. *)
Definition ascii_case : UnicodeCase :=
  {| str_upper := fmap c_toupper; isalpha := c_isalpha |}.

(** A process in which [DATA_FOLDER] is "/data", and the logger before
    the first parser is constructed ([logging.NOTSET] is 0). *)
Definition data_env : init_world :=
  {| getenv := λ name,
       if bool_decide (name = DATA_FOLDER_ENV) then Some (lit "/data") else None;
     locate := path_join |}.

Definition fresh_logger : logger_state := LoggerState [] 0.

(** A DirectDebit block whose description names a price before the
    amount of the booking. *)
Definition invoice_text : str :=
  lit "04.12.2024" ++ LF ::
  lit "04.12.2024Lastschrift /" ++ LF ::
  lit "Belastung" ++ LF ::
  lit "7L2C1U7N2KRV" ++ LF ::
  lit "5LYN/35742Rechnung 12,50 EUR vom 01.12." ++ LF ::
  lit "DE92ZZZ00000085710-48,40" ++ [LF].

Definition invoice_match : list str :=
  [lit "04.12.2024"; lit "04.12.2024"; lit "7L2C1U7N2KRV"; lit "5LYN/35742";
   lit "Rechnung "; lit "12,50"].

(** *** The places of the matches *)

(** [found p s ms]: the matches [ms] are the groups of runs of the
    pattern on pieces of [s] that follow one another from left to right,
    with any text between them. *)
Inductive found `{U : UnicodeData} (p : pattern) : str → list (list str) → Prop :=
| found_nil s : found p s []
| found_cons gap u s st ms :
    st ∈ run (pat_re p) (MState (u ++ s) (replicate (pat_groups p) None)) →
    rest st = s →
    matches (pat_re p) u →
    found p s ms →
    found p (gap ++ u ++ s) (groups st :: ms).

(** * Proofs *)

(** ** The runs of the engine stay within the language *)

Section engine_facts.
Context `{UnicodeData}.

Lemma loop_sound g a body :
  (∀ st st', st' ∈ body st → reaches a st st') →
  ∀ fuel st st', st' ∈ loop body g fuel st → reaches (Star g a) st st'.
Proof.
  intros Hbody fuel. induction fuel as [|fuel IH]; intros st st' Hin.
  - apply list_elem_of_singleton in Hin as ->.
    exists []. split; [done|]. split; [constructor|done].
  - simpl in Hin.
    assert (st' = st ∨
            st' ∈ filter (λ x, progress st x = true) (body st)
                    ≫= loop body g fuel) as [->|Hin'].
    { destruct g.
      - apply elem_of_app in Hin as [?|Hin]; [by right|].
        apply list_elem_of_singleton in Hin. by left.
      - apply elem_of_cons in Hin as [?|?]; [by left|by right]. }
    + exists []. split; [done|]. split; [constructor|done].
    + apply list_elem_of_bind in Hin' as (st1 & Hin1 & Hst1).
      apply list_elem_of_filter in Hst1 as [_ Hst1].
      destruct (Hbody _ _ Hst1) as (u & Hu & Hm & Hc).
      destruct (IH _ _ Hin1) as (v & Hv & Hm' & Hc').
      exists (u ++ v). split; [|split].
      * rewrite Hu, Hv. by rewrite (assoc_L (++)).
      * by constructor.
      * congruence.
Qed.

Lemma run_sound r : ∀ st st', st' ∈ run r st → reaches r st st'.
Proof.
  induction r as [|k|a IHa b IHb|a IHa b IHb|g a IHa|n a IHa];
    intros st st' Hin; simpl in Hin.
  - apply list_elem_of_singleton in Hin as ->.
    exists []. split; [done|]. split; [constructor|done].
  - destruct (rest st) as [|c t] eqn:Hrest; [by apply elem_of_nil in Hin|].
    destruct (cmatch k c) eqn:Hk; [|by apply elem_of_nil in Hin].
    apply list_elem_of_singleton in Hin as ->.
    exists [c]. split; [done|]. split; [by constructor|done].
  - apply list_elem_of_bind in Hin as (st1 & Hin1 & Hst1).
    destruct (IHa _ _ Hst1) as (u & Hu & Hm & Hc).
    destruct (IHb _ _ Hin1) as (v & Hv & Hm' & Hc').
    exists (u ++ v). split; [|split].
    + rewrite Hu, Hv. by rewrite (assoc_L (++)).
    + by constructor.
    + congruence.
  - apply elem_of_app in Hin as [Hin|Hin].
    + destruct (IHa _ _ Hin) as (u & ? & ? & ?).
      exists u. split; [done|]. split; [by constructor|done].
    + destruct (IHb _ _ Hin) as (u & ? & ? & ?).
      exists u. split; [done|]. split; [by apply matches_Alt_r|done].
  - by apply (loop_sound g a (run a) IHa) in Hin.
  - apply list_elem_of_fmap in Hin as (st1 & -> & Hst1).
    destruct (IHa _ _ Hst1) as (u & ? & ? & Hc).
    exists u. split; [done|]. split; [by constructor|].
    simpl. by rewrite length_insert.
Qed.
End engine_facts.

(** ** The statement monad and its loops *)

Lemma add_log_nil σ : add_log [] σ = σ.
Proof. destruct σ. unfold add_log. simpl. by rewrite (right_id_L [] (++)). Qed.

Lemma add_log_app l1 l2 σ : add_log l2 (add_log l1 σ) = add_log (l1 ++ l2) σ.
Proof. unfold add_log. simpl. by rewrite (assoc_L (++)). Qed.

Lemma bind_inr {A B} (m : M A) (k : A → M B) σ a σ' :
  m σ = (inr a, σ') → (m ≫= k) σ = k a σ'.
Proof. intros Hm. unfold mbind, M_bind. by rewrite Hm. Qed.

Lemma bind_inl {A B} (m : M A) (k : A → M B) σ e σ' :
  m σ = (inl e, σ') → (m ≫= k) σ = (inl e, σ').
Proof. intros Hm. unfold mbind, M_bind. by rewrite Hm. Qed.

(** A loop whose body appends rows and log entries that depend on the
    item alone. *)
Lemma for_each_appends {A B} (f : A → list B) (g : A → list log_entry)
    (body : A → list B → M (list B)) (xs : list A) :
  (∀ x acc σ, x ∈ xs → body x acc σ = (inr (acc ++ f x), add_log (g x) σ)) →
  ∀ acc σ, for_each xs acc body σ
           = (inr (acc ++ (xs ≫= f)), add_log (xs ≫= g) σ).
Proof.
  induction xs as [|x xs IH]; intros Hbody acc σ; simpl.
  - by rewrite (right_id_L [] (++)), add_log_nil.
  - erewrite bind_inr; [|apply Hbody; left].
    rewrite IH by (intros; apply Hbody; by right).
    by rewrite add_log_app, (assoc_L (++)).
Qed.

Section extractor_facts.
Context `{UnicodeData}.

Lemma match_here_groups p ma s st :
  match_here p ma s = Some st → length (groups st) = pat_groups p.
Proof.
  unfold match_here. intros Hhd.
  apply head_Some_elem_of, list_elem_of_filter in Hhd as [_ Hin].
  apply run_sound in Hin as (_ & _ & _ & Hlen). simpl in Hlen.
  unfold groups. rewrite length_fmap.
  etrans; [exact Hlen|apply length_replicate].
Qed.

Lemma scan_groups p s : ∀ skip m, m ∈ scan p s skip → length m = pat_groups p.
Proof.
  induction s as [|c t IH]; intros skip m; destruct skip as [|k]; simpl.
  - destruct (match_here p false []) as [st|] eqn:Hst; [|by intros ?%elem_of_nil].
    destruct (match_here p true []) as [st'|] eqn:Hst'.
    + rewrite !elem_of_cons, elem_of_nil.
      intros [->|[->|[]]]; eauto using match_here_groups.
    + rewrite !elem_of_cons, elem_of_nil.
      intros [->|[]]; eauto using match_here_groups.
  - by intros ?%elem_of_nil.
  - destruct (match_here p false (c :: t)) as [st|] eqn:Hst; [|by apply IH].
    destruct (length t - length (rest st))%nat eqn:Hn.
    + destruct (S (length t) - length (rest st))%nat eqn:Hn'.
      * destruct (match_here p true (c :: t)) as [st'|] eqn:Hst'.
        -- rewrite !elem_of_cons.
           intros [->|[->|?]]; eauto using match_here_groups.
        -- rewrite !elem_of_cons.
           intros [->|?]; eauto using match_here_groups.
      * rewrite !elem_of_cons.
        intros [->|?]; eauto using match_here_groups.
    + destruct (S (length t) - length (rest st))%nat eqn:Hn'; [lia|].
      rewrite !elem_of_cons.
      intros [->|?]; eauto using match_here_groups.
  - apply IH.
Qed.

Lemma findall_groups p s m : m ∈ findall p s → length m = pat_groups p.
Proof. apply scan_groups. Qed.
End extractor_facts.

(** ** One document *)

Section document_facts.
Context `{UnicodeData}.

Lemma except_or_ValueError {A} (o : option A) :
  except_ValueError (or_ValueError o) = inr o.
Proof. by destruct o. Qed.

Lemma parse_date_inr s : parse_date s = inr (Strptime.strptime_dmY s).
Proof. apply except_or_ValueError. Qed.

Lemma parse_amount_inr s :
  parse_amount s
  = inr (py_float (replace (replace s (lit ".") []) (lit ",") (lit "."))).
Proof. apply except_or_ValueError. Qed.

Lemma record_of_match_six m :
  length m = 6%nat →
  ∃ b v t c d a,
    m = [b; v; t; c; d; a]
    ∧ record_of_match m
      = inr (Row (Strptime.strptime_dmY b) (Strptime.strptime_dmY v) t c
               (strip d)
               (py_float (replace (replace a (lit ".") []) (lit ",") (lit ".")))).
Proof.
  intros Hlen.
  destruct m as [|b [|v [|t [|c [|d [|a [|]]]]]]]; try discriminate.
  exists b, v, t, c, d, a. split; [done|].
  unfold record_of_match. by rewrite !parse_date_inr, parse_amount_inr.
Qed.

Lemma registry_six tt item :
  item ∈ pattern_items tt → pat_groups item.2 = 6%nat.
Proof.
  destruct tt as [[]|]; cbn; intros Hin;
    repeat (apply elem_of_cons in Hin as [->|Hin]; [done|]);
    by apply elem_of_nil in Hin.
Qed.

Lemma bind_nil_const {A B} (xs : list A) : xs ≫= (λ _, @nil B) = [].
Proof. by induction xs. Qed.

Lemma extract_page_eq tt text acc σ :
  extract_page (pattern_items tt) text acc σ
  = (inr (acc ++ page_rows tt text), σ).
Proof.
  unfold extract_page, page_rows.
  rewrite (for_each_appends
             (λ item, m ← findall item.2 text;
                      match record_of_match m with
                      | inr r => [r] | inl _ => []
                      end) (λ _, [])).
  { by rewrite bind_nil_const, add_log_nil. }
  intros item acc' σ' Hitem.
  rewrite (for_each_appends
             (λ m, match record_of_match m with
                   | inr r => [r] | inl _ => []
                   end) (λ _, [])).
  { by rewrite bind_nil_const. }
  intros m acc'' σ'' Hm.
  apply findall_groups in Hm. rewrite (registry_six _ _ Hitem) in Hm.
  destruct (record_of_match_six m Hm) as (b & v & t & c & d & a & _ & ->).
  by rewrite add_log_nil.
Qed.

Lemma page_step_eq pdf_path tt i page acc σ :
  page_step pdf_path tt (i, page) acc σ
  = (inr (acc ++ (if has_text page then page_rows tt (text_of page) else [])),
     add_log (if has_text page then []
              else [Log WARNING (no_text_warning pdf_path i)]) σ).
Proof.
  destruct page as [[|c text]|]; simpl.
  - by rewrite (right_id_L [] (++)).
  - by rewrite extract_page_eq, add_log_nil.
  - by rewrite (right_id_L [] (++)).
Qed.

Lemma pages_loop_eq pdf_path tt pages : ∀ i acc σ,
  for_each (zip (seq i (length pages)) pages) acc (page_step pdf_path tt) σ
  = (inr (acc ++ doc_rows tt pages), add_log (page_warnings pdf_path i pages) σ).
Proof.
  induction pages as [|page pages IH]; intros i acc σ; simpl.
  - by rewrite (right_id_L [] (++)), add_log_nil.
  - erewrite bind_inr; [|apply page_step_eq].
    rewrite IH. unfold doc_rows. simpl.
    by rewrite add_log_app, (assoc_L (++)).
Qed.

Lemma log_call_eq l m σ : log_call l m σ = (inr tt, add_log [Log l m] σ).
Proof. done. Qed.

Lemma parse_pdf_body_eq (w : world) pdf_path tt pages σ :
  PdfReader w pdf_path = inr pages →
  parse_pdf_body w pdf_path tt σ
  = (inr (doc_rows tt pages),
     add_log (page_warnings pdf_path 0 pages
              ++ [parsed_info pdf_path (length (doc_rows tt pages))]) σ).
Proof.
  intros Hread. unfold parse_pdf_body.
  erewrite bind_inr; [|unfold lift; by rewrite Hread].
  erewrite bind_inr; [|apply pages_loop_eq].
  erewrite bind_inr; [|apply log_call_eq].
  by rewrite add_log_app.
Qed.

Lemma parse_pdf_body_raises (w : world) pdf_path tt e σ :
  PdfReader w pdf_path = inl e →
  parse_pdf_body w pdf_path tt σ = (inl e, σ).
Proof.
  intros Hread. unfold parse_pdf_body.
  erewrite bind_inl; [done|]. unfold lift. by rewrite Hread.
Qed.
End document_facts.

(** ** A folder of documents *)

Section batch_facts.
Context `{UnicodeData} `{Argsort}.
Variable w : world.

Lemma concat_kept dfs : concat (kept dfs) = concat dfs.
Proof.
  unfold kept. induction dfs as [|df dfs IH]; [done|].
  rewrite filter_cons. case_decide as Hd; simpl; rewrite IH; [done|].
  unfold df_empty in Hd. destruct df; [done|].
  by rewrite bool_decide_eq_false_2 in Hd.
Qed.

Lemma mret_if {A} (b : bool) (x y : A) (σ : parser) :
  (if b then mret x else mret y : M A) σ = (inr (if b then x else y), σ).
Proof. by destruct b. Qed.

Lemma documents_loop_eq folder tt names : ∀ acc σ,
  for_each names acc (λ filename (all_dfs : list DataFrame),
    if endswith (str_lower filename) (lit ".pdf")
    then
      let pdf_path := path_join folder filename in
      df_pdf ← parse_pdf w pdf_path (Some tt);
      if negb (df_empty df_pdf)
      then mret (all_dfs ++ [df_pdf]) else mret all_dfs
    else mret all_dfs) σ
  = match batch w folder tt names with
    | (inr dfs, l) => (inr (acc ++ kept dfs), add_log l σ)
    | (inl e, l) => (inl e, add_log l σ)
    end.
Proof.
  induction names as [|filename names IH]; intros acc σ; simpl.
  - unfold kept. rewrite filter_nil. by rewrite (right_id_L [] (++)), add_log_nil.
  - unfold is_pdf_name.
    destruct (endswith (str_lower filename) (lit ".pdf")); [|apply IH].
    unfold parse_pdf. simpl.
    destruct (PdfReader w (path_join folder filename)) as [e|pages] eqn:Hread.
    + erewrite bind_inl; [by rewrite add_log_nil|].
      erewrite bind_inl; [done|]. by apply parse_pdf_body_raises.
    + erewrite bind_inr;
        [|erewrite bind_inr; [|by apply parse_pdf_body_eq]; apply mret_if].
      rewrite IH.
      destruct (batch w folder tt names) as [[e|dfs] l];
        rewrite add_log_app; [done|].
      unfold kept. rewrite filter_cons.
      destruct (negb (df_empty (doc_rows tt pages))) eqn:Hne.
      * rewrite decide_True by done. by rewrite <-(assoc_L (++)).
      * by rewrite decide_False by done.
Qed.

Lemma parse_pdfs_body_ok tt out σ names dfs l :
  listdir w (source_folder σ) = inr names →
  batch w (source_folder σ) tt names = (inr dfs, l) →
  parse_pdfs_body w tt out σ = (inr (combined dfs), finished w dfs l out σ).
Proof.
  intros Hls Hbatch. unfold parse_pdfs_body.
  erewrite bind_inr; [|reflexivity].
  erewrite bind_inr; [|unfold lift; by rewrite Hls].
  erewrite bind_inr; [|rewrite documents_loop_eq, Hbatch; reflexivity].
  cbv beta. rewrite (left_id_L [] (++)), concat_kept.
  unfold finished, combined.
  destruct out as [path|]; repeat case_bool_decide; try done;
    unfold mbind, M_bind, mret, M_ret, set_transactions, get_transactions,
      log_call, to_csv, total_info, add_log; cbn [fst snd source_folder
      transactions logger written];
    by rewrite <-?(assoc_L (++)).
Qed.

Lemma parse_pdfs_body_raises tt out σ names e l :
  listdir w (source_folder σ) = inr names →
  batch w (source_folder σ) tt names = (inl e, l) →
  parse_pdfs_body w tt out σ = (inl e, add_log l σ).
Proof.
  intros Hls Hbatch. unfold parse_pdfs_body.
  erewrite bind_inr; [|reflexivity].
  erewrite bind_inr; [|unfold lift; by rewrite Hls].
  erewrite bind_inl; [done|]. by rewrite documents_loop_eq, Hbatch.
Qed.
End batch_facts.

(** ** Selecting and reordering rows *)

Section selection.
Context {A B : Type} (f : A → B) (P : B → Prop) `{∀ y, Decision (P y)}.

(** The indices [enumerate] attaches to the selected items point at
    the selected items, in order. *)
Lemma selected_indices (l : list A) : ∀ o,
  Forall2 (λ i x, (o ≤ i)%nat ∧ l !! (i - o)%nat = Some x)
    (fst <$> filter (λ p, P p.2) (zip (seq o (length l)) (f <$> l)))
    (filter (λ x, P (f x)) l).
Proof.
  induction l as [|x l IH]; intros o; [constructor|].
  cbn [length seq fmap list_fmap zip zip_with]. rewrite !filter_cons.
  cbn [snd]. specialize (IH (S o)).
  assert (Forall2 (λ i y, (o ≤ i)%nat ∧ (x :: l) !! (i - o)%nat = Some y)
            (fst <$> filter (λ p, P p.2) (zip (seq (S o) (length l)) (f <$> l)))
            (filter (λ x, P (f x)) l)) as IH'.
  { eapply Forall2_impl; [exact IH|]. intros i y [Hle Hy]. split; [lia|].
    by replace (i - o)%nat with (S (i - S o)) by lia. }
  case_decide; [|done].
  cbn [fmap list_fmap fst]. constructor; [|done].
  split; [lia|]. by rewrite Nat.sub_diag.
Qed.

End selection.

Lemma selected_keys {A C} (f : A → option C) (l : list A) : ∀ o,
  omap snd (zip (seq o (length l)) (f <$> l)) = omap f l.
Proof.
  induction l as [|x l IH]; intros o; [done|].
  cbn [length seq fmap list_fmap zip zip_with omap list_omap snd].
  specialize (IH (S o)). cbn [zip] in IH. by rewrite IH.
Qed.

Lemma omap_Forall2 {A B} (f : A → option B) l k :
  Forall2 (λ i x, f i = Some x) l k → omap f l = k.
Proof. induction 1 as [|i x l k Hi _ IH]; [done|]. cbn. by rewrite Hi, IH. Qed.

Lemma omap_lookup_compose {A} (df : list A) idxs sel :
  Forall2 (λ i x, df !! i = Some x) idxs sel →
  ∀ perm : list nat,
    omap (df !!.) (omap (idxs !!.) perm) = omap (sel !!.) perm.
Proof.
  intros Hsel perm. induction perm as [|p perm IH]; [done|]. cbn.
  destruct (idxs !! p) as [i|] eqn:Hp.
  - destruct (Forall2_lookup_l _ _ _ _ _ Hsel Hp) as (x & Hx & Hi).
    cbn. by rewrite Hx, Hi, IH.
  - apply lookup_ge_None in Hp. rewrite (Forall2_length _ _ _ Hsel) in Hp.
    apply lookup_ge_None in Hp. by rewrite Hp.
Qed.

Lemma omap_lookup_seq {A} (l2 : list A) : ∀ l1,
  omap ((l1 ++ l2) !!.) (seq (length l1) (length l2)) = l2.
Proof.
  induction l2 as [|x l2 IH]; intros l1; [done|]. cbn.
  rewrite list_lookup_middle by done. f_equal.
  specialize (IH (l1 ++ [x])).
  rewrite <-(assoc_L (++)), length_app in IH. cbn in IH.
  by rewrite Nat.add_1_r in IH.
Qed.

Lemma omap_lookup_Permutation {A} (l : list A) perm :
  perm ≡ₚ seq 0 (length l) → omap (l !!.) perm ≡ₚ l.
Proof.
  intros ->. pose proof (omap_lookup_seq l []) as E. cbn in E. by rewrite E.
Qed.

Lemma StronglySorted_lookup {A} (R : relation A) l i j x y :
  StronglySorted R l → (i < j)%nat → l !! i = Some x → l !! j = Some y → R x y.
Proof.
  intros Hs. revert i j. induction Hs as [|z l Hs IH Hall]; intros i j Hij Hi Hj.
  - by rewrite lookup_nil in Hi.
  - destruct j as [|j]; [lia|]. destruct i as [|i]; cbn in *.
    + injection Hi as ->. rewrite Forall_forall in Hall.
      by eapply Hall, list_elem_of_lookup_2.
    + eapply IH; [|done..]. lia.
Qed.

Section sort_values_facts.
Context `{Sort : Argsort}.

Lemma present_keys df :
  Forall2 (λ r d, booking_date r = Some d) (present df) (keys df).
Proof.
  unfold present, keys. induction df as [|r df IH]; [constructor|].
  rewrite filter_cons. cbn. destruct (booking_date r) as [d|] eqn:Hd.
  - rewrite decide_True by done. by constructor.
  - rewrite decide_False by (by intros [? ?]). done.
Qed.

Lemma sort_values_eq df : sort_values df = front df ++ missing df.
Proof.
  unfold sort_values, df_take, nargsort, enumerate.
  rewrite omap_app, length_fmap. f_equal.
  - rewrite (selected_keys booking_date df 0).
    apply omap_lookup_compose.
    eapply Forall2_impl;
      [apply (selected_indices booking_date is_Some df 0)|].
    intros i r [_ Hr]. by rewrite Nat.sub_0_r in Hr.
  - apply omap_Forall2.
    eapply Forall2_impl;
      [apply (selected_indices booking_date (λ o, o = None) df 0)|].
    intros i r [_ Hr]. by rewrite Nat.sub_0_r in Hr.
Qed.

Lemma front_dates df :
  Forall2 (λ r d, booking_date r = Some d) (front df)
    (omap (keys df !!.) (argsort (keys df))).
Proof.
  unfold front. pose proof (present_keys df) as Hpk.
  induction (argsort (keys df)) as [|p perm IH]; [constructor|]. cbn.
  destruct (present df !! p) as [r|] eqn:Hp.
  - destruct (Forall2_lookup_l _ _ _ _ _ Hpk Hp) as (d & Hd & Hrd).
    rewrite Hd. by constructor.
  - apply lookup_ge_None in Hp. rewrite (Forall2_length _ _ _ Hpk) in Hp.
    apply lookup_ge_None in Hp. by rewrite Hp.
Qed.

Context {L : ArgsortLaws Sort}.

Lemma front_Permutation df : front df ≡ₚ present df.
Proof.
  apply omap_lookup_Permutation.
  rewrite (Forall2_length _ _ _ (present_keys df)). apply argsort_perm.
Qed.

Lemma front_sorted df i j a b da db :
  (i < j)%nat → front df !! i = Some a → front df !! j = Some b →
  booking_date a = Some da → booking_date b = Some db → date_le da db.
Proof.
  intros Hij Ha Hb Hda Hdb.
  destruct (Forall2_lookup_l _ _ _ _ _ (front_dates df) Ha) as (da' & Hi & Ha').
  destruct (Forall2_lookup_l _ _ _ _ _ (front_dates df) Hb) as (db' & Hj & Hb').
  assert (da' = da) as -> by congruence.
  assert (db' = db) as -> by congruence.
  eapply StronglySorted_lookup; [apply (argsort_sorted (keys df))|done..].
Qed.

Lemma sort_values_Permutation df : sort_values df ≡ₚ df.
Proof.
  rewrite sort_values_eq, front_Permutation. unfold present, missing.
  rewrite <-(filter_app_complement (λ r, is_Some (booking_date r)) df) at 3.
  f_equiv. erewrite list_filter_iff; [done|]. intros r. cbn.
  rewrite <-eq_None_not_Some. done.
Qed.
End sort_values_facts.

(** ** The order of dates, and an insertion sort of the indices *)

Lemma date_le_total a b : date_leb a b = false → date_le b a.
Proof. unfold date_le, date_leb. destruct a, b; cbn. lia. Qed.

Lemma date_le_trans a b c : date_le a b → date_le b c → date_le a c.
Proof. unfold date_le, date_leb. destruct a, b, c; cbn. lia. Qed.

Section insertion.
Variable ks : list date.

Lemma insert_index_Permutation i l : insert_index ks i l ≡ₚ i :: l.
Proof.
  induction l as [|j l IH]; [done|]. cbn.
  destruct (date_leb _ _); [done|]. rewrite IH. apply Permutation_swap.
Qed.

Lemma insert_index_sorted i l :
  StronglySorted (key_le ks) l → StronglySorted (key_le ks) (insert_index ks i l).
Proof.
  induction 1 as [|j l Hs IH Hall]; cbn; [repeat constructor|].
  destruct (date_leb (key_at ks i) (key_at ks j)) eqn:Hij.
  - constructor; [by constructor|]. constructor; [done|].
    eapply Forall_impl; [exact Hall|]. intros k Hjk.
    by eapply date_le_trans.
  - constructor; [done|]. rewrite insert_index_Permutation.
    constructor; [by apply date_le_total|done].
Qed.

Lemma insertion_loop_Permutation xs : ∀ acc,
  foldl (λ acc i, insert_index ks i acc) acc xs ≡ₚ xs ++ acc.
Proof.
  induction xs as [|x xs IH]; intros acc; [done|]. cbn.
  rewrite IH, insert_index_Permutation. by rewrite Permutation_middle.
Qed.

Lemma insertion_loop_sorted xs : ∀ acc,
  StronglySorted (key_le ks) acc →
  StronglySorted (key_le ks) (foldl (λ acc i, insert_index ks i acc) acc xs).
Proof.
  induction xs as [|x xs IH]; intros acc Hacc; [done|]. cbn.
  by apply IH, insert_index_sorted.
Qed.

Lemma keys_of_sorted l :
  Forall (λ i, (i < length ks)%nat) l →
  StronglySorted (key_le ks) l → StronglySorted date_le (omap (ks !!.) l).
Proof.
  intros Hin Hs. induction Hs as [|i l Hs IH Hall]; [constructor|].
  apply Forall_cons in Hin as [Hi Hin]. cbn.
  destruct (lookup_lt_is_Some_2 ks i Hi) as [d Hd]. rewrite Hd.
  constructor; [by apply IH|].
  apply Forall_forall. intros d' Hd'.
  apply list_elem_of_omap in Hd' as (j & Hj & Hjd).
  rewrite Forall_forall in Hall. specialize (Hall j Hj).
  unfold key_le, key_at in Hall. by rewrite Hd, Hjd in Hall.
Qed.
End insertion.

Lemma insertion_argsort_laws : ArgsortLaws insertion_argsort.
Proof.
  split; intros ks; cbn.
  - rewrite insertion_loop_Permutation. by rewrite (right_id_L [] (++)).
  - apply keys_of_sorted.
    + apply Forall_forall. intros i Hi.
      rewrite insertion_loop_Permutation, (right_id_L [] (++)) in Hi.
      apply elem_of_seq in Hi. lia.
    + apply insertion_loop_sorted. constructor.
Qed.

(** ** numpy's quicksort sorts *)

Lemma date_ltb_leb a b : date_ltb a b = negb (date_leb b a).
Proof. unfold date_ltb, date_leb. destruct a, b; cbn. lia. Qed.

Section npysort.
Local Open Scope Z_scope.
Variable v : list date.

Local Abbreviation lt := (NpySort.lt v).
Local Abbreviation get := NpySort.get.
Local Abbreviation set := NpySort.set.
Local Abbreviation le := (index_le v).

Lemma index_le_date x y : le x y ↔ date_le (key_at v x) (key_at v y).
Proof.
unfold index_le, NpySort.lt, date_le. rewrite date_ltb_leb.
by destruct (date_leb _ _).
Qed.

Lemma index_le_refl x : le x x.
Proof.
apply index_le_date. destruct (date_leb (key_at v x) (key_at v x)) eqn:E; [done|].
by apply date_le_total.
Qed.

Lemma index_le_trans x y z : le x y → le y z → le x z.
Proof. rewrite !index_le_date. apply date_le_trans. Qed.

Lemma lt_index_le x y : lt x y = true → le x y.
Proof.
intros Hlt. apply index_le_date. unfold NpySort.lt in Hlt.
rewrite date_ltb_leb in Hlt. apply date_le_total.
by destruct (date_leb _ _).
Qed.

Lemma not_lt_index_le x y : lt x y = false → le y x.
Proof. done. Qed.

(** *** Reading and writing [tosort] *)

Lemma length_set a p x : length (set a p x) = length a.
Proof. apply length_insert. Qed.

Lemma get_set_eq a p x :
0 ≤ p < Z.of_nat (length a) → get (set a p x) p = x.
Proof.
intros Hp. unfold NpySort.get, NpySort.set.
rewrite list_lookup_insert_eq by lia. done.
Qed.

Lemma get_set_ne a p q x :
0 ≤ p → 0 ≤ q → p ≠ q → get (set a p x) q = get a q.
Proof.
intros Hp Hq Hpq. unfold NpySort.get, NpySort.set.
rewrite list_lookup_insert_ne by lia. done.
Qed.

Lemma lookup_get a p :
0 ≤ p < Z.of_nat (length a) → a !! Z.to_nat p = Some (get a p).
Proof.
intros Hp. unfold NpySort.get.
destruct (lookup_lt_is_Some_2 a (Z.to_nat p)) as [x ->]; [lia|done].
Qed.

Lemma set_get a p : set a p (get a p) = a.
Proof.
unfold NpySort.set, NpySort.get. apply list_insert_id'.
intros Hp. by destruct (lookup_lt_is_Some_2 a _ Hp) as [x ->].
Qed.

Lemma INTP_SWAP_Permutation a p q :
0 ≤ p < Z.of_nat (length a) → 0 ≤ q < Z.of_nat (length a) →
NpySort.INTP_SWAP a p q ≡ₚ a.
Proof.
intros Hp Hq. unfold NpySort.INTP_SWAP, NpySort.set.
apply Permutation_insert_swap; by apply lookup_get.
Qed.

Lemma length_INTP_SWAP a p q : length (NpySort.INTP_SWAP a p q) = length a.
Proof. unfold NpySort.INTP_SWAP. by rewrite !length_set. Qed.

Lemma get_INTP_SWAP_l a p q :
0 ≤ p < Z.of_nat (length a) → 0 ≤ q < Z.of_nat (length a) →
get (NpySort.INTP_SWAP a p q) p = get a q.
Proof.
intros Hp Hq. unfold NpySort.INTP_SWAP.
destruct (decide (p = q)) as [->|Hpq].
- by rewrite get_set_eq by (by rewrite length_set).
- rewrite get_set_ne by lia. by rewrite get_set_eq.
Qed.

Lemma get_INTP_SWAP_r a p q :
0 ≤ p < Z.of_nat (length a) → 0 ≤ q < Z.of_nat (length a) →
get (NpySort.INTP_SWAP a p q) q = get a p.
Proof.
intros Hp Hq. unfold NpySort.INTP_SWAP.
by rewrite get_set_eq by (by rewrite length_set).
Qed.

Lemma get_INTP_SWAP_ne a p q r :
0 ≤ p → 0 ≤ q → 0 ≤ r → r ≠ p → r ≠ q →
get (NpySort.INTP_SWAP a p q) r = get a r.
Proof.
intros Hp Hq Hr Hrp Hrq. unfold NpySort.INTP_SWAP.
by rewrite !get_set_ne by lia.
Qed.

(** Moving the hole: writing [y] at [p] after the entry of [p] went to
  [q] is an exchange in the array that has [y] at [q]. *)
Lemma set_hole_Permutation a p q y :
0 ≤ p < Z.of_nat (length a) → 0 ≤ q < Z.of_nat (length a) → p ≠ q →
set (set a q (get a p)) p y ≡ₚ set a q y.
Proof.
intros Hp Hq Hpq.
rewrite <-(INTP_SWAP_Permutation (set a q y) p q)
  by (by rewrite length_set).
unfold NpySort.INTP_SWAP.
rewrite get_set_eq, get_set_ne by lia.
assert (set (set a q (get a p)) p y
        = set (set (set a q y) p y) q (get a p)) as ->; [|done].
unfold NpySort.set. apply list_eq. intros i.
rewrite !list_lookup_insert, !length_insert.
repeat case_decide; try done; lia.
Qed.

(** *** Rearrangements *)

Lemma rearranged_refl a pl pr : rearranged a a pl pr.
Proof. done. Qed.

Lemma rearranged_trans a b c pl pr :
rearranged a b pl pr → rearranged b c pl pr → rearranged a c pl pr.
Proof.
intros (Hl1 & Hp1 & Ho1) (Hl2 & Hp2 & Ho2). split; [congruence|].
split; [by etrans|]. intros p Hp Hout. by rewrite Ho2, Ho1.
Qed.

Lemma rearranged_mono a b pl pr pl' pr' :
pl' ≤ pl → pr ≤ pr' → rearranged a b pl pr → rearranged a b pl' pr'.
Proof.
intros Hl Hr (Hlen & Hp & Ho). split; [done|]. split; [done|].
intros p Hp0 Hout. apply Ho; lia.
Qed.

Lemma rearranged_INTP_SWAP a p q pl pr :
0 ≤ pl → pr < Z.of_nat (length a) → pl ≤ p ≤ pr → pl ≤ q ≤ pr →
rearranged a (NpySort.INTP_SWAP a p q) pl pr.
Proof.
intros Hl Hr Hp Hq. split; [apply length_INTP_SWAP|].
split; [apply INTP_SWAP_Permutation; lia|].
intros r Hr0 Hout. apply get_INTP_SWAP_ne; lia.
Qed.
(** *** The insertion sort *)

Lemma shift_spec fuel : ∀ a pl vi pj,
0 ≤ pl ≤ pj → pj < Z.of_nat (length a) → (Z.to_nat (pj - pl) ≤ fuel)%nat →
∃ a' pj',
  NpySort.shift v fuel a pl vi pj = (a', pj')
  ∧ pl ≤ pj' ≤ pj
  ∧ length a' = length a
  ∧ (∀ p, 0 ≤ p → p ≤ pj' ∨ pj < p → get a' p = get a p)
  ∧ (∀ p, pj' < p ≤ pj → get a' p = get a (p - 1) ∧ lt vi (get a' p) = true)
  ∧ (pj' = pl ∨ lt vi (get a (pj' - 1)) = false)
  ∧ set a' pj' vi ≡ₚ set a pj vi.
Proof.
induction fuel as [|fuel IH]; intros a pl vi pj Hpl Hpj Hfuel.
{ exists a, pj. split; [done|]. split; [lia|]. split; [done|].
  split; [done|]. split; [intros; lia|]. split; [left; lia|done]. }
cbn [NpySort.shift].
destruct ((pl <? pj) && lt vi (get a (pj - 1))) eqn:Hgo.
- apply andb_true_iff in Hgo as [Hlt Hvi]. apply Z.ltb_lt in Hlt.
  destruct (IH (set a pj (get a (pj - 1))) pl vi (pj - 1))
    as (a' & pj' & -> & Hpj' & Hlen & Hsame & Hmoved & Hstop & Hperm);
    [lia|rewrite length_set; lia|lia|].
  rewrite length_set in Hlen.
  exists a', pj'. split; [done|]. split; [lia|]. split; [done|].
  split; [|split; [|split]].
  + intros p Hp Hout. rewrite Hsame by lia. apply get_set_ne; lia.
  + intros p Hp. destruct (decide (p = pj)) as [->|Hne].
    * rewrite Hsame by lia. rewrite get_set_eq by lia. done.
    * destruct (Hmoved p) as [-> Hlt']; [lia|].
      split; [|done]. apply get_set_ne; lia.
  + destruct Hstop as [->|Hstop]; [by left|].
    destruct (decide (pj' = pl)) as [->|Hne]; [by left|].
    right. rewrite get_set_ne in Hstop by lia. done.
  + rewrite Hperm. apply set_hole_Permutation; lia.
- exists a, pj. split; [done|]. split; [lia|]. split; [done|].
  split; [done|]. split; [intros; lia|]. split; [|done].
  apply andb_false_iff in Hgo as [Hlt|Hvi].
  + left. apply Z.ltb_ge in Hlt. lia.
  + by right.
Qed.

Lemma insertion_spec fuel : ∀ a pl pr pi,
0 ≤ pl → pr < Z.of_nat (length a) → pl < pi ≤ pr + 1 →
sorted_between v a pl (pi - 1) →
(Z.to_nat (pr + 1 - pi) ≤ fuel)%nat →
rearranged a (NpySort.insertion v fuel a pl pr pi) pl pr
∧ sorted_between v (NpySort.insertion v fuel a pl pr pi) pl pr.
Proof.
induction fuel as [|fuel IH]; intros a pl pr pi Hpl Hpr Hpi Hsorted Hfuel.
{ cbn. split; [apply rearranged_refl|].
  intros p q ???. apply Hsorted; lia. }
cbn [NpySort.insertion]. destruct (pi <=? pr) eqn:Hgo.
2:{ apply Z.leb_gt in Hgo. split; [apply rearranged_refl|].
    intros p q ???. apply Hsorted; lia. }
apply Z.leb_le in Hgo.
destruct (shift_spec (length a) a pl (get a pi) pi)
  as (a1 & pj & -> & Hpj & Hlen & Hsame & Hmoved & Hstop & Hperm);
  [lia|lia|lia|].
rewrite set_get in Hperm.
assert (rearranged a (set a1 pj (get a pi)) pl pr) as Hre.
{ split; [by rewrite length_set|]. split; [done|].
  intros p Hp Hout. rewrite get_set_ne by lia. apply Hsame; lia. }
assert (sorted_between v (set a1 pj (get a pi)) pl pi) as Hsorted'.
{ intros p q Hp Hpq Hq.
  assert (∀ r, pl ≤ r < pj → get (set a1 pj (get a pi)) r = get a r) as Hlow.
  { intros r Hr. rewrite get_set_ne by lia. apply Hsame; lia. }
  assert (∀ r, pj < r ≤ pi → get (set a1 pj (get a pi)) r = get a (r - 1)
                             ∧ lt (get a pi) (get a (r - 1)) = true) as Hhigh.
  { intros r Hr. rewrite get_set_ne by lia.
    destruct (Hmoved r) as [Heq Hlt]; [lia|]. by rewrite <-Heq. }
  assert (get (set a1 pj (get a pi)) pj = get a pi) as Hmid.
  { apply get_set_eq. lia. }
  destruct (Z.lt_trichotomy p pj) as [Hp'|[->|Hp']];
    destruct (Z.lt_trichotomy q pj) as [Hq'|[->|Hq']]; try lia.
  - rewrite !Hlow by lia. apply Hsorted; lia.
  - rewrite Hlow, Hmid by lia.
    destruct Hstop as [->|Hstop]; [lia|].
    apply (index_le_trans _ (get a (pj - 1))); [apply Hsorted; lia|done].
  - rewrite Hlow by lia. destruct (Hhigh q) as [-> _]; [lia|].
    apply Hsorted; lia.
  - apply index_le_refl.
  - rewrite Hmid. destruct (Hhigh q) as [-> Hlt]; [lia|].
    by apply lt_index_le.
  - destruct (Hhigh p) as [-> _]; [lia|].
    destruct (Hhigh q) as [-> _]; [lia|]. apply Hsorted; lia. }
destruct (IH (set a1 pj (get a pi)) pl pr (pi + 1)) as [Hre' Hs'];
  [lia|rewrite length_set; lia|lia| |lia|].
{ by replace (pi + 1 - 1) with pi by lia. }
split; [|done]. by apply (rearranged_trans _ _ _ _ _ Hre).
Qed.

Lemma insertion_sorts a pl pr :
0 ≤ pl → pr < Z.of_nat (length a) →
rearranged a (NpySort.insertion v (length a) a pl pr (pl + 1)) pl pr
∧ sorted_between v (NpySort.insertion v (length a) a pl pr (pl + 1)) pl pr.
Proof.
intros Hpl Hpr. destruct (decide (pl ≤ pr)) as [Hle|Hgt].
- apply insertion_spec; try lia.
  intros p q ???. replace q with p by lia. apply index_le_refl.
- assert (NpySort.insertion v (length a) a pl pr (pl + 1) = a) as ->.
  { destruct (length a); [done|]. cbn.
    destruct (pl + 1 <=? pr) eqn:E; [|done]. apply Z.leb_le in E. lia. }
  split; [apply rearranged_refl|]. intros p q ???. lia.
Qed.
(** *** The partition *)

Lemma scan_right_spec fuel : ∀ a vp pi stop,
pi < stop → lt (get a stop) vp = false →
(Z.to_nat (stop - pi) ≤ fuel)%nat →
pi < NpySort.scan_right v fuel a vp pi ≤ stop
∧ (∀ x, pi < x < NpySort.scan_right v fuel a vp pi → lt (get a x) vp = true)
∧ lt (get a (NpySort.scan_right v fuel a vp pi)) vp = false.
Proof.
induction fuel as [|fuel IH]; intros a vp pi stop Hlt Hstop Hfuel; [lia|].
cbn [NpySort.scan_right]. destruct (lt (get a (pi + 1)) vp) eqn:Hgo.
- assert (pi + 1 ≠ stop) by (intros <-; congruence).
  destruct (IH a vp (pi + 1) stop) as (Hb & Hall & Hend); [lia|done|lia|].
  split; [lia|]. split; [|done].
  intros x Hx. destruct (decide (x = pi + 1)) as [->|?]; [done|].
  apply Hall. lia.
- split; [lia|]. split; [intros; lia|done].
Qed.

Lemma scan_left_spec fuel : ∀ a vp pj stop,
stop < pj → lt vp (get a stop) = false →
(Z.to_nat (pj - stop) ≤ fuel)%nat →
stop ≤ NpySort.scan_left v fuel a vp pj < pj
∧ (∀ x, NpySort.scan_left v fuel a vp pj < x < pj → lt vp (get a x) = true)
∧ lt vp (get a (NpySort.scan_left v fuel a vp pj)) = false.
Proof.
induction fuel as [|fuel IH]; intros a vp pj stop Hlt Hstop Hfuel; [lia|].
cbn [NpySort.scan_left]. destruct (lt vp (get a (pj - 1))) eqn:Hgo.
- assert (pj - 1 ≠ stop) by (intros <-; congruence).
  destruct (IH a vp (pj - 1) stop) as (Hb & Hall & Hend); [lia|done|lia|].
  split; [lia|]. split; [|done].
  intros x Hx. destruct (decide (x = pj - 1)) as [->|?]; [done|].
  apply Hall. lia.
- split; [lia|]. split; [intros; lia|done].
Qed.

(** The exchanges: what is left of [pi] is not greater than the pivot,
  what is right of [pj] is not smaller. *)
Lemma exchange_spec fuel : ∀ a vp pl pr pi pj,
0 ≤ pl ≤ pi → pi < pj ≤ pr - 1 → pr < Z.of_nat (length a) →
(∀ x, pl ≤ x ≤ pi → le (get a x) vp) →
(∀ x, pj ≤ x ≤ pr → le vp (get a x)) →
(Z.to_nat (pj - pi) ≤ fuel)%nat →
∃ a' pi',
  NpySort.exchange v fuel a vp pi pj = (a', pi')
  ∧ rearranged a a' (pl + 1) (pr - 2)
  ∧ pi < pi' ≤ pj
  ∧ (∀ x, pl ≤ x < pi' → le (get a' x) vp)
  ∧ (∀ x, pi' ≤ x ≤ pr → le vp (get a' x)).
Proof.
induction fuel as [|fuel IH]; intros a vp pl pr pi pj Hpi Hpj Hpr Hlow Hhigh
  Hfuel; [lia|].
cbn [NpySort.exchange].
destruct (scan_right_spec (length a) a vp pi pj) as (Hi & Hilt & Hiend);
  [lia|apply Hhigh; lia|lia|].
destruct (scan_left_spec (length a) a vp pj pi) as (Hj & Hjlt & Hjend);
  [lia|apply Hlow; lia|lia|].
set (pi1 := NpySort.scan_right v (length a) a vp pi) in *.
set (pj1 := NpySort.scan_left v (length a) a vp pj) in *.
destruct (pj1 <=? pi1) eqn:Hmeet.
- apply Z.leb_le in Hmeet. exists a, pi1. split; [done|].
  split; [apply rearranged_refl|]. split; [lia|]. split.
  + intros x Hx. destruct (decide (x ≤ pi)); [apply Hlow; lia|].
    apply lt_index_le, Hilt. lia.
  + intros x Hx. destruct (decide (x = pi1)) as [->|?]; [done|].
    destruct (decide (x < pj)); [|apply Hhigh; lia].
    apply lt_index_le, Hjlt. lia.
- apply Z.leb_gt in Hmeet.
  destruct (IH (NpySort.INTP_SWAP a pi1 pj1) vp pl pr pi1 pj1)
    as (a' & pi' & -> & Hre & Hb & Hlow' & Hhigh');
    [lia|lia|rewrite length_INTP_SWAP; lia| | |lia|].
  + intros x Hx. destruct (decide (x = pi1)) as [->|?].
    * rewrite get_INTP_SWAP_l by lia. done.
    * rewrite get_INTP_SWAP_ne by lia.
      destruct (decide (x ≤ pi)); [apply Hlow; lia|].
      apply lt_index_le, Hilt. lia.
  + intros x Hx. destruct (decide (x = pj1)) as [->|?].
    * rewrite get_INTP_SWAP_r by lia. done.
    * rewrite get_INTP_SWAP_ne by lia.
      destruct (decide (x < pj)); [|apply Hhigh; lia].
      apply lt_index_le, Hjlt. lia.
  + exists a', pi'. split; [done|]. split; [|split; [lia|done]].
    eapply rearranged_trans; [|exact Hre].
    apply rearranged_INTP_SWAP; lia.
Qed.

(** One step of the median of three. *)
Lemma order_two a p q a' :
0 ≤ p < Z.of_nat (length a) → 0 ≤ q < Z.of_nat (length a) → p ≠ q →
a' = (if lt (get a q) (get a p) then NpySort.INTP_SWAP a q p else a) →
le (get a' p) (get a' q)
∧ length a' = length a
∧ (∀ lo hi, lo ≤ p ≤ hi → lo ≤ q ≤ hi → rearranged a a' lo hi)
∧ (∀ r, 0 ≤ r → r ≠ p → r ≠ q → get a' r = get a r)
∧ ((get a' p = get a p ∧ get a' q = get a q)
   ∨ (get a' p = get a q ∧ get a' q = get a p)).
Proof.
intros Hp Hq Hpq ->. destruct (lt (get a q) (get a p)) eqn:Hlt.
- rewrite get_INTP_SWAP_l, get_INTP_SWAP_r by lia.
  split; [by apply lt_index_le|]. split; [apply length_INTP_SWAP|].
  split; [|split; [|by right]].
  + intros lo hi ??. split; [apply length_INTP_SWAP|].
    split; [apply INTP_SWAP_Permutation; lia|].
    intros r ??. apply get_INTP_SWAP_ne; lia.
  + intros r ???. apply get_INTP_SWAP_ne; lia.
- split; [done|]. split; [done|]. split; [intros; apply rearranged_refl|].
  split; [done|]. by left.
Qed.

Lemma partition_spec a pl pr :
0 ≤ pl → pr < Z.of_nat (length a) → NpySort.SMALL_QUICKSORT < pr - pl →
∃ a' pi,
  NpySort.partition v a pl pr = (a', pi)
  ∧ rearranged a a' pl pr
  ∧ pl < pi < pr
  ∧ (∀ x, pl ≤ x < pi → le (get a' x) (get a' pi))
  ∧ (∀ x, pi < x ≤ pr → le (get a' pi) (get a' x)).
Proof.
unfold NpySort.SMALL_QUICKSORT. intros Hpl Hpr Hbig.
unfold NpySort.partition.
set (pm := pl + Z.shiftr (pr - pl) 1).
assert (pl < pm < pr - 1) as Hpm.
{ unfold pm. rewrite Z.shiftr_div_pow2 by lia. change (2 ^ 1) with 2.
  pose proof (Z.div_le_lower_bound (pr - pl) 2 1).
  pose proof (Z.div_lt_upper_bound (pr - pl) 2 (pr - pl - 1)). lia. }
cbv zeta.
set (a1 := if lt (get a pm) (get a pl) then NpySort.INTP_SWAP a pm pl else a).
destruct (order_two a pl pm a1) as (H1 & L1 & R1 & S1 & _);
  [lia|lia|lia|done|].
set (a2 := if lt (get a1 pr) (get a1 pm) then NpySort.INTP_SWAP a1 pr pm else a1).
destruct (order_two a1 pm pr a2) as (H2 & L2 & R2 & S2 & O2);
  [lia|lia|lia|done|].
set (a3 := if lt (get a2 pm) (get a2 pl) then NpySort.INTP_SWAP a2 pm pl else a2).
destruct (order_two a2 pl pm a3) as (H3 & L3 & R3 & S3 & O3);
  [lia|lia|lia|done|].
assert (le (get a3 pm) (get a3 pr)) as H3'.
{ rewrite (S3 pr) by lia.
  assert (le (get a2 pl) (get a2 pr)) as Hlr.
  { rewrite (S2 pl) by lia. apply (index_le_trans _ (get a1 pm)); [done|].
    destruct O2 as [[E1 E2]|[E1 E2]].
    - by rewrite <-E1.
    - rewrite E2. apply index_le_refl. }
  destruct O3 as [[E1 E2]|[E1 E2]]; rewrite E2; done. }
set (vp := get a3 pm).
set (a4 := NpySort.INTP_SWAP a3 pm (pr - 1)).
assert (length a4 = length a) as L4.
{ unfold a4. rewrite length_INTP_SWAP. congruence. }
destruct (exchange_spec (length a4) a4 vp pl pr pl (pr - 1))
  as (a5 & pi & -> & R5 & Hpi & Hlow & Hhigh); [lia|lia|lia| | |lia|].
{ intros x Hx. replace x with pl by lia. unfold a4.
  rewrite get_INTP_SWAP_ne by lia. done. }
{ intros x Hx. destruct (decide (x = pr)) as [->|?].
  - unfold a4. rewrite get_INTP_SWAP_ne by lia. done.
  - replace x with (pr - 1) by lia. unfold a4.
    rewrite get_INTP_SWAP_r by lia. apply index_le_refl. }
assert (length a5 = length a) as L5 by (destruct R5; congruence).
assert (get a5 (pr - 1) = vp) as Hpivot.
{ destruct R5 as (_ & _ & ->); [|lia|lia].
  unfold a4. by rewrite get_INTP_SWAP_r by lia. }
exists (NpySort.INTP_SWAP a5 pi (pr - 1)), pi. split; [done|].
split; [|split; [lia|split]].
- apply (rearranged_trans _ a1); [apply R1; lia|].
  apply (rearranged_trans _ a2); [apply R2; lia|].
  apply (rearranged_trans _ a3); [apply R3; lia|].
  apply (rearranged_trans _ a4); [apply rearranged_INTP_SWAP; lia|].
  apply (rearranged_trans _ a5); [by apply (rearranged_mono _ _ (pl + 1) (pr - 2)); try lia|].
  apply rearranged_INTP_SWAP; lia.
- intros x Hx. rewrite get_INTP_SWAP_l, Hpivot by lia.
  rewrite get_INTP_SWAP_ne by lia. apply Hlow. lia.
- intros x Hx. rewrite get_INTP_SWAP_l, Hpivot by lia.
  destruct (decide (x = pr - 1)) as [->|?].
  + rewrite get_INTP_SWAP_r by lia. apply Hhigh. lia.
  + rewrite get_INTP_SWAP_ne by lia. apply Hhigh. lia.
Qed.
(** *** The heap sort *)

Lemma larger_child a base n i :
2 * i ≤ n →
let j := 2 * i in
let j' :=
  if (j <? n) && lt (get a (base + j)) (get a (base + j + 1))
  then j + 1 else j in
heap_child i j' ∧ j' ≤ n
∧ ∀ c, heap_child i c → c ≤ n → le (get a (base + c)) (get a (base + j')).
Proof.
intros Hj. cbv zeta. unfold heap_child.
destruct ((2 * i <? n) && _) eqn:Hpick.
- apply andb_true_iff in Hpick as [Hlt Hgt]. apply Z.ltb_lt in Hlt.
  split; [lia|]. split; [lia|]. intros c [->| ->] Hc.
  + apply lt_index_le. by rewrite <-Z.add_assoc in Hgt.
  + apply index_le_refl.
- split; [lia|]. split; [lia|]. intros c [->| ->] Hc.
  + apply index_le_refl.
  + apply andb_false_iff in Hpick as [Hlt|Hgt].
    * apply Z.ltb_ge in Hlt. lia.
    * unfold index_le. by rewrite Z.add_assoc.
Qed.

Lemma sift_spec fuel : ∀ a base n tmp i0 i j,
-1 ≤ base → base + n < Z.of_nat (length a) → 1 ≤ i0 ≤ i → i ≤ n →
j = 2 * i →
(Z.to_nat (n - i) < fuel)%nat →
(∀ p c, i0 ≤ p → heap_child p c → c ≤ n → p ≠ i → c ≠ i →
        le (get a (base + c)) (get a (base + p))) →
(i0 < i → ∀ q c, heap_child q i → heap_child i c → c ≤ n →
          le (get a (base + c)) (get a (base + q))) →
(i0 < i → ∀ q, heap_child q i → lt tmp (get a (base + q)) = true) →
heap_from v (NpySort.sift v fuel a base n tmp i j) base i0 n
∧ rearranged (set a (base + i) tmp) (NpySort.sift v fuel a base n tmp i j)
    (base + i0) (base + n).
Proof.
induction fuel as [|fuel IH];
  intros a base n tmp i0 i j Hbase Hn Hi0 Hi -> Hfuel Hheap Hgrand Hup; [lia|].
assert ((∀ c, heap_child i c → c ≤ n → le (get a (base + c)) tmp) →
        heap_from v (set a (base + i) tmp) base i0 n
        ∧ rearranged (set a (base + i) tmp) (set a (base + i) tmp)
            (base + i0) (base + n)) as Hfill.
{ intros Hch. split; [|apply rearranged_refl].
  intros p c Hp Hpc Hc. unfold heap_child in *.
  destruct (decide (p = i)) as [->|Hpi].
  - rewrite get_set_eq by lia. rewrite get_set_ne by lia.
    by apply Hch.
  - rewrite (get_set_ne _ _ (base + p)) by lia.
    destruct (decide (c = i)) as [->|Hci].
    + rewrite get_set_eq by lia. apply lt_index_le, Hup; [lia|done].
    + rewrite get_set_ne by lia. by apply Hheap. }
cbn [NpySort.sift]. destruct (2 * i <=? n) eqn:Hj.
2:{ apply Z.leb_gt in Hj. apply Hfill. unfold heap_child. intros; lia. }
apply Z.leb_le in Hj.
destruct (larger_child a base n i Hj) as (Hchild & Hle & Hmax).
cbv zeta in Hchild, Hle, Hmax.
set (j' := if (2 * i <? n) && lt (get a (base + 2 * i)) (get a (base + 2 * i + 1))
           then 2 * i + 1 else 2 * i) in *.
destruct (lt tmp (get a (base + j'))) eqn:Hgo.
2:{ apply Hfill. intros c Hc Hcn.
    apply (index_le_trans _ (get a (base + j'))); [|done]. by apply Hmax. }
clear Hfill.
assert (i < j') as Hij by (unfold heap_child in Hchild; lia).
destruct (IH (set a (base + i) (get a (base + j'))) base n tmp i0 j' (j' + j'))
  as [Hh Hre]; [lia|rewrite length_set; lia|lia|lia|lia|lia| | | |].
- intros p c Hp Hpc Hc Hpj Hcj. unfold heap_child in *.
  destruct (decide (p = i)) as [->|Hpi].
  + rewrite get_set_eq by lia. rewrite get_set_ne by lia.
    by apply Hmax.
  + rewrite (get_set_ne _ _ (base + p)) by lia.
    destruct (decide (c = i)) as [->|Hci].
    * rewrite get_set_eq by lia. apply (Hgrand ltac:(lia) p j'); done.
    * rewrite get_set_ne by lia. by apply Hheap.
- intros _ q c Hq Hc Hcn. unfold heap_child in *.
  assert (q = i) as -> by lia.
  rewrite get_set_eq by lia. rewrite get_set_ne by lia.
  apply Hheap; try done; lia.
- intros _ q Hq. unfold heap_child in *. assert (q = i) as -> by lia.
  by rewrite get_set_eq by lia.
- split; [done|].
  eapply rearranged_trans; [|exact Hre].
  split; [by rewrite !length_set|]. split.
  + symmetry. rewrite <-(set_hole_Permutation a (base + j') (base + i) tmp) by lia.
    done.
  + intros r Hr Hout. unfold heap_child in *.
    rewrite !get_set_ne by lia. done.
Qed.
(** A rearrangement between two offsets moves no entry in or out. *)
Lemma rearranged_slice a a' lo hi :
rearranged a a' lo hi → 0 ≤ lo → lo ≤ hi + 1 → hi < Z.of_nat (length a) →
take (Z.to_nat (hi + 1 - lo)) (drop (Z.to_nat lo) a')
≡ₚ take (Z.to_nat (hi + 1 - lo)) (drop (Z.to_nat lo) a).
Proof.
intros (Hlen & Hperm & Hout) Hlo Hle Hhi.
set (L := Z.to_nat lo). set (K := Z.to_nat (hi + 1 - lo)).
assert (∀ i : nat, (i < L ∨ L + K ≤ i)%nat → a' !! i = a !! i) as Hsame.
{ intros i Hi. destruct (decide (i < length a)%nat) as [Hin|Hnin].
  - specialize (Hout (Z.of_nat i) ltac:(lia) ltac:(lia)).
    rewrite <-(Nat2Z.id i).
    rewrite !lookup_get by lia. by rewrite Hout.
  - rewrite !lookup_ge_None_2 by lia. done. }
assert (∀ l : list nat,
          l = take L l ++ take K (drop L l) ++ drop (L + K) l) as Hsplit.
{ intros l. by rewrite <-drop_drop, take_drop, take_drop. }
rewrite (Hsplit a'), (Hsplit a) in Hperm.
assert (take L a' = take L a) as EL.
{ apply list_eq. intros i. destruct (decide (i < L)%nat).
  - rewrite !lookup_take_lt by done. apply Hsame. lia.
  - rewrite !lookup_take_ge by lia. done. }
assert (drop (L + K) a' = drop (L + K) a) as EK.
{ apply list_eq. intros i. rewrite !lookup_drop. apply Hsame. lia. }
rewrite EL, EK in Hperm.
apply (inj (take L a ++.)) in Hperm.
by apply (inj (.++ drop (L + K) a)) in Hperm.
Qed.

Lemma rearranged_elem a a' lo hi x :
rearranged a a' lo hi → 0 ≤ lo → hi < Z.of_nat (length a) → lo ≤ x ≤ hi →
∃ y, lo ≤ y ≤ hi ∧ get a' x = get a y.
Proof.
intros Hre Hlo Hhi Hx.
pose proof (rearranged_slice a a' lo hi Hre Hlo ltac:(lia) Hhi) as Hperm.
destruct Hre as (Hlen & _ & _).
assert (get a' x ∈ take (Z.to_nat (hi + 1 - lo)) (drop (Z.to_nat lo) a')) as Hin.
{ apply list_elem_of_lookup. exists (Z.to_nat (x - lo)).
  rewrite lookup_take_lt by lia. rewrite lookup_drop.
  replace (Z.to_nat lo + Z.to_nat (x - lo))%nat with (Z.to_nat x) by lia.
  apply lookup_get. lia. }
rewrite Hperm in Hin. apply list_elem_of_lookup in Hin as [i Hi].
apply lookup_take_Some in Hi as [Hi Hlt]. rewrite lookup_drop in Hi.
exists (lo + Z.of_nat i). split; [lia|].
unfold NpySort.get at 2.
replace (Z.to_nat (lo + Z.of_nat i)) with (Z.to_nat lo + i)%nat by lia.
by rewrite Hi.
Qed.

Lemma heap_max a base n :
heap_from v a base 1 n →
∀ k, 1 ≤ k ≤ n → le (get a (base + k)) (get a (base + 1)).
Proof.
intros Hheap k Hk.
assert (∀ fuel k, 1 ≤ k ≤ n → (Z.to_nat k ≤ fuel)%nat →
                  le (get a (base + k)) (get a (base + 1))) as Hind.
{ clear k Hk. induction fuel as [|fuel IH]; intros k Hk Hfuel; [lia|].
  destruct (decide (k = 1)) as [->|Hk1]; [apply index_le_refl|].
  apply (index_le_trans _ (get a (base + k / 2))).
  - apply Hheap; [|unfold heap_child|lia].
    + pose proof (Z.div_le_lower_bound k 2 1). lia.
    + pose proof (Z.div_mod k 2). pose proof (Z.mod_pos_bound k 2). lia.
  - apply IH.
    + pose proof (Z.div_le_lower_bound k 2 1).
      pose proof (Z.div_le_upper_bound k 2 n). lia.
    + pose proof (Z.div_lt_upper_bound k 2 k). lia. }
by apply (Hind (Z.to_nat k)).
Qed.

Lemma heapify_spec fuel : ∀ a base n l,
-1 ≤ base → base + n < Z.of_nat (length a) → 0 ≤ l ≤ n →
heap_from v a base (l + 1) n →
(Z.to_nat l ≤ fuel)%nat →
heap_from v (NpySort.heapify v fuel a base n l) base 1 n
∧ rearranged a (NpySort.heapify v fuel a base n l) (base + 1) (base + n).
Proof.
induction fuel as [|fuel IH]; intros a base n l Hbase Hn Hl Hheap Hfuel.
{ cbn. replace l with 0 in Hheap by lia. split; [done|apply rearranged_refl]. }
cbn [NpySort.heapify]. destruct (0 <? l) eqn:Hgo.
2:{ apply Z.ltb_ge in Hgo. replace l with 0 in Hheap by lia.
    split; [done|apply rearranged_refl]. }
apply Z.ltb_lt in Hgo.
destruct (sift_spec (S (Z.to_nat n)) a base n (get a (base + l)) l l
            (Z.shiftl l 1)) as [Hh Hre];
  [lia|lia|lia|lia|rewrite Z.shiftl_mul_pow2 by lia; lia|lia| |lia|lia|].
{ intros p c Hp Hpc Hc Hpl Hcl. apply Hheap; [lia|done|done]. }
rewrite set_get in Hre.
set (a1 := NpySort.sift v (S (Z.to_nat n)) a base n (get a (base + l)) l
             (Z.shiftl l 1)) in *.
assert (length a1 = length a) as Hlen by (by destruct Hre).
destruct (IH a1 base n (l - 1)) as [Hh' Hre']; [lia|lia|lia| |lia|].
{ by replace (l - 1 + 1) with l by lia. }
split; [done|]. eapply rearranged_trans; [|exact Hre'].
apply (rearranged_mono _ _ (base + l) (base + n)); [lia|lia|done].
Qed.

Lemma unheap_spec fuel : ∀ a base n N,
-1 ≤ base → base + N < Z.of_nat (length a) → 0 ≤ n ≤ N →
heap_from v a base 1 n →
sorted_between v a (base + n + 1) (base + N) →
(∀ k k', 1 ≤ k ≤ n → n < k' ≤ N →
         le (get a (base + k)) (get a (base + k'))) →
(Z.to_nat n ≤ fuel)%nat →
sorted_between v (NpySort.unheap v fuel a base n) (base + 1) (base + N)
∧ rearranged a (NpySort.unheap v fuel a base n) (base + 1) (base + N).
Proof.
assert (∀ a base n N,
          0 ≤ n ≤ 1 →
          sorted_between v a (base + n + 1) (base + N) →
          (∀ k k', 1 ≤ k ≤ n → n < k' ≤ N →
                   le (get a (base + k)) (get a (base + k'))) →
          sorted_between v a (base + 1) (base + N)) as Hdone.
{ intros a base n N Hn Hsorted Hcross p q Hp Hpq Hq.
  destruct (decide (base + n + 1 ≤ p)); [apply Hsorted; lia|].
  assert (n = 1 ∧ p = base + 1) as [-> ->] by lia.
  destruct (decide (q = base + 1)) as [->|?]; [apply index_le_refl|].
  replace q with (base + (q - base)) by lia. apply Hcross; lia. }
induction fuel as [|fuel IH]; intros a base n N Hbase HN Hn Hheap Hsorted
  Hcross Hfuel.
{ cbn. split; [|apply rearranged_refl]. apply (Hdone a base n N); [lia|done..]. }
cbn [NpySort.unheap]. destruct (1 <? n) eqn:Hgo.
2:{ apply Z.ltb_ge in Hgo. split; [|apply rearranged_refl].
    apply (Hdone a base n N); [lia|done..]. }
apply Z.ltb_lt in Hgo. cbv zeta.
set (tmp := get a (base + n)).
set (a1 := set a (base + n) (get a (base + 1))).
assert (length a1 = length a) as Hlen1 by apply length_set.
destruct (sift_spec (S (Z.to_nat (n - 1))) a1 base (n - 1) tmp 1 1 2)
  as [Hh Hre]; [lia|lia|lia|lia|lia|lia| |lia|lia|].
{ intros p c Hp Hpc Hc Hp1 Hc1. unfold heap_child in Hpc. unfold a1.
  rewrite !get_set_ne by lia. apply Hheap; [lia|done|lia]. }
set (a2 := NpySort.sift v (S (Z.to_nat (n - 1))) a1 base (n - 1) tmp 1 2) in *.
assert (set a1 (base + 1) tmp = NpySort.INTP_SWAP a (base + n) (base + 1))
  as Hswap by done.
rewrite Hswap in Hre.
assert (rearranged a a2 (base + 1) (base + N)) as Hre2.
{ eapply rearranged_trans.
  - apply (rearranged_INTP_SWAP a (base + n) (base + 1)); lia.
  - apply (rearranged_mono _ _ (base + 1) (base + (n - 1))); [lia|lia|done]. }
assert (length a2 = length a) as Hlen2 by (by destruct Hre2).
assert (∀ k, n ≤ k → get a2 (base + k)
                     = if decide (k = n) then get a (base + 1)
                       else get a (base + k)) as Hhigh.
{ intros k Hk. destruct Hre as (_ & _ & ->); [|lia|lia].
  case_decide as Hkn.
  - subst k. rewrite get_INTP_SWAP_l by lia. done.
  - rewrite get_INTP_SWAP_ne by lia. done. }
assert (∀ k, 1 ≤ k ≤ n - 1 →
             ∃ y, 1 ≤ y ≤ n ∧ get a2 (base + k) = get a (base + y)) as Hlow.
{ intros k Hk.
  destruct (rearranged_elem _ _ _ _ (base + k) Hre) as (y & Hy & ->);
    [lia|rewrite length_INTP_SWAP; lia|lia|].
  destruct (decide (y = base + 1)) as [->|Hy1].
  - exists n. split; [lia|]. rewrite get_INTP_SWAP_r by lia. done.
  - exists (y - base). split; [lia|].
    rewrite get_INTP_SWAP_ne by lia. f_equal. lia. }
destruct (IH a2 base (n - 1) N) as [Hs' Hre']; [lia|lia|lia|done| | |lia|].
- intros p q Hp Hpq Hq.
  replace p with (base + (p - base)) by lia.
  replace q with (base + (q - base)) by lia.
  rewrite !Hhigh by lia. repeat case_decide; try lia.
  + apply index_le_refl.
  + apply Hcross; lia.
  + replace (base + (p - base)) with p by lia.
    replace (base + (q - base)) with q by lia. apply Hsorted; lia.
- intros k k' Hk Hk'. destruct (Hlow k) as (y & Hy & ->); [lia|].
  rewrite Hhigh by lia. case_decide.
  + apply (heap_max a base n); [done|lia].
  + apply Hcross; lia.
- split; [done|]. by apply (rearranged_trans _ a2).
Qed.

Lemma npy_aheapsort_spec a pl n :
0 ≤ pl → 0 ≤ n → pl + n ≤ Z.of_nat (length a) →
sorted_between v (NpySort.npy_aheapsort v a pl n) pl (pl + n - 1)
∧ rearranged a (NpySort.npy_aheapsort v a pl n) pl (pl + n - 1).
Proof.
intros Hpl Hn Hlen. unfold NpySort.npy_aheapsort. cbv zeta.
destruct (heapify_spec (Z.to_nat n) a (pl - 1) n (Z.shiftr n 1))
  as [Hheap Hre]; [lia|lia| | |..].
{ rewrite Z.shiftr_div_pow2 by lia. change (2 ^ 1) with 2.
  pose proof (Z.div_le_upper_bound n 2 n).
  pose proof (Z.div_le_lower_bound n 2 0). lia. }
{ intros p c Hp Hc Hcn. exfalso. unfold heap_child in Hc.
  rewrite Z.shiftr_div_pow2 in Hp by lia. change (2 ^ 1) with 2 in Hp.
  pose proof (Z.div_mod n 2). pose proof (Z.mod_pos_bound n 2). lia. }
{ rewrite Z.shiftr_div_pow2 by lia. change (2 ^ 1) with 2.
  pose proof (Z.div_le_upper_bound n 2 n). lia. }
set (a1 := NpySort.heapify v (Z.to_nat n) a (pl - 1) n (Z.shiftr n 1)) in *.
assert (length a1 = length a) as Hlen1 by (by destruct Hre).
destruct (unheap_spec (Z.to_nat n) a1 (pl - 1) n n) as [Hs Hre'];
  [lia|lia|lia|done| | |lia|].
{ intros p q ???. lia. }
{ intros k k' ??. lia. }
replace (pl - 1 + 1) with pl in * by lia.
replace (pl - 1 + n) with (pl + n - 1) in * by lia.
split; [done|]. by apply (rearranged_trans _ a1).
Qed.
(** *** The loops of the quicksort *)

Lemma settled_refine a a' s news stack :
waiting v a (s :: stack) →
rearranged a a' s.1.1 s.1.2 →
(∀ t p, t ∈ news → in_part t p → in_part s p) →
(∀ p q, in_part s p → in_part s q → p < q →
        le (get a' p) (get a' q)
        ∨ ∃ t, t ∈ news ∧ in_part t p ∧ in_part t q) →
settled v a' (news ++ stack).
Proof.
intros (Hset & [Hapart _] & Harr) Hre Hsub Hin p q Hp Hpq Hq.
destruct (Harr s) as (Hl & _ & Hr); [by left|].
pose proof Hre as (Hlen & _ & Hout). rewrite Hlen in Hq.
assert (∀ x y, in_part s x → ¬ in_part s y → 0 ≤ y < Z.of_nat (length a) →
               x ≠ y →
               ∀ t, t ∈ s :: stack → in_part t x → in_part t y → False)
  as Hother.
{ intros x y Hx Hy Hyb Hxy t [->|Ht]%elem_of_cons Htx Hty; [done|].
  by apply (Hapart t x). }
destruct (decide (in_part s p)) as [Hps|Hps];
  destruct (decide (in_part s q)) as [Hqs|Hqs].
- destruct (Hin p q Hps Hqs Hpq) as [?|(t & Ht & ? & ?)]; [by left|].
  right. exists t. rewrite elem_of_app. auto.
- left. unfold in_part in *.
  destruct (rearranged_elem a a' _ _ p Hre) as (y & Hy & ->); [lia..|].
  rewrite (Hout q) by lia.
  destruct (Hset y q) as [?|(t & Ht & Hty & Htq)]; [lia..|done|].
  destruct (Hother y q) with t; unfold in_part; try done; lia.
- left. unfold in_part in *.
  destruct (rearranged_elem a a' _ _ q Hre) as (y & Hy & ->); [lia..|].
  rewrite (Hout p) by lia.
  destruct (Hset p y) as [?|(t & Ht & Htp & Hty)]; [lia..|done|].
  destruct (Hother y p) with t; unfold in_part; try done; lia.
- unfold in_part in *. rewrite (Hout p), (Hout q) by lia.
  destruct (Hset p q) as [?|(t & Ht & Htp & Htq)]; [lia..|by left|].
  right. exists t. split; [|done].
  apply elem_of_cons in Ht as [->|Ht]; [done|].
  rewrite elem_of_app. auto.
Qed.

Lemma waiting_done a a' s stack :
waiting v a (s :: stack) →
rearranged a a' s.1.1 s.1.2 →
sorted_between v a' s.1.1 s.1.2 →
waiting v a' stack.
Proof.
intros Hw Hre Hsorted. split; [|split].
- apply (settled_refine a a' s [] stack Hw Hre).
  + by intros t p ?%elem_of_nil.
  + intros p q Hp Hq Hpq. left. unfold in_part in *. apply Hsorted; lia.
- by destruct Hw as (_ & [_ ?] & _).
- destruct Hw as (_ & _ & Harr). destruct Hre as (Hlen & _).
  intros t Ht. rewrite Hlen. apply Harr. by right.
Qed.

Lemma waiting_split a a' pl pr pi cd d1 d2 stack :
waiting v a ((pl, pr, cd) :: stack) →
rearranged a a' pl pr →
pl < pi < pr →
(∀ x, pl ≤ x < pi → le (get a' x) (get a' pi)) →
(∀ x, pi < x ≤ pr → le (get a' pi) (get a' x)) →
waiting v a' ((pl, pi - 1, d1) :: (pi + 1, pr, d2) :: stack)
∧ waiting v a' ((pi + 1, pr, d2) :: (pl, pi - 1, d1) :: stack).
Proof.
intros Hw Hre Hpi Hlow Hhigh.
pose proof Hw as (_ & [Hapart Hapart'] & Harr).
destruct (Harr (pl, pr, cd)) as (Hl & _ & Hr); [by left|]. cbn in Hl, Hr.
destruct Hre as (Hlen & Hperm & Hout).
assert (∀ news,
          (∀ t, t ∈ news ↔ t = (pl, pi - 1, d1) ∨ t = (pi + 1, pr, d2)) →
          settled v a' (news ++ stack)) as Hset.
{ intros news Hnews.
  apply (settled_refine a a' (pl, pr, cd) news stack Hw); [done|..].
  - intros t p [->| ->]%Hnews; unfold in_part; cbn; lia.
  - intros p q Hp Hq Hpq. unfold in_part in Hp, Hq. cbn in Hp, Hq.
    destruct (decide (q < pi)).
    { right. exists (pl, pi - 1, d1). rewrite Hnews.
      unfold in_part. cbn. split; [by left|lia]. }
    destruct (decide (pi < p)).
    { right. exists (pi + 1, pr, d2). rewrite Hnews.
      unfold in_part. cbn. split; [by right|lia]. }
    left. apply (index_le_trans _ (get a' pi)).
    + destruct (decide (p = pi)) as [->|?]; [apply index_le_refl|].
      apply Hlow. lia.
    + destruct (decide (q = pi)) as [->|?]; [apply index_le_refl|].
      apply Hhigh. lia. }
assert (∀ t p, t ∈ stack → pl ≤ p ≤ pr → ¬ in_part t p) as Hfree.
{ intros t p Ht Hp. by apply (Hapart t p). }
assert (in_array a' stack) as Harr'.
{ intros t Ht. rewrite Hlen. apply Harr. by right. }
split.
- split; [|split].
  + apply (Hset [(pl, pi - 1, d1); (pi + 1, pr, d2)]).
    intros t. rewrite !elem_of_cons, elem_of_nil. tauto.
  + split; [|split; [|done]].
    * intros t p [->|Ht]%elem_of_cons; unfold in_part; cbn; [lia|].
      intros Hp. apply Hfree; [done|lia].
    * intros t p Ht. unfold in_part at 1. cbn. intros Hp.
      apply Hfree; [done|lia].
  + intros t [->|[->|Ht]%elem_of_cons]%elem_of_cons; cbn; [lia..|].
    by apply Harr'.
- split; [|split].
  + apply (Hset [(pi + 1, pr, d2); (pl, pi - 1, d1)]).
    intros t. rewrite !elem_of_cons, elem_of_nil. tauto.
  + split; [|split; [|done]].
    * intros t p [->|Ht]%elem_of_cons; unfold in_part; cbn; [lia|].
      intros Hp. apply Hfree; [done|lia].
    * intros t p Ht. unfold in_part at 1. cbn. intros Hp.
      apply Hfree; [done|lia].
  + intros t [->|[->|Ht]%elem_of_cons]%elem_of_cons; cbn; [lia..|].
    by apply Harr'.
Qed.

Lemma partitions_spec fuel : ∀ a pl pr stack cd,
waiting v a ((pl, pr, 0) :: stack) →
∃ a' pl' pr' stack',
  NpySort.partitions v fuel a pl pr stack cd = (a', pl', pr', stack')
  ∧ waiting v a' ((pl', pr', 0) :: stack')
  ∧ a' ≡ₚ a
  ∧ (weight ((pl', pr', 0%Z) :: stack') ≤ weight ((pl, pr, 0%Z) :: stack))%nat.
Proof.
induction fuel as [|fuel IH]; intros a pl pr stack cd Hw.
{ exists a, pl, pr, stack. by cbn. }
cbn [NpySort.partitions].
destruct (NpySort.SMALL_QUICKSORT <? pr - pl) eqn:Hbig.
2:{ exists a, pl, pr, stack. by cbn. }
apply Z.ltb_lt in Hbig.
pose proof Hw as (_ & _ & Harr).
destruct (Harr (pl, pr, 0)) as (Hl & _ & Hr); [by left|]. cbn in Hl, Hr.
destruct (partition_spec a pl pr Hl Hr Hbig)
  as (a1 & pi & -> & Hre & Hpi & Hlow & Hhigh).
destruct (waiting_split a a1 pl pr pi 0 0 (cd - 1) stack Hw Hre Hpi Hlow Hhigh)
  as [Hw1 _].
destruct (waiting_split a a1 pl pr pi 0 (cd - 1) 0 stack Hw Hre Hpi Hlow Hhigh)
  as [_ Hw2].
assert (a1 ≡ₚ a) as Hperm by (by destruct Hre as (_ & ? & _)).
destruct (pi - pl <? pr - pi).
- destruct (IH a1 pl (pi - 1) ((pi + 1, pr, cd - 1) :: stack) (cd - 1) Hw1)
    as (a' & pl' & pr' & stack' & -> & Hw' & Hperm' & Hweight).
  exists a', pl', pr', stack'. split; [done|]. split; [done|].
  split; [by etrans|]. etrans; [exact Hweight|].
  unfold weight. cbn. lia.
- destruct (IH a1 (pi + 1) pr ((pl, pi - 1, cd - 1) :: stack) (cd - 1) Hw2)
    as (a' & pl' & pr' & stack' & -> & Hw' & Hperm' & Hweight).
  exists a', pl', pr', stack'. split; [done|]. split; [done|].
  split; [by etrans|]. etrans; [exact Hweight|].
  unfold weight. cbn. lia.
Qed.

Lemma sort_loop_spec fuel : ∀ a pl pr stack cd,
waiting v a ((pl, pr, 0) :: stack) →
(weight ((pl, pr, 0%Z) :: stack) ≤ fuel)%nat →
NpySort.sort_loop v fuel a pl pr stack cd ≡ₚ a
∧ settled v (NpySort.sort_loop v fuel a pl pr stack cd) [].
Proof.
induction fuel as [|fuel IH]; intros a pl pr stack cd Hw Hfuel.
{ unfold weight in Hfuel. cbn in Hfuel. lia. }
cbn [NpySort.sort_loop].
assert (∃ a1 stack1,
          (if cd <? 0
           then (NpySort.npy_aheapsort v a pl (pr - pl + 1), stack)
           else
             let '(a, pl, pr, stack) :=
               NpySort.partitions v (length a) a pl pr stack cd in
             (NpySort.insertion v (length a) a pl pr (pl + 1), stack))
          = (a1, stack1)
          ∧ waiting v a1 stack1 ∧ a1 ≡ₚ a
          ∧ (S (weight stack1) ≤ weight ((pl, pr, 0%Z) :: stack))%nat)
  as (a1 & stack1 & -> & Hw1 & Hperm1 & Hweight1).
{ destruct (cd <? 0).
  - pose proof Hw as (_ & _ & Harr).
    destruct (Harr (pl, pr, 0)) as (Hl & Hlr & Hr); [by left|].
    cbn in Hl, Hlr, Hr.
    destruct (npy_aheapsort_spec a pl (pr - pl + 1)) as [Hs Hre]; [lia..|].
    replace (pl + (pr - pl + 1) - 1) with pr in * by lia.
    eexists _, _. split; [done|]. split; [|split].
    + by apply (waiting_done a _ (pl, pr, 0) stack).
    + by destruct Hre as (_ & ? & _).
    + unfold weight. cbn. lia.
  - destruct (partitions_spec (length a) a pl pr stack cd Hw)
      as (a' & pl' & pr' & stack' & -> & Hw' & Hperm' & Hweight').
    pose proof Hw' as (_ & _ & Harr).
    destruct (Harr (pl', pr', 0)) as (Hl & Hlr & Hr); [by left|].
    cbn in Hl, Hlr, Hr.
    destruct (insertion_sorts a' pl' pr' Hl Hr) as [Hre Hs].
    eexists _, _. split; [done|]. split; [|split].
    + by apply (waiting_done a' _ (pl', pr', 0) stack').
    + destruct Hre as (_ & -> & _). done.
    + etrans; [|exact Hweight']. unfold weight. cbn. lia. }
destruct stack1 as [|[[pl1 pr1] cd1] stack1].
- split; [done|]. by destruct Hw1.
- assert (waiting v a1 ((pl1, pr1, 0) :: stack1)) as Hw1'.
  { destruct Hw1 as (Hset & [Hap Hap'] & Harr). split; [|split].
    - intros p q Hp Hpq Hq.
      destruct (Hset p q Hp Hpq Hq) as [?|(t & Ht & Htp & Htq)]; [by left|].
      right. apply elem_of_cons in Ht as [->|Ht].
      + exists (pl1, pr1, 0). split; [by left|done].
      + exists t. split; [by right|done].
    - split; [|done]. intros t p Ht Hp. by apply (Hap t p).
    - intros t [->|Ht]%elem_of_cons.
      + apply (Harr (pl1, pr1, cd1)). by left.
      + apply Harr. by right. }
  destruct (IH a1 pl1 pr1 stack1 cd1 Hw1') as [Hperm Hset].
  { unfold weight in *. cbn in *. lia. }
  split; [by etrans|done].
Qed.
Lemma npy_aquicksort_spec :
NpySort.npy_aquicksort v ≡ₚ seq 0 (length v)
∧ settled v (NpySort.npy_aquicksort v) [].
Proof.
unfold NpySort.npy_aquicksort. cbv zeta.
apply sort_loop_spec.
- split; [|split].
  + intros p q Hp Hpq Hq. rewrite length_seq in Hq. right.
    exists (0, Z.of_nat (length v) - 1, 0). split; [by left|].
    unfold in_part. cbn. lia.
  + split; [|done]. by intros t p ?%elem_of_nil.
  + intros t ->%list_elem_of_singleton. rewrite length_seq. cbn. lia.
- unfold weight. cbn. lia.
Qed.
End npysort.

Lemma StronglySorted_pointwise {A} (R : relation A) (l : list A) :
  (∀ i j x y, (i < j)%nat → l !! i = Some x → l !! j = Some y → R x y) →
  StronglySorted R l.
Proof.
  induction l as [|x l IH]; intros Hl; constructor.
  - apply IH. intros i j y z Hij Hi Hj. by apply (Hl (S i) (S j)); [lia|..].
  - apply Forall_forall. intros y [j Hj]%list_elem_of_lookup.
    by apply (Hl 0%nat (S j)); [lia|..].
Qed.

(** numpy's quicksort keeps the contract of [argsort]. *)
Lemma numpy_argsort_laws : ArgsortLaws numpy_argsort.
Proof.
  split; intros ks; change (argsort ks) with (NpySort.npy_aquicksort ks).
  - apply npy_aquicksort_spec.
  - destruct (npy_aquicksort_spec ks) as [Hperm Hset].
    set (a := NpySort.npy_aquicksort ks) in *.
    assert (omap (ks !!.) a = key_at ks <$> a) as ->.
    { assert (Forall (λ x, x < length ks)%nat a) as Hall.
      { rewrite Hperm. apply Forall_forall. intros x Hx.
        apply elem_of_seq in Hx. lia. }
      clear Hperm Hset. induction Hall as [|x l Hx _ IH]; [done|].
      cbn. unfold key_at at 1.
      destruct (lookup_lt_is_Some_2 ks x Hx) as [k ->]. cbn. by rewrite IH. }
    apply StronglySorted_pointwise. intros i j x y Hij Hi Hj.
    rewrite list_lookup_fmap in Hi, Hj.
    destruct (a !! i) as [xi|] eqn:Ei; [|done].
    destruct (a !! j) as [xj|] eqn:Ej; [|done].
    injection Hi as <-. injection Hj as <-.
    apply index_le_date.
    pose proof (lookup_lt_Some _ _ _ Ej) as Hlt.
    destruct (Hset (Z.of_nat i) (Z.of_nat j)) as [Hle|(t & Ht & _)];
      [lia..| |by apply elem_of_nil in Ht].
    unfold NpySort.get in Hle. by rewrite !Nat2Z.id, Ei, Ej in Hle.
Qed.

(** ** Unicode tables *)

(** Boolean tests on code points, as arithmetic facts. *)
Ltac to_arith :=
  repeat rewrite ?orb_true_iff, ?andb_true_iff, ?orb_false_iff,
    ?andb_false_iff, ?negb_true_iff, ?negb_false_iff,
    ?N.leb_le, ?N.leb_gt, ?N.eqb_eq, ?N.eqb_neq, ?N.ltb_lt, ?N.ltb_ge in *.

Lemma is_space_lt c : is_space c = true → ascii_decimal c = None.
Proof.
  unfold is_space, ascii_decimal. intros Hs.
  destruct ((48 <=? c) && (c <=? 57)) eqn:Hd; [exfalso|done].
  to_arith. lia.
Qed.

Lemma ascii_unicode_laws : UnicodeLaws ascii_unicode.
Proof.
  split; cbn.
  - done.
  - apply is_space_lt.
  - unfold ascii_decimal. intros c d.
    destruct ((48 <=? c) && (c <=? 57)) eqn:Hd; [|done].
    intros [= <-]. to_arith. lia.
  - done.
Qed.

Lemma arabic_unicode_laws : UnicodeLaws arabic_unicode.
Proof.
  split; cbn.
  - intros c Hc. destruct ((1632 <=? c) && (c <=? 1641)) eqn:Hd; [exfalso; to_arith; lia|done].
  - intros c Hs. destruct ((1632 <=? c) && (c <=? 1641)) eqn:Hd.
    + exfalso. unfold is_space in Hs. to_arith. lia.
    + by apply is_space_lt.
  - intros c d. unfold ascii_decimal.
    destruct ((1632 <=? c) && (c <=? 1641)) eqn:Hd.
    + intros [= <-]. to_arith. lia.
    + destruct ((48 <=? c) && (c <=? 57)) eqn:Hd'; [|done].
      intros [= <-]. to_arith. lia.
  - done.
Qed.

(** *** The extractor reads the table through [decimal] alone *)

Section same_digits.
Context (U U' : UnicodeData).
Hypothesis same : ∀ c, @decimal U c = @decimal U' c.

Lemma cmatch_ext k c : cmatch (U:=U) k c = cmatch (U:=U') k c.
Proof.
  induction k as [| | | | | | |a IHa b IHb]; cbn; try done.
  - unfold is_decimal. by rewrite same.
  - by rewrite IHa, IHb.
Qed.

Lemma loop_ext body body' g :
  (∀ st, body st = body' st) →
  ∀ fuel st, loop body g fuel st = loop body' g fuel st.
Proof.
  intros Hbody fuel. induction fuel as [|fuel IH]; intros st; [done|].
  cbn. rewrite Hbody.
  by rewrite (list_bind_ext _ (loop body' g fuel) _ _ IH eq_refl).
Qed.

Lemma run_ext r : ∀ st, run (U:=U) r st = run (U:=U') r st.
Proof.
  induction r as [|k|a IHa b IHb|a IHa b IHb|g a IHa|n a IHa];
    intros st; cbn.
  - done.
  - destruct (rest st); [done|]. by rewrite cmatch_ext.
  - rewrite IHa. by apply list_bind_ext.
  - by rewrite IHa, IHb.
  - by apply loop_ext.
  - by rewrite IHa.
Qed.

Lemma match_here_ext p ma s :
  match_here (U:=U) p ma s = match_here (U:=U') p ma s.
Proof. unfold match_here. by rewrite run_ext. Qed.

Lemma scan_ext p s : ∀ skip, scan (U:=U) p s skip = scan (U:=U') p s skip.
Proof.
  induction s as [|c s IH]; intros [|skip]; cbn [scan];
    rewrite ?match_here_ext; try done.
  cbv zeta. repeat case_match; by rewrite ?IH.
Qed.

Lemma to_ascii_ext s : to_ascii (U:=U) s = to_ascii (U:=U') s.
Proof. induction s as [|c s IH]; [done|]. cbn. by rewrite same, IH. Qed.

Lemma py_int_ext s : py_int (U:=U) s = py_int (U:=U') s.
Proof. unfold py_int. by rewrite to_ascii_ext. Qed.

Lemma py_float_ext s : py_float (U:=U) s = py_float (U:=U') s.
Proof. unfold py_float. by rewrite to_ascii_ext. Qed.

Lemma strptime_dmY_ext s :
  Strptime.strptime_dmY (U:=U) s = Strptime.strptime_dmY (U:=U') s.
Proof.
  unfold Strptime.strptime_dmY. rewrite match_here_ext.
  destruct (match_here _ _ _) as [found|]; [|done]. cbn.
  destruct (bool_decide _); [|done].
  destruct (groups found) as [|gd [|gm [|gy [|]]]]; try done.
  by rewrite !py_int_ext.
Qed.

Lemma record_of_match_ext m :
  record_of_match (U:=U) m = record_of_match (U:=U') m.
Proof.
  unfold record_of_match, parse_date, parse_amount.
  destruct m as [|b [|v [|t [|c [|d [|a [|]]]]]]]; try done.
  by rewrite !strptime_dmY_ext, py_float_ext.
Qed.

Lemma page_rows_ext tt text :
  page_rows (U:=U) tt text = page_rows (U:=U') tt text.
Proof.
  unfold page_rows. apply list_bind_ext; [|done]. intros item.
  unfold findall. rewrite scan_ext. apply list_bind_ext; [|done].
  intros m. by rewrite record_of_match_ext.
Qed.
End same_digits.

Lemma on_latin1_same (U : UnicodeData) {L : UnicodeLaws U} c :
  @decimal U c = @decimal (on_latin1 U) c.
Proof.
  cbn. destruct (c <? 256) eqn:Hc; [|done].
  apply decimal_latin1. to_arith. lia.
Qed.

(** ** The built-ins of the normalizer *)

(** *** Inversion of [matches] *)

Section matches_inv.
Context `{UnicodeData}.

Lemma matches_Eps_inv s : matches Eps s → s = [].
Proof. by inversion 1. Qed.

Lemma matches_Chr_inv k s :
  matches (Chr k) s → ∃ c, s = [c] ∧ cmatch k c = true.
Proof. inversion 1; eauto. Qed.

Lemma matches_chr_inv c s : matches (chr c) s → s = [c].
Proof.
  intros (x & -> & Hx)%matches_Chr_inv. cbn in Hx.
  apply N.eqb_eq in Hx. by subst.
Qed.

Lemma matches_Seq_inv a b s :
  matches (Seq a b) s → ∃ u v, s = u ++ v ∧ matches a u ∧ matches b v.
Proof. inversion 1; eauto. Qed.

Lemma matches_Alt_inv a b s : matches (Alt a b) s → matches a s ∨ matches b s.
Proof. inversion 1; eauto. Qed.


Lemma matches_Group_inv n a s : matches (Group n a) s → matches a s.
Proof. by inversion 1. Qed.

Lemma matches_Star_inv g a s :
  matches (Star g a) s → ∃ pieces, s = concat pieces ∧ Forall (matches a) pieces.
Proof.
  intros Hm. remember (Star g a) as r eqn:Hr.
  induction Hm as [| | | | | |g' a' u v Hu _ _ IH|]; try discriminate.
  - by exists [].
  - injection Hr as -> ->. destruct (IH eq_refl) as (ps & -> & Hps).
    exists (u :: ps). split; [done|]. by constructor.
Qed.

(** A repetition of a one-character class. *)
Lemma matches_rep_Chr_inv n k s :
  matches (rep n (Chr k)) s →
  length s = n ∧ Forall (λ c, cmatch k c = true) s.
Proof.
  revert s. induction n as [|n IH]; intros s; cbn.
  - by intros ->%matches_Eps_inv.
  - intros (u & v & -> & (c & -> & Hc)%matches_Chr_inv & Hv)%matches_Seq_inv.
    destruct (IH _ Hv) as [<- Hall]. split; [done|]. by constructor.
Qed.

End matches_inv.

(** *** Decimal digits under the laws of the table *)

Section digits.
Context `{U : UnicodeData} {L : UnicodeLaws U}.

Lemma digit_value c : digit c → ∃ v, decimal c = Some v ∧ v < 10.
Proof.
  unfold digit, is_decimal. destruct (decimal c) as [v|] eqn:Hv; [|done].
  intros _. exists v. split; [done|]. by eapply decimal_lt.
Qed.

Lemma digit_latin1 c : digit c → c < 256 → 48 ≤ c ≤ 57 ∧ decimal c = Some (c - 48).
Proof.
  unfold digit, is_decimal. intros Hd Hc.
  rewrite (decimal_latin1 c Hc) in *. unfold ascii_decimal in *.
  destruct ((48 <=? c) && (c <=? 57)) eqn:Hr; [|done]. to_arith. done.
Qed.

Lemma not_digit c : c < 48 → decimal c = None.
Proof.
  intros Hc. rewrite decimal_latin1 by lia. unfold ascii_decimal.
  destruct ((48 <=? c) && (c <=? 57)) eqn:Hr; [|done]. to_arith. lia.
Qed.

Lemma digit_ge c : digit c → 48 ≤ c.
Proof.
  intros Hd. destruct (N.lt_ge_cases c 48) as [Hlt|]; [|done].
  unfold digit, is_decimal in Hd. by rewrite not_digit in Hd.
Qed.

Lemma digit_not_space c : digit c → is_space c = false.
Proof.
  unfold digit, is_decimal. intros Hd.
  destruct (is_space c) eqn:Hs; [|done]. by rewrite decimal_space in Hd.
Qed.

Lemma digit_values_app s t : digit_values (s ++ t) = digit_values s ++ digit_values t.
Proof. apply omap_app. Qed.

Lemma digit_values_length s : Forall digit s → length (digit_values s) = length s.
Proof.
  unfold digit_values. induction 1 as [|c s Hc _ IH]; [done|]. cbn.
  destruct (digit_value c Hc) as (v & -> & _). cbn. by rewrite IH.
Qed.

Lemma digit_values_lt s : Forall (λ v, v < 10) (digit_values s).
Proof.
  unfold digit_values. induction s as [|c s IH]; [constructor|]. cbn.
  destruct (decimal c) as [v|] eqn:Hv; [|done].
  constructor; [by eapply decimal_lt|done].
Qed.

(** [to_ascii] rewrites a run of digits into ASCII digits of the same
    values. *)
Lemma to_ascii_digit c t :
  digit c → ∃ v, decimal c = Some v ∧ v < 10 ∧ to_ascii (c :: t) = (48 + v) :: to_ascii t.
Proof.
  intros Hd. destruct (digit_value c Hd) as (v & Hv & Hlt).
  exists v. split; [done|]. split; [done|]. cbn.
  destruct (c <? 127) eqn:Hc.
  - destruct (digit_latin1 c Hd) as [Hr Hv']; [to_arith; lia|].
    rewrite Hv in Hv'. injection Hv' as ->. f_equal. lia.
  - by rewrite (digit_not_space c Hd), Hv.
Qed.

Lemma to_ascii_digits s t :
  Forall digit s → to_ascii (s ++ t) = ascii_digits (digit_values s) ++ to_ascii t.
Proof.
  induction 1 as [|c s Hc _ IH]; [done|].
  destruct (to_ascii_digit c (s ++ t) Hc) as (v & Hv & _ & Heq).
  cbn [app]. rewrite Heq, IH. unfold digit_values. cbn. by rewrite Hv.
Qed.

Lemma to_ascii_ascii c t : c < 127 → to_ascii (c :: t) = c :: to_ascii t.
Proof. intros Hc. cbn. destruct (c <? 127) eqn:E; [done|]. to_arith. lia. Qed.
End digits.

(** *** Reading ASCII numerals *)

Lemma c_isdigit_ascii v : v < 10 → c_isdigit (48 + v) = true.
Proof. intros Hv. unfold c_isdigit. to_arith. lia. Qed.

Lemma digit_run_digits vs t :
  Forall (λ v, v < 10) vs →
  match t with [] => True | c :: _ => c_isdigit c = false end →
  digit_run (ascii_digits vs ++ t) = (vs, t).
Proof.
  intros Hvs Ht. induction Hvs as [|v vs Hv _ IH].
  - destruct t as [|c t]; [done|]. cbn [ascii_digits fmap list_fmap app digit_run].
    by rewrite Ht.
  - cbn [ascii_digits fmap list_fmap app digit_run].
    rewrite c_isdigit_ascii by done. unfold ascii_digits in IH. rewrite IH.
    f_equal. f_equal. lia.
Qed.

Lemma drop_underscores_plain s : ∀ prev,
  prev ≠ 95 → Forall (λ c, c ≠ 0 ∧ c ≠ 95) s → drop_underscores prev s = Some s.
Proof.
  induction s as [|c s IH]; intros prev Hprev Hs; cbn.
  - destruct (prev =? 95) eqn:E; [|done]. to_arith. done.
  - apply Forall_cons in Hs as [[Hc0 Hc] Hs].
    destruct (c =? 0) eqn:E0; [to_arith; done|].
    destruct (c =? 95) eqn:E1; [to_arith; done|].
    destruct (prev =? 95) eqn:E2; [to_arith; done|]. cbn.
    by rewrite IH.
Qed.

Lemma c_lstrip_id s : Forall (λ c, c_isspace c = false) s → c_lstrip s = s.
Proof. destruct 1 as [|c s Hc _]; [done|]. cbn. by rewrite Hc. Qed.

Lemma c_strip_id s : Forall (λ c, c_isspace c = false) s → c_strip s = s.
Proof.
  intros Hs. unfold c_strip. rewrite (c_lstrip_id s Hs).
  rewrite c_lstrip_id by (by apply Forall_reverse).
  apply reverse_involutive.
Qed.

Lemma numeral_char_plain c : numeral_char c → c ≠ 0 ∧ c ≠ 95.
Proof. unfold numeral_char. lia. Qed.

Lemma numeral_char_nospace c : numeral_char c → c_isspace c = false.
Proof.
  unfold numeral_char, c_isspace. intros Hc.
  destruct ((c =? 32) || (9 <=? c) && (c <=? 13)) eqn:E; [|done].
  to_arith. lia.
Qed.

Lemma ascii_digits_numeral vs :
  Forall (λ v, v < 10) vs → Forall numeral_char (ascii_digits vs).
Proof.
  intros Hvs. apply Forall_fmap. eapply Forall_impl; [done|].
  intros v Hv. unfold numeral_char, compose. cbv beta in *. lia.
Qed.



(** *** [str.replace] of one character *)

Lemma replace_char s k new : replace s [k] new = subst_char k new s.
Proof.
  unfold replace, subst_char. induction s as [|x s IH]; [done|].
  cbn [replace_go is_prefix length pred]. rewrite andb_true_r, N.eqb_sym.
  destruct (x =? k) eqn:E; cbn; by rewrite E, IH.
Qed.



Lemma subst_char_cons_other k new c s :
  c ≠ k → subst_char k new (c :: s) = c :: subst_char k new s.
Proof. intros Hc. unfold subst_char. cbn. apply N.eqb_neq in Hc. by rewrite Hc. Qed.

Lemma subst_char_cons_same k new s :
  subst_char k new (k :: s) = new ++ subst_char k new s.
Proof. unfold subst_char. cbn. by rewrite N.eqb_refl. Qed.


Section amount.
Context `{U : UnicodeData} {L : UnicodeLaws U}.

Lemma digit_neq c k : digit c → k < 48 → c ≠ k.
Proof. intros Hd Hk ->. apply digit_ge in Hd. lia. Qed.

Lemma digits_neq s k : Forall digit s → k < 48 → Forall (λ c, c ≠ k) s.
Proof. intros Hs Hk. eapply Forall_impl; [done|]. intros c Hc. by apply digit_neq. Qed.

Lemma cmatch_digit c : cmatch CDigit c = true ↔ digit c.
Proof. done. Qed.



Lemma read_sign_numeral (neg : bool) v t :
  v < 10 →
  read_sign (sign_str neg ++ (48 + v) :: t) = (neg, (48 + v) :: t).
Proof.
  intros Hv. unfold sign_str. destruct neg; [done|]. cbn [app read_sign].
  destruct (48 + v =? 45) eqn:E1; [to_arith; lia|].
  destruct (48 + v =? 43) eqn:E2; [to_arith; lia|]. done.
Qed.



End amount.

(** *** Runs of expressions without repetition *)

Section run_elem.
Context `{U : UnicodeData}.

Lemma elem_run_Chr k st st' :
  st' ∈ run (Chr k) st ↔
  ∃ c, rest st = c :: rest st' ∧ cmatch k c = true ∧ caps st' = caps st.
Proof.
  cbn. destruct (rest st) as [|c t] eqn:Hr.
  - rewrite elem_of_nil. split; [done|]. by intros (c & ? & _).
  - destruct (cmatch k c) eqn:Hk.
    + rewrite list_elem_of_singleton. split.
      * intros ->. by exists c.
      * intros (c' & [= <- Ht] & _ & Hc). destruct st'. cbn in *. by subst.
    + rewrite elem_of_nil. split; [done|].
      intros (c' & [= <- _] & Hk' & _). congruence.
Qed.

Lemma elem_run_Seq a b st st'' :
  st'' ∈ run (Seq a b) st ↔ ∃ st', st' ∈ run a st ∧ st'' ∈ run b st'.
Proof.
  cbn. rewrite list_elem_of_bind. split; intros (x & ? & ?); by exists x.
Qed.

Lemma elem_run_Group n a st st'' :
  st'' ∈ run (Group n a) st ↔
  ∃ st', st' ∈ run a st
         ∧ st'' = MState (rest st')
                    (<[pred n := Some (consumed st st')]> (caps st')).
Proof.
  cbn. rewrite list_elem_of_fmap. split; intros (x & ? & ?); by exists x.
Qed.

Lemma loop_groupless body g :
  (∀ st st', st' ∈ body st → caps st' = caps st) →
  ∀ fuel st st', st' ∈ loop body g fuel st → caps st' = caps st.
Proof.
  intros Hbody fuel. induction fuel as [|fuel IH]; intros st st' Hin.
  - by apply list_elem_of_singleton in Hin as ->.
  - cbn in Hin.
    assert (st' = st ∨
            st' ∈ filter (λ x, progress st x = true) (body st)
                    ≫= loop body g fuel) as [->|Hin']; [|done|].
    { destruct g.
      - apply elem_of_app in Hin as [?|Hin]; [by right|].
        apply list_elem_of_singleton in Hin. by left.
      - apply elem_of_cons in Hin as [?|?]; [by left|by right]. }
    apply list_elem_of_bind in Hin' as (st1 & Hin1 & Hst1).
    apply list_elem_of_filter in Hst1 as [_ Hst1].
    rewrite (IH _ _ Hin1). by apply Hbody.
Qed.

Lemma run_groupless r :
  groupless r = true → ∀ st st', st' ∈ run r st → caps st' = caps st.
Proof.
  induction r as [|k|a IHa b IHb|a IHa b IHb|g a IHa|n a IHa];
    cbn [groupless]; intros Hg st st' Hin; try discriminate.
  - by apply list_elem_of_singleton in Hin as ->.
  - by apply elem_run_Chr in Hin as (c & _ & _ & ?).
  - apply andb_true_iff in Hg as [Ha Hb].
    apply elem_run_Seq in Hin as (st1 & H1 & H2).
    rewrite (IHb Hb _ _ H2). by apply IHa.
  - apply andb_true_iff in Hg as [Ha Hb].
    apply elem_of_app in Hin as [?|?]; [by apply IHa|by apply IHb].
  - by apply (loop_groupless (run a) g (IHa Hg)) in Hin.
Qed.

(** Without groups and repetition, a run finds every string of the
    language. *)
Lemma run_complete r u :
  matches r u → groupless r = true → starfree r = true →
  ∀ t cs, MState t cs ∈ run r (MState (u ++ t) cs).
Proof.
  induction 1 as [|k c Hc|a b u v _ IHa _ IHb|a b u _ IH|a b u _ IH
                  | | |]; cbn [groupless starfree];
    intros Hg Hs t cs; try discriminate.
  - cbn. by apply list_elem_of_singleton.
  - cbn. rewrite Hc. by apply list_elem_of_singleton.
  - apply andb_true_iff in Hg as [? ?], Hs as [? ?].
    apply elem_run_Seq. exists (MState (v ++ t) cs).
    split; [|by apply IHb]. rewrite <-(assoc_L (++)). by apply IHa.
  - apply andb_true_iff in Hg as [? ?], Hs as [? ?].
    cbn. apply elem_of_app. left. by apply IH.
  - apply andb_true_iff in Hg as [? ?], Hs as [? ?].
    cbn. apply elem_of_app. right. by apply IH.
Qed.

Lemma take_consumed (u t : str) :
  take (length (u ++ t) - length t) (u ++ t) = u.
Proof.
  rewrite length_app.
  replace (length u + length t - length t)%nat with (length u) by lia.
  by rewrite take_app_length.
Qed.

(** A group around an expression without groups. *)
Lemma elem_run_Group_groupless n a st st' :
  groupless a = true →
  st' ∈ run (Group n a) st →
  ∃ u, rest st = u ++ rest st' ∧ matches a u
       ∧ caps st' = <[pred n := Some u]> (caps st).
Proof.
  intros Hg (st1 & Hin & ->)%elem_run_Group.
  destruct (run_sound a _ _ Hin) as (u & Hu & Hm & _).
  exists u. cbn. split; [done|]. split; [done|].
  rewrite (run_groupless a Hg _ _ Hin). f_equal. f_equal.
  unfold consumed. rewrite Hu. apply take_consumed.
Qed.

Lemma elem_run_Group_complete n a u t cs :
  matches a u → groupless a = true → starfree a = true →
  MState t (<[pred n := Some u]> cs) ∈ run (Group n a) (MState (u ++ t) cs).
Proof.
  intros Hm Hg Hs. apply elem_run_Group. exists (MState t cs).
  split; [by apply run_complete|]. unfold consumed. cbn.
  by rewrite take_consumed.
Qed.

Lemma elem_run_chr c st st' :
  st' ∈ run (chr c) st ↔ rest st = c :: rest st' ∧ caps st' = caps st.
Proof.
  unfold chr. rewrite elem_run_Chr. cbn. split.
  - intros (x & ? & ->%N.eqb_eq & ?). done.
  - intros [? ?]. exists c. by rewrite N.eqb_refl.
Qed.
End run_elem.

(** *** The fields of a date *)

Lemma split_at_separator (k : char) (u u' v v' : str) :
  Forall (λ c, c ≠ k) u → Forall (λ c, c ≠ k) u' →
  u ++ k :: v = u' ++ k :: v' → u = u' ∧ v = v'.
Proof.
  intros Hu. revert u'. induction Hu as [|c u Hc _ IH]; intros u' Hu' Heq.
  - destruct Hu' as [|c' u' Hc' _]; cbn in Heq.
    + by injection Heq as ->.
    + injection Heq as -> _. done.
  - destruct Hu' as [|c' u' Hc' Hu']; cbn in Heq.
    + injection Heq as -> _. done.
    + injection Heq as -> Heq. destruct (IH _ Hu' Heq) as [-> ->]. done.
Qed.

Section strptime.
Context `{U : UnicodeData} {L : UnicodeLaws U}.

Lemma ascii_digit_is_digit c : 48 ≤ c ≤ 57 → digit c.
Proof.
  intros Hc. unfold digit, is_decimal. rewrite decimal_latin1 by lia.
  unfold ascii_decimal. destruct ((48 <=? c) && (c <=? 57)) eqn:E; [done|].
  to_arith. lia.
Qed.

Lemma cmatch_range lo hi c : cmatch (CRange lo hi) c = true ↔ lo ≤ c ≤ hi.
Proof. cbn. to_arith. done. Qed.

Lemma dd_token D : matches Strptime.dd D → token D.
Proof.
  unfold Strptime.dd, Strptime.range, Strptime.d, Patterns.d.
  intros [Hm|[Hm|[Hm|[Hm|Hm]%matches_Alt_inv]%matches_Alt_inv
         ]%matches_Alt_inv]%matches_Alt_inv.
  - apply matches_Seq_inv in Hm as (? & ? & -> & ->%matches_chr_inv
                                     & (b & -> & Hb%cmatch_range)%matches_Chr_inv).
    exists [], [51; b]. split; [done|]. split; [by left|]. split; [done|].
    repeat constructor; apply ascii_digit_is_digit; lia.
  - apply matches_Seq_inv in Hm as (? & ? & -> & (a & -> & Ha%cmatch_range)%matches_Chr_inv
                                     & (b & -> & Hb)%matches_Chr_inv).
    exists [], [a; b]. split; [done|]. split; [by left|]. split; [done|].
    repeat constructor; [apply ascii_digit_is_digit; lia|done].
  - apply matches_Seq_inv in Hm as (? & ? & -> & ->%matches_chr_inv
                                     & (b & -> & Hb%cmatch_range)%matches_Chr_inv).
    exists [], [48; b]. split; [done|]. split; [by left|]. split; [done|].
    repeat constructor; apply ascii_digit_is_digit; lia.
  - apply matches_Chr_inv in Hm as (a & -> & Ha%cmatch_range).
    exists [], [a]. split; [done|]. split; [by left|]. split; [done|].
    repeat constructor; apply ascii_digit_is_digit; lia.
  - apply matches_Seq_inv in Hm as (? & ? & -> & ->%matches_chr_inv
                                     & (b & -> & Hb%cmatch_range)%matches_Chr_inv).
    exists [32], [b]. split; [done|]. split; [by right|]. split; [done|].
    repeat constructor; apply ascii_digit_is_digit; lia.
Qed.

Lemma mm_token M : matches Strptime.mm M → token M.
Proof.
  unfold Strptime.mm, Strptime.range.
  intros [Hm|[Hm|Hm]%matches_Alt_inv]%matches_Alt_inv.
  - apply matches_Seq_inv in Hm as (? & ? & -> & ->%matches_chr_inv
                                     & (b & -> & Hb%cmatch_range)%matches_Chr_inv).
    exists [], [49; b]. split; [done|]. split; [by left|]. split; [done|].
    repeat constructor; apply ascii_digit_is_digit; lia.
  - apply matches_Seq_inv in Hm as (? & ? & -> & ->%matches_chr_inv
                                     & (b & -> & Hb%cmatch_range)%matches_Chr_inv).
    exists [], [48; b]. split; [done|]. split; [by left|]. split; [done|].
    repeat constructor; apply ascii_digit_is_digit; lia.
  - apply matches_Chr_inv in Hm as (a & -> & Ha%cmatch_range).
    exists [], [a]. split; [done|]. split; [by left|]. split; [done|].
    repeat constructor; apply ascii_digit_is_digit; lia.
Qed.

Lemma yyyy_digits Y :
  matches Strptime.yyyy Y → length Y = 4%nat ∧ Forall digit Y.
Proof.
  unfold Strptime.yyyy, Strptime.d, Patterns.d.
  intros (? & ? & -> & (? & ? & -> & (? & ? & -> &
    (a & -> & Ha)%matches_Chr_inv & (b & -> & Hb)%matches_Chr_inv)%matches_Seq_inv
    & (c & -> & Hc)%matches_Chr_inv)%matches_Seq_inv
    & (d & -> & Hd)%matches_Chr_inv)%matches_Seq_inv.
  split; [done|]. by repeat constructor.
Qed.

Lemma yyyy_token Y : matches Strptime.yyyy Y → token Y.
Proof.
  intros [Hlen HY]%yyyy_digits. exists [], Y. split; [done|].
  split; [by left|]. split; [by destruct Y|done].
Qed.

Lemma token_no_point D : token D → Forall (λ c, c ≠ 46) D.
Proof.
  intros (sp & ds & -> & Hsp & _ & Hds). apply Forall_app. split.
  - destruct Hsp as [-> | ->]; repeat constructor. done.
  - by apply digits_neq.
Qed.

Lemma number_token sp ds :
  sp = [] ∨ sp = [32] → number (sp ++ ds) = of_digits (digit_values ds).
Proof.
  intros Hsp. unfold number. f_equal. rewrite digit_values_app.
  destruct Hsp as [-> | ->]; [done|]. unfold digit_values at 1. cbn.
  by rewrite (not_digit 32).
Qed.

(** [int] on a field of the format. *)
Lemma py_int_token D : token D → py_int D = Some (Z.of_N (number D)).
Proof.
  intros (sp & ds & -> & Hsp & Hne & Hds). rewrite number_token by done.
  unfold py_int.
  pose proof (digit_values_lt ds) as Hlt.
  assert (Forall numeral_char (ascii_digits (digit_values ds))) as Hnum
    by (by apply ascii_digits_numeral).
  assert (to_ascii (sp ++ ds) = sp ++ ascii_digits (digit_values ds)) as ->.
  { pose proof (to_ascii_digits ds [] Hds) as Hd. cbn [to_ascii] in Hd.
    rewrite !(right_id_L [] (++)) in Hd.
    destruct Hsp as [-> | ->]; [done|]. cbn [app].
    rewrite to_ascii_ascii by lia. by rewrite Hd. }
  rewrite drop_underscores_plain; [|done|].
  2:{ apply Forall_app. split.
      - destruct Hsp as [-> | ->]; repeat constructor; done.
      - eapply Forall_impl; [done|apply numeral_char_plain]. }
  cbn [mbind option_bind].
  assert (c_strip (sp ++ ascii_digits (digit_values ds))
          = ascii_digits (digit_values ds)) as ->.
  { assert (Forall (λ c, c_isspace c = false) (ascii_digits (digit_values ds)))
      as Hns by (by eapply Forall_impl; [done|apply numeral_char_nospace]).
    destruct Hsp as [-> | ->]; [by apply c_strip_id|].
    unfold c_strip. cbn [app c_lstrip]. cbn [c_isspace N.eqb Pos.eqb orb].
    rewrite (c_lstrip_id _ Hns).
    rewrite c_lstrip_id by (by apply Forall_reverse).
    apply reverse_involutive. }
  destruct (digit_values ds) as [|v vs] eqn:Hv.
  { apply (f_equal length) in Hv. rewrite digit_values_length in Hv by done.
    by destruct ds. }
  apply Forall_cons in Hlt as [Hv0 Hvs].
  change (ascii_digits (v :: vs)) with ((48 + v) :: ascii_digits vs).
  pose proof (read_sign_numeral false v (ascii_digits vs) Hv0) as Hrs.
  cbn [sign_str app] in Hrs. rewrite Hrs.
  assert (Forall (λ v, v < 10) (v :: vs)) as Hall by (by constructor).
  pose proof (digit_run_digits (v :: vs) [] Hall I) as Hrun.
  rewrite (right_id_L [] (++)) in Hrun.
  change (ascii_digits (v :: vs)) with ((48 + v) :: ascii_digits vs) in Hrun.
  by rewrite Hrun.
Qed.
End strptime.

(** *** [strptime] with the format [%d.%m.%Y] *)

Section strptime_run.
Context `{U : UnicodeData} {L : UnicodeLaws U}.

(** The results of running the format's expression. *)
Lemma format_run s st' :
  st' ∈ run (pat_re Strptime.format_dmY) (start s) ↔
  ∃ D M Y,
    s = D ++ 46 :: M ++ 46 :: Y ++ rest st'
    ∧ matches Strptime.dd D ∧ matches Strptime.mm M
    ∧ matches Strptime.yyyy Y
    ∧ caps st' = [Some D; Some M; Some Y].
Proof.
  unfold Strptime.format_dmY, start. cbn [pat_re]. split.
  - intros (st4 & (st3 & (st2 & (st1 & H1 & H2)%elem_run_Seq
                           & H3)%elem_run_Seq & H4)%elem_run_Seq
            & H5)%elem_run_Seq.
    apply elem_run_Group_groupless in H1 as (D & HD & HmD & Hc1); [|done].
    apply elem_run_chr in H2 as [Hr2 Hc2].
    apply elem_run_Group_groupless in H3 as (M & HM & HmM & Hc3); [|done].
    apply elem_run_chr in H4 as [Hr4 Hc4].
    apply elem_run_Group_groupless in H5 as (Y & HY & HmY & Hc5); [|done].
    exists D, M, Y. cbn in HD, Hc1.
    split; [by rewrite HD, Hr2, HM, Hr4, HY|].
    split; [done|]. split; [done|]. split; [done|].
    by rewrite Hc5, Hc4, Hc3, Hc2, Hc1.
  - intros (D & M & Y & -> & HmD & HmM & HmY & Hcaps).
    destruct st' as [r cs]. cbn in Hcaps. subst cs. cbn [rest].
    apply elem_run_Seq.
    exists (MState (Y ++ r) [Some D; Some M; None]). split.
    2:{ by apply (elem_run_Group_complete 3 _ Y r [Some D; Some M; None]). }
    apply elem_run_Seq.
    exists (MState (46 :: Y ++ r) [Some D; Some M; None]). split.
    2:{ by apply elem_run_chr. }
    apply elem_run_Seq.
    exists (MState (M ++ 46 :: Y ++ r) [Some D; None; None]). split.
    2:{ by apply (elem_run_Group_complete 2 _ M _ [Some D; None; None]). }
    apply elem_run_Seq.
    exists (MState (46 :: M ++ 46 :: Y ++ r) [Some D; None; None]). split.
    2:{ by apply elem_run_chr. }
    by apply (elem_run_Group_complete 1 _ D _ [None; None; None]).
Qed.

(** A string has one reading at most. *)
Lemma format_run_unique D M Y D' M' Y' (r : str) :
  matches Strptime.dd D → matches Strptime.mm M → matches Strptime.yyyy Y →
  matches Strptime.dd D' → matches Strptime.mm M' → matches Strptime.yyyy Y' →
  D ++ 46 :: M ++ 46 :: Y = D' ++ 46 :: M' ++ 46 :: Y' ++ r →
  D' = D ∧ M' = M ∧ Y' = Y ∧ r = [].
Proof.
  intros HD HM HY HD' HM' HY' Heq.
  apply split_at_separator in Heq as [-> Heq];
    [|by apply token_no_point, dd_token..].
  apply split_at_separator in Heq as [-> Heq];
    [|by apply token_no_point, mm_token..].
  apply yyyy_digits in HY as [HlY _], HY' as [HlY' _].
  assert (r = []) as ->.
  { apply (f_equal length) in Heq. rewrite length_app in Heq.
    destruct r; [done|]. cbn in Heq. lia. }
  by rewrite (right_id_L [] (++)) in Heq.
Qed.

Lemma match_here_head p s :
  match_here p false s
  = head (run (pat_re p) (MState s (replicate (pat_groups p) None))).
Proof.
  unfold match_here. f_equal.
  induction (run _ _) as [|st l IH]; [done|].
  rewrite filter_cons_True by done. by rewrite IH.
Qed.

(** [strptime] with the format ["%d.%m.%Y"]. *)
Lemma strptime_dmY_spec s dt :
  Strptime.strptime_dmY s = Some dt ↔
  ∃ D M Y,
    s = D ++ 46 :: M ++ 46 :: Y
    ∧ matches Strptime.dd D ∧ matches Strptime.mm M
    ∧ matches Strptime.yyyy Y
    ∧ make_date (Z.of_N (number Y)) (Z.of_N (number M)) (Z.of_N (number D))
      = Some dt.
Proof.
  unfold Strptime.strptime_dmY. rewrite match_here_head.
  change (MState s (replicate (pat_groups Strptime.format_dmY) None))
    with (start s).
  split.
  - destruct (head (run _ (start s))) as [found|] eqn:Hhd; [|done].
    cbn [mbind option_bind].
    apply head_Some_elem_of, format_run in Hhd
      as (D & M & Y & Hs & HD & HM & HY & Hcaps).
    case_bool_decide as Hrest; [|done].
    rewrite Hrest, (right_id_L [] (++)) in Hs.
    unfold groups. rewrite Hcaps. cbn [fmap list_fmap default].
    rewrite (py_int_token D), (py_int_token M), (py_int_token Y)
      by eauto using dd_token, mm_token, yyyy_token.
    cbn [mbind option_bind]. intros Hdate. by exists D, M, Y.
  - intros (D & M & Y & -> & HD & HM & HY & Hdate).
    assert (MState [] [Some D; Some M; Some Y]
            ∈ run (pat_re Strptime.format_dmY)
                (start (D ++ 46 :: M ++ 46 :: Y))) as Hin.
    { apply format_run. exists D, M, Y. cbn [rest caps].
      by rewrite (right_id_L [] (++)). }
    destruct (head (run _ (start _))) as [found|] eqn:Hhd.
    2:{ apply head_None in Hhd. rewrite Hhd in Hin.
        by apply elem_of_nil in Hin. }
    apply head_Some_elem_of, format_run in Hhd
      as (D' & M' & Y' & Hs & HD' & HM' & HY' & Hcaps).
    destruct (format_run_unique D M Y D' M' Y' (rest found))
      as (-> & -> & -> & Hrest); [done..|].
    cbn [mbind option_bind]. rewrite bool_decide_eq_true_2 by done.
    unfold groups. rewrite Hcaps. cbn [fmap list_fmap default].
    rewrite (py_int_token D), (py_int_token M), (py_int_token Y)
      by eauto using dd_token, mm_token, yyyy_token.
    done.
Qed.
End strptime_run.

(** *** Dates in the strict format *)

Section strict_dates.
Context `{U : UnicodeData} {L : UnicodeLaws U}.

Lemma matches_ascii_digit c : 48 ≤ c ≤ 57 → matches Patterns.d [c].
Proof. intros Hc. constructor. by apply ascii_digit_is_digit. Qed.

Lemma matches_range lo hi c : lo ≤ c ≤ hi → matches (Strptime.range lo hi) [c].
Proof. intros Hc. constructor. by apply cmatch_range. Qed.

Lemma matches_chr c : matches (chr c) [c].
Proof. constructor. cbn. apply N.eqb_refl. Qed.

Lemma matches_pair a b x y :
  matches a [x] → matches b [y] → matches (Seq a b) [x; y].
Proof. intros Ha Hb. by apply (matches_Seq a b [x] [y]). Qed.

Lemma number_two a b :
  48 ≤ a ≤ 57 → 48 ≤ b ≤ 57 → number [a; b] = 10 * (a - 48) + (b - 48).
Proof.
  intros Ha Hb. unfold number, digit_values. cbn.
  rewrite !decimal_latin1 by lia. unfold ascii_decimal.
  destruct ((48 <=? a) && (a <=? 57)) eqn:Ea; [|to_arith; lia].
  destruct ((48 <=? b) && (b <=? 57)) eqn:Eb; [|to_arith; lia].
  cbn. unfold of_digits. cbn. lia.
Qed.

(** Two ASCII digits that write a day of a month are a day field. *)
Lemma dd_two a b :
  48 ≤ a ≤ 57 → 48 ≤ b ≤ 57 → 1 ≤ number [a; b] ≤ 31 →
  matches Strptime.dd [a; b].
Proof.
  intros Ha Hb. rewrite number_two by done. intros Hn. unfold Strptime.dd.
  destruct (N.eq_dec a 51) as [->|].
  { apply matches_Alt_l, matches_pair;
      [apply matches_chr|apply matches_range; lia]. }
  destruct (N.eq_dec a 48) as [->|].
  { do 2 apply matches_Alt_r. apply matches_Alt_l, matches_pair;
      [apply matches_chr|apply matches_range; lia]. }
  apply matches_Alt_r, matches_Alt_l, matches_pair;
    [apply matches_range; lia|apply matches_ascii_digit; lia].
Qed.

Lemma mm_two a b :
  48 ≤ a ≤ 57 → 48 ≤ b ≤ 57 → 1 ≤ number [a; b] ≤ 12 →
  matches Strptime.mm [a; b].
Proof.
  intros Ha Hb. rewrite number_two by done. intros Hn. unfold Strptime.mm.
  destruct (N.eq_dec a 49) as [->|].
  { apply matches_Alt_l, matches_pair;
      [apply matches_chr|apply matches_range; lia]. }
  apply matches_Alt_r, matches_Alt_l.
  assert (a = 48) as -> by lia.
  apply matches_pair; [apply matches_chr|apply matches_range; lia].
Qed.

Lemma yyyy_four a b c d :
  digit a → digit b → digit c → digit d → matches Strptime.yyyy [a; b; c; d].
Proof.
  intros Ha Hb Hc Hd. unfold Strptime.yyyy.
  apply (matches_Seq _ _ [a; b; c] [d]); [|by constructor].
  apply (matches_Seq _ _ [a; b] [c]); [|by constructor].
  apply matches_pair; by constructor.
Qed.

Lemma make_date_bounds y m d dt :
  make_date y m d = Some dt → (1 ≤ m ≤ 12 ∧ 1 ≤ d ≤ 31)%Z.
Proof.
  unfold make_date, days_in_month.
  destruct (_ && _) eqn:E; [|done]. intros _.
  destruct (m =? 2)%Z eqn:E2; [destruct (is_leap y)|];
    [| |destruct (_ || _) eqn:E3]; lia.
Qed.

(** The strings of [\d{2}\.\d{2}\.\d{4}]. *)
Lemma date_re_shape s :
  matches Patterns.date_re s →
  ∃ D M Y, s = D ++ 46 :: M ++ 46 :: Y
           ∧ length D = 2%nat ∧ length M = 2%nat ∧ length Y = 4%nat
           ∧ Forall digit D ∧ Forall digit M ∧ Forall digit Y.
Proof.
  unfold Patterns.date_re, Patterns.d.
  intros (? & Y & -> & (? & ? & -> & (? & M & -> & (D & ? & -> & HD
    & ->%matches_chr_inv)%matches_Seq_inv & HM)%matches_Seq_inv
    & ->%matches_chr_inv)%matches_Seq_inv & HY)%matches_Seq_inv.
  apply matches_rep_Chr_inv in HD as [? ?], HM as [? ?], HY as [? ?].
  exists D, M, Y. split; [|done].
  rewrite <-!(assoc_L (++)). done.
Qed.

Lemma parse_date_strict s :
  matches Patterns.date_re s → Forall (λ c, c < 128) s →
  parse_date s
  = inr (make_date (Z.of_N (number (drop 6 s)))
           (Z.of_N (number (take 2 (drop 3 s))))
           (Z.of_N (number (take 2 s)))).
Proof.
  intros (D & M & Y & -> & HlD & HlM & HlY & HD & HM & HY)%date_re_shape Hascii.
  destruct D as [|a [|b [|]]]; try discriminate.
  destruct M as [|c [|d [|]]]; try discriminate.
  destruct Y as [|e [|f [|g [|h [|]]]]]; try discriminate.
  cbn [app take drop]. rewrite parse_date_inr. f_equal.
  cbn [app] in Hascii. rewrite !Forall_cons in HD, HM, Hascii.
  destruct HD as (Hda & Hdb & _), HM as (Hdc & Hdd & _).
  repeat rewrite Forall_cons in Hascii.
  destruct Hascii as (Ha' & Hb' & _ & Hc' & Hd' & _).
  assert (48 ≤ a ≤ 57) as Ha by (apply digit_latin1; [done|lia]).
  assert (48 ≤ b ≤ 57) as Hb by (apply digit_latin1; [done|lia]).
  assert (48 ≤ c ≤ 57) as Hc by (apply digit_latin1; [done|lia]).
  assert (48 ≤ d ≤ 57) as Hd by (apply digit_latin1; [done|lia]).
  assert (matches Strptime.yyyy [e; f; g; h]) as HmY.
  { rewrite !Forall_cons in HY. destruct HY as (? & ? & ? & ? & _).
    by apply yyyy_four. }
  destruct (make_date _ _ _) as [dt|] eqn:Hdate.
  - apply strptime_dmY_spec. exists [a; b], [c; d], [e; f; g; h].
    apply make_date_bounds in Hdate as Hbd.
    rewrite (number_two a b), (number_two c d) in Hbd by done.
    split; [done|].
    split; [apply dd_two; [done..|rewrite number_two by done; lia]|].
    split; [apply mm_two; [done..|rewrite number_two by done; lia]|]. done.
  - destruct (Strptime.strptime_dmY _) as [dt|] eqn:Hp; [|done].
    apply strptime_dmY_spec in Hp as (D' & M' & Y' & Heq & HD' & HM' & HY' & Hdt).
    change ([a; b; 46; c; d; 46; e; f; g; h])
      with ([a; b] ++ 46 :: [c; d] ++ 46 :: [e; f; g; h]) in Heq.
    apply split_at_separator in Heq as [<- Heq];
      [|apply digits_neq; [by repeat constructor|done]
       |by apply token_no_point, dd_token].
    apply split_at_separator in Heq as [<- <-];
      [|apply digits_neq; [by repeat constructor|done]
       |by apply token_no_point, mm_token].
    congruence.
Qed.
End strict_dates.

(** ** The claims about one document *)

Lemma Forall2_bind {A B C} (R : B → C → Prop) (f : A → list B) (g : A → list C) l :
  (∀ x, x ∈ l → Forall2 R (f x) (g x)) → Forall2 R (l ≫= f) (l ≫= g).
Proof.
  induction l as [|x l IH]; intros Hfg; [constructor|]. cbn.
  apply Forall2_app; [apply Hfg; by left|].
  apply IH. intros y Hy. apply Hfg. by right.
Qed.

Lemma bind_singleton {A} (l : list A) : l ≫= (λ x, [x]) = l.
Proof. induction l as [|x l IH]; [done|]. cbn. by rewrite IH. Qed.


Section rows_and_matches.
Context `{U : UnicodeData}.

Lemma page_rows_of_matches tt text :
  Forall2 row_of_match (page_matches tt text) (page_rows tt text).
Proof.
  unfold page_matches, page_rows. apply Forall2_bind. intros item Hitem.
  rewrite <-(bind_singleton (findall item.2 text)) at 1.
  apply Forall2_bind. intros m Hm.
  apply findall_groups in Hm. rewrite (registry_six _ _ Hitem) in Hm.
  destruct (record_of_match_six m Hm) as (b & v & t & c & d & a & -> & ->).
  constructor; [|constructor].
  exists b, v, t, c, d, a. cbn.
  by rewrite !parse_date_inr, parse_amount_inr.
Qed.

Lemma doc_rows_of_matches tt pages :
  Forall2 row_of_match (doc_matches tt pages) (doc_rows tt pages).
Proof.
  unfold doc_matches, doc_rows. apply Forall2_bind. intros page _.
  destruct (has_text page); [apply page_rows_of_matches|constructor].
Qed.

Lemma doc_rows_app tt pre post :
  doc_rows tt (pre ++ post) = doc_rows tt pre ++ doc_rows tt post.
Proof. apply bind_app. Qed.
End rows_and_matches.

(** C1. Every match of every pattern on every page with text becomes one
    row of the frame [parse_pdf] returns, in order: the transaction id and
    the code are the matched strings, the description is the matched one
    stripped, and the two dates and the amount are what [parse_date] and
    [parse_amount] return for the matched text, which is [None] when it
    does not normalize.  No match is left out and no row is added. *)
Theorem parse_pdf_keeps_every_match `{U : UnicodeData} (w : world)
    (pdf_path : str) (transaction_type : option (option TransactionType))
    (pages : list (option str)) (σ : parser) :
  PdfReader w pdf_path = inr pages →
  ∃ rows,
    (parse_pdf w pdf_path transaction_type σ).1 = inr rows
    ∧ Forall2 row_of_match
        (doc_matches (default (Some DIRECT_DEBIT) transaction_type) pages)
        rows.
Proof.
  intros Hread. eexists. split.
  - unfold parse_pdf. by erewrite parse_pdf_body_eq.
  - apply doc_rows_of_matches.
Qed.

Lemma parse_pdf_keeps_every_match_witness :
  ∃ rows,
    (parse_pdf (U:=ascii_unicode) three_pages (lit "/data/a.pdf") None
       (new_parser (lit "/data"))).1 = inr rows
    ∧ Forall2 (row_of_match (U:=ascii_unicode))
        (doc_matches (U:=ascii_unicode) (Some DIRECT_DEBIT)
           [Some (statement_block (lit "31.02.2024") (lit "04.12.2024")
                    (lit "7L2C1U7N2KRV"));
            None;
            Some SAMPLE_TEXT])
        rows.
Proof.
  apply (@parse_pdf_keeps_every_match ascii_unicode three_pages
           (lit "/data/a.pdf") None).
  vm_compute. reflexivity.
Defined.

(** The rows of [three_pages]: the block whose booking date is the 31st
    of February is kept, without a booking date. *)
Example row_without_booking_date :
  (parse_pdf (U:=ascii_unicode) three_pages (lit "/data/a.pdf") None
     (new_parser (lit "/data"))).1
  = inr [undated_row; sample_row].
Proof. by vm_compute. Qed.

(** With the level [__init__] sets by default every call of the parser
    reaches the handler; a warning does unless the caller chose a level
    above [logging.WARNING]. *)
Lemma emitted_default calls : emitted 20 calls = calls.
Proof.
  unfold emitted. induction calls as [|[[] m] calls IH]; [done|..];
    by rewrite filter_cons_True, IH.
Qed.

Lemma emitted_warning log_level m :
  emitted log_level [Log WARNING m]
  = if (log_level <=? 30)%Z then [Log WARNING m] else [].
Proof.
  unfold emitted. rewrite filter_cons. cbn. unfold isEnabledFor. cbn.
  by destruct (log_level <=? 30)%Z; case_decide.
Qed.




(** ** The claims about a folder of documents *)

Section runs.
Context `{U : UnicodeData} `{Sort : Argsort}.
Variable w : world.




Lemma parse_pdfs_body_no_folder tt out σ e :
  listdir w (source_folder σ) = inl e →
  parse_pdfs_body w tt out σ = (inl e, σ).
Proof.
  intros Hls. unfold parse_pdfs_body.
  erewrite bind_inr; [|reflexivity].
  erewrite bind_inl; [done|]. unfold lift. by rewrite Hls.
Qed.

(** What a run that returns has returned. *)
Lemma parse_pdfs_returns tt out σ df :
  (parse_pdfs w tt out σ).1 = inr df →
  ∃ names dfs l,
    listdir w (source_folder σ) = inr names
    ∧ batch w (source_folder σ) (default (Some DIRECT_DEBIT) tt) names
      = (inr dfs, l)
    ∧ df = combined dfs.
Proof.
  unfold parse_pdfs. intros Hrun.
  destruct (listdir w (source_folder σ)) as [e|names] eqn:Hls.
  { by erewrite parse_pdfs_body_no_folder in Hrun. }
  destruct (batch w (source_folder σ) (default (Some DIRECT_DEBIT) tt) names)
    as [[e|dfs] l] eqn:Hbatch.
  { by erewrite parse_pdfs_body_raises in Hrun. }
  erewrite parse_pdfs_body_ok in Hrun by done.
  injection Hrun as <-. by exists names, dfs, l.
Qed.

Lemma kept_nil_concat dfs : kept dfs = [] → concat dfs = [].
Proof. intros Hk. by rewrite <-concat_kept, Hk. Qed.

Lemma front_nil : front [] = [].
Proof. unfold front. by induction (argsort (keys [])). Qed.

Lemma combined_eq dfs :
  combined dfs = front (concat dfs) ++ missing (concat dfs).
Proof.
  unfold combined. case_bool_decide as Hk; [apply sort_values_eq|].
  assert (kept dfs = []) as Hk' by (by destruct (kept dfs); [|destruct Hk]).
  by rewrite (kept_nil_concat dfs Hk'), front_nil.
Qed.
End runs.




(** C2. In the frame [parse_pdfs] returns, whenever a row stands before
    another and both have a booking date, the date of the first is not
    later than the date of the second. *)
Theorem parse_pdfs_sorted_by_booking_date `{U : UnicodeData} `{Sort : Argsort}
    {L : ArgsortLaws Sort} (w : world)
    (transaction_type : option (option TransactionType))
    (output_csv : option (option str)) (σ : parser)
    (df : DataFrame) (a b : TransactionRecord) (da db : date) :
  (parse_pdfs w transaction_type output_csv σ).1 = inr df →
  precedes df a b →
  booking_date a = Some da → booking_date b = Some db →
  date_le da db.
Proof.
  intros (names & dfs & l & _ & _ & ->)%parse_pdfs_returns
         (i & j & Hij & Hi & Hj) Ha Hb.
  rewrite combined_eq in Hi, Hj.
  apply lookup_app_Some in Hj as [Hj|[_ Hj]].
  - apply lookup_lt_Some in Hj as Hlt.
    rewrite lookup_app_l in Hi by lia.
    exact (front_sorted (concat dfs) i j a b da db Hij Hi Hj Ha Hb).
  - apply list_elem_of_lookup_2, list_elem_of_filter in Hj as [Hnone _].
    congruence.
Qed.

Lemma parse_pdfs_sorted_by_booking_date_witness :
  (parse_pdfs (U:=ascii_unicode) (Sort:=numpy_argsort) two_days
     None None (new_parser (lit "/data"))).1
  = inr [sample_row; row_booked 5 (lit "8M3D2V8O3LSW")]
  ∧ date_le (Date 2024 12 4) (Date 2024 12 5).
Proof.
  assert ((parse_pdfs (U:=ascii_unicode) (Sort:=numpy_argsort) two_days
             None None (new_parser (lit "/data"))).1
          = inr [sample_row; row_booked 5 (lit "8M3D2V8O3LSW")]) as Hrun
    by (vm_compute; reflexivity).
  split; [exact Hrun|].
  apply (@parse_pdfs_sorted_by_booking_date ascii_unicode numpy_argsort
           numpy_argsort_laws two_days None None (new_parser (lit "/data"))
           _ sample_row (row_booked 5 (lit "8M3D2V8O3LSW")) _ _ Hrun).
  - exists 0%nat, 1%nat. split; [lia|]. split; reflexivity.
  - reflexivity.
  - reflexivity.
Defined.

(** C3, as the code has it.  The frame [parse_pdfs] returns holds the
    rows of the documents, in this order: first the rows with a booking
    date, in ascending order of the date, then the rows without one, in
    the order in which they arrived.  The order of rows of equal date is
    whatever numpy's quicksort leaves. *)
Theorem parse_pdfs_order `{U : UnicodeData} `{Sort : Argsort}
    {L : ArgsortLaws Sort} (w : world)
    (transaction_type : option (option TransactionType))
    (output_csv : option (option str)) (σ : parser)
    (names : list str) (dfs : list DataFrame) (l : list log_entry) :
  listdir w (source_folder σ) = inr names →
  batch w (source_folder σ) (default (Some DIRECT_DEBIT) transaction_type) names
  = (inr dfs, l) →
  ∃ dated,
    (parse_pdfs w transaction_type output_csv σ).1
    = inr (dated ++ filter (λ r, booking_date r = None) (concat dfs))
    ∧ dated ≡ₚ filter (λ r, is_Some (booking_date r)) (concat dfs)
    ∧ ∀ i j a b da db,
        (i < j)%nat → dated !! i = Some a → dated !! j = Some b →
        booking_date a = Some da → booking_date b = Some db →
        date_le da db.
Proof.
  intros Hls Hbatch. exists (front (concat dfs)). split; [|split].
  - unfold parse_pdfs. erewrite parse_pdfs_body_ok by done.
    cbn [fst]. by rewrite combined_eq.
  - apply front_Permutation.
  - intros i j a b da db. apply front_sorted.
Qed.

Lemma parse_pdfs_order_witness :
  ∃ dated,
    (parse_pdfs (U:=ascii_unicode) (Sort:=numpy_argsort) two_days
       None None (new_parser (lit "/data"))).1
    = inr (dated
           ++ filter (λ r, booking_date r = None)
                (concat [[row_booked 5 (lit "8M3D2V8O3LSW")]; [sample_row]]))
    ∧ dated ≡ₚ filter (λ r, is_Some (booking_date r))
                 (concat [[row_booked 5 (lit "8M3D2V8O3LSW")]; [sample_row]])
    ∧ ∀ i j a b da db,
        (i < j)%nat → dated !! i = Some a → dated !! j = Some b →
        booking_date a = Some da → booking_date b = Some db →
        date_le da db.
Proof.
  apply (@parse_pdfs_order ascii_unicode numpy_argsort
           numpy_argsort_laws two_days None None (new_parser (lit "/data"))
           [lit "a.pdf"; lit "notes.txt"; lit "b.pdf"]
           [[row_booked 5 (lit "8M3D2V8O3LSW")]; [sample_row]]
           [Log INFO (lit "Parsed 1 transactions from a.pdf");
            Log INFO (lit "Parsed 1 transactions from b.pdf")]).
  - reflexivity.
  - vm_compute. reflexivity.
Defined.

(** numpy's quicksort on eighteen equal keys: the partition exchanges
    the keys on both sides of the pivot, equal or not; up to seventeen
    keys it is an insertion sort and moves none of them. *)
Example npy_aquicksort_equal_keys :
  NpySort.npy_aquicksort (replicate 18 (Date 2024 12 4))
  = [0; 15; 14; 13; 12; 11; 10; 9; 8; 7; 6; 5; 4; 3; 2; 1; 16; 17]%nat
  ∧ NpySort.npy_aquicksort (replicate 17 (Date 2024 12 4)) = seq 0 17.
Proof. by vm_compute. Qed.

(** Two rows of the same booking date, the case of [same_day], keep
    their places: the quicksort does not partition so short an array. *)
Example two_equal_dates_keep_their_places :
  (parse_pdfs (U:=ascii_unicode) (Sort:=numpy_argsort) same_day
     None None (new_parser (lit "/data"))).1
  = inr [sample_row; second_row].
Proof. by vm_compute. Qed.

(** C3 as it is stated fails.  A document holds eighteen transactions
    booked on the same day.  [parse_pdf] reads them in the order of the
    pages, and [parse_pdfs], sorting with numpy's quicksort, returns them
    in another order: the one that ends in B was read before the one that
    ends in C and comes back after it. *)
Lemma equal_dates_change_places :
  (parse_pdf (U:=ascii_unicode) busy_day (lit "/data/a.pdf") None
     (new_parser (lit "/data"))).1
  = inr busy_day_arrived
  ∧ (parse_pdfs (U:=ascii_unicode) (Sort:=numpy_argsort) busy_day
       None None (new_parser (lit "/data"))).1
    = inr busy_day_returned
  ∧ busy_day_arrived !! 1%nat = Some (busy_row (lit "7L2C1U7N2KRB"))
  ∧ busy_day_arrived !! 2%nat = Some (busy_row (lit "7L2C1U7N2KRC"))
  ∧ busy_day_returned !! 14%nat = Some (busy_row (lit "7L2C1U7N2KRC"))
  ∧ busy_day_returned !! 15%nat = Some (busy_row (lit "7L2C1U7N2KRB"))
  ∧ booking_date (busy_row (lit "7L2C1U7N2KRB"))
    = booking_date (busy_row (lit "7L2C1U7N2KRC")).
Proof. by vm_compute. Qed.

(** The contract of the sort does not settle the order of equal dates:
    [insertion_argsort] sorts, and with it two rows of the same booking
    date come back in the reverse of the order in which their documents
    were read. *)
Example sort_contract_allows_reversed_ties :
  ArgsortLaws insertion_argsort
  ∧ (batch (U:=ascii_unicode) same_day (lit "/data") (Some DIRECT_DEBIT)
       [lit "a.pdf"; lit "b.pdf"]).1
    = inr [[sample_row]; [second_row]]
  ∧ (parse_pdfs (U:=ascii_unicode) (Sort:=insertion_argsort) same_day
       None None (new_parser (lit "/data"))).1
    = inr [second_row; sample_row]
  ∧ booking_date sample_row = booking_date second_row
  ∧ sample_row ≠ second_row.
Proof.
  split; [exact insertion_argsort_laws|]. by vm_compute.
Qed.

(** ** The claims about the normalizer, the sample page and the loader *)

Lemma fullmatch_matches `{U : UnicodeData} r s :
  fullmatch r s = true → matches r s.
Proof.
  intros (st & Hin & Hrest)%bool_decide_eq_true%Exists_exists.
  apply run_sound in Hin as (u & Hu & Hm & _). cbn in Hu.
  rewrite Hrest, (right_id_L [] (++)) in Hu. by subst.
Qed.

Lemma date_re_length `{U : UnicodeData} {L : UnicodeLaws U} s :
  matches Patterns.date_re s → length s = 10%nat.
Proof.
  intros (D & M & Y & -> & HD & HM & HY & _)%date_re_shape.
  rewrite length_app. cbn. rewrite length_app. cbn. lia.
Qed.



(** C5, as the code has it.  [parse_date] returns a date exactly on the
    strings [D.M.Y] where [D] is a day as [%d] reads it (two digits, or
    one digit with or without a space before it), [M] a month as [%m]
    reads it (two digits or one), [Y] four decimal digits, and the three
    numbers are a date of the calendar, which is the date returned.  On
    an ASCII string of the form [\d{2}\.\d{2}\.\d{4}] that is the date the
    string writes if there is such a date, and [None] if not.  On every
    other string it returns [None]; it never raises. *)
Theorem parse_date_spec `{U : UnicodeData} {L : UnicodeLaws U} (s : str) :
  (∀ dt,
     parse_date s = inr (Some dt) ↔
     ∃ D M Y,
       s = D ++ 46 :: M ++ 46 :: Y
       ∧ matches Strptime.dd D ∧ matches Strptime.mm M
       ∧ matches Strptime.yyyy Y
       ∧ make_date (Z.of_N (number Y)) (Z.of_N (number M)) (Z.of_N (number D))
         = Some dt)
  ∧ (matches Patterns.date_re s → Forall (λ c, c < 128) s →
     parse_date s
     = inr (make_date (Z.of_N (number (drop 6 s)))
              (Z.of_N (number (take 2 (drop 3 s))))
              (Z.of_N (number (take 2 s)))))
  ∧ ∃ r, parse_date s = inr r.
Proof.
  split; [|split].
  - intros dt. rewrite parse_date_inr, <-strptime_dmY_spec.
    split; [by intros [= ->]|by intros ->].
  - apply parse_date_strict.
  - eexists. apply parse_date_inr.
Qed.

Lemma parse_date_spec_witness :
  UnicodeLaws ascii_unicode
  ∧ parse_date (U:=ascii_unicode) (lit "04.12.2024")
    = inr (Some (Date 2024 12 4))
  ∧ parse_date (U:=ascii_unicode) (lit "31.02.2024") = inr None.
Proof.
  split; [exact ascii_unicode_laws|]. split.
  - apply (proj1 (proj2 (@parse_date_spec ascii_unicode ascii_unicode_laws
                           (lit "04.12.2024")))).
    + apply fullmatch_matches. vm_compute. reflexivity.
    + apply (bool_decide_unpack _). vm_compute. exact I.
  - apply (proj1 (proj2 (@parse_date_spec ascii_unicode ascii_unicode_laws
                           (lit "31.02.2024")))).
    + apply fullmatch_matches. vm_compute. reflexivity.
    + apply (bool_decide_unpack _). vm_compute. exact I.
Defined.

(** C5 as it is stated fails: a day of one digit is accepted, on a string
    that is not of the form [\d{2}\.\d{2}\.\d{4}]. *)
Lemma parse_date_accepts_one_digit_day :
  parse_date (U:=ascii_unicode) (lit "4.12.2024") = inr (Some (Date 2024 12 4))
  ∧ ¬ matches (U:=ascii_unicode) Patterns.date_re (lit "4.12.2024").
Proof.
  split; [by vm_compute|].
  intros Hm. by apply (date_re_length (L:=ascii_unicode_laws)) in Hm.
Qed.

(** C8. On [SAMPLE_TEXT] the loops of the extractor, with the DirectDebit
    pattern, append exactly one row: booked and valued on 2024-12-04,
    with id "7L2C1U7N2KRV", code "5LYN/35742", a description that starts
    with "D.T.NET Service" and the amount -48.40. *)
Theorem sample_page_yields_one_row `{U : UnicodeData} {L : UnicodeLaws U}
    (σ : parser) :
  extract_page (pattern_items (Some DIRECT_DEBIT)) SAMPLE_TEXT [] σ
  = (inr [sample_row], σ)
  ∧ booking_date sample_row = Some (Date 2024 12 4)
  ∧ value_date sample_row = Some (Date 2024 12 4)
  ∧ transaction_id sample_row = lit "7L2C1U7N2KRV"
  ∧ code sample_row = lit "5LYN/35742"
  ∧ startswith (description sample_row) (lit "D.T.NET Service") = true
  ∧ amount sample_row = Some (Finite true 4840 (-2)).
Proof.
  split; [|by vm_compute].
  rewrite extract_page_eq. cbn [app]. f_equal. f_equal.
  rewrite (page_rows_ext U (on_latin1 U) (on_latin1_same U)).
  by vm_compute.
Qed.

Lemma sample_page_yields_one_row_witness :
  UnicodeLaws ascii_unicode
  ∧ extract_page (U:=ascii_unicode) (pattern_items (Some DIRECT_DEBIT))
      SAMPLE_TEXT [] (new_parser (lit "/data"))
    = (inr [sample_row], new_parser (lit "/data")).
Proof.
  split; [exact ascii_unicode_laws|].
  exact (proj1 (@sample_page_yields_one_row ascii_unicode ascii_unicode_laws
                  (new_parser (lit "/data")))).
Defined.

(** C9 at an input on which the code and the claim part: the keyword
    "A.C" keeps the row "ABC", of which it is no substring, because
    [str.contains] reads the joined keywords as a regular expression. *)
Theorem load_reads_keywords_as_patterns :
  load (U:=ascii_unicode) three_rows (lit "transactions.csv")
    (Some [lit "A.C"])
  = Some (inr [(None, described (lit "ABC")); (None, described (lit "A.C"))])
  ∧ contains (lit "ABC") (lit "A.C") = false
  ∧ contains (lit "A.C") (lit "A.C") = true.
Proof. by vm_compute. Qed.

(** *** Keywords without syntax *)




Section keyword_search.
Context `{U : UnicodeData}.



Lemma match_here_is_head p s :
  match_here p false s
  = head (run (pat_re p) (MState s (replicate (pat_groups p) None))).
Proof.
  unfold match_here. f_equal.
  induction (run _ _) as [|st l IH]; [done|].
  rewrite filter_cons_True by done. by rewrite IH.
Qed.




End keyword_search.


(** Without keywords, or with an empty list of them, [load] keeps every
    row. *)
Theorem load_without_keywords `{U : UnicodeData} (w : loader_world)
    file_path keywords rows dates :
  keywords = None ∨ keywords = Some [] →
  read_csv w file_path = inr rows →
  to_datetime w (csv_booking_date <$> rows) = inr dates →
  load w file_path keywords = Some (inr (zip dates rows)).
Proof.
  intros Hk Hrows Hdates. unfold load. rewrite Hrows, Hdates.
  by destruct Hk as [-> | ->].
Qed.

(** *** Examples *)

(** The keywords of the two analyses hold no syntax, so on them [load]
    does filter by substring. *)
Example analyses_keywords_plain :
  Forall plain_keyword groceries_keywords ∧ Forall plain_keyword rent_keywords.
Proof.
  split; repeat (apply Forall_cons; split; [by repeat constructor|]);
    apply Forall_nil_2.
Qed.

Example load_plain_keywords_at_three_rows :
  load (U:=ascii_unicode) three_rows (lit "transactions.csv")
    (Some [lit "BC"; lit "y"])
  = Some (inr [(None, described (lit "ABC")); (None, described (lit "xyz"))]).
Proof. by vm_compute. Qed.

(** Digits of other scripts: [float] and [int] read them, the first
    character of a [%d] field must be ASCII. *)
Example parse_amount_arabic_digits :
  parse_amount (U:=arabic_unicode) [45; 0x661; 0x662; 44; 0x663; 0x664]
  = inr (Some (Finite true 1234 (-2))).
Proof. by vm_compute. Qed.

Example parse_date_arabic_digits :
  parse_date (U:=arabic_unicode)
    [49; 0x664; 46; 49; 50; 46; 50; 0x660; 50; 52]
  = inr (Some (Date 2024 12 14))
  ∧ parse_date (U:=arabic_unicode)
      [0x660; 0x664; 46; 49; 50; 46; 50; 48; 50; 52]
    = inr None.
Proof. by vm_compute. Qed.

(** ** More about the extractor *)

(** *** What a call does to the parser *)

Section calls.
Context `{U : UnicodeData} `{Sort : Argsort}.

(** The three ways a run of [parse_pdfs] can go. *)
Lemma parse_pdfs_body_cases (w : world) tt out σ :
  parse_pdfs_body w tt out σ
  = match listdir w (source_folder σ) with
    | inl e => (inl e, σ)
    | inr names =>
        match batch w (source_folder σ) tt names with
        | (inr dfs, l) => (inr (combined dfs), finished w dfs l out σ)
        | (inl e, l) => (inl e, add_log l σ)
        end
    end.
Proof.
  destruct (listdir w (source_folder σ)) as [e|names] eqn:Hls.
  { by apply parse_pdfs_body_no_folder. }
  destruct (batch w (source_folder σ) tt names) as [[e|dfs] l] eqn:Hb.
  - by eapply parse_pdfs_body_raises.
  - by eapply parse_pdfs_body_ok.
Qed.


(** Only the entries that end in [.pdf] count. *)
Lemma batch_filter (w : world) folder tt names :
  batch w folder tt (filter (λ f, is_pdf_name f = true) names)
  = batch w folder tt names.
Proof.
  induction names as [|f names IH]; [done|].
  rewrite filter_cons. cbn [batch].
  destruct (is_pdf_name f) eqn:Hf.
  - rewrite decide_True by done. cbn [batch]. by rewrite Hf, IH.
  - by rewrite decide_False by done.
Qed.

Lemma batch_no_pdf (w : world) folder tt names :
  Forall (λ f, is_pdf_name f = false) names →
  batch w folder tt names = (inr [], []).
Proof.
  induction 1 as [|f names Hf _ IH]; [done|]. cbn [batch]. by rewrite Hf.
Qed.

End calls.


(** X2.  A call of [parse_pdfs] that returns has stored the frame it
    returns in [self.transactions], has logged its number of rows, and,
    when [output_csv] is given, has handed exactly that frame to [to_csv]
    under the resolved path and logged the path last; without
    [output_csv] it has written no file. *)
Theorem parse_pdfs_stores_what_it_returns `{U : UnicodeData} `{Sort : Argsort}
    (w : world) (transaction_type : option (option TransactionType))
    (output_csv : option (option str)) (σ σ' : parser) (df : DataFrame) :
  parse_pdfs w transaction_type output_csv σ = (inr df, σ') →
  source_folder σ' = source_folder σ
  ∧ transactions σ' = df
  ∧ written σ'
    = written σ
      ++ match default None output_csv with
         | Some path => [(resolve w path, df)]
         | None => []
         end
  ∧ ∃ entries,
      logger σ'
      = logger σ ++ entries
        ++ [Log INFO (lit "Total transactions parsed: "
                      ++ str_of_nat (length df))]
        ++ match default None output_csv with
           | Some path =>
               [Log INFO (lit "Saved transactions to " ++ resolve w path)]
           | None => []
           end.
Proof.
  unfold parse_pdfs. rewrite parse_pdfs_body_cases.
  destruct (listdir w (source_folder σ)) as [e|names]; [done|].
  destruct (batch _ _ _ names) as [[e|dfs] l]; [done|].
  intros [= <- <-]. unfold finished, add_log, total_info.
  destruct (default None output_csv) as [path|]; cbn.
  - repeat split; try done. exists l. by rewrite <-!(assoc_L (++)).
  - rewrite !(right_id_L [] (++)). repeat split; try done.
    exists l. by rewrite <-?(assoc_L (++)).
Qed.

Lemma parse_pdfs_stores_what_it_returns_witness :
  source_folder
    (parse_pdfs (U:=ascii_unicode) (Sort:=numpy_argsort) two_days
       None (Some (Some (lit "out/transactions.csv")))
       (new_parser (lit "/data"))).2
  = lit "/data"
  ∧ transactions
      (parse_pdfs (U:=ascii_unicode) (Sort:=numpy_argsort) two_days
         None (Some (Some (lit "out/transactions.csv")))
         (new_parser (lit "/data"))).2
    = [sample_row; row_booked 5 (lit "8M3D2V8O3LSW")]
  ∧ written
      (parse_pdfs (U:=ascii_unicode) (Sort:=numpy_argsort) two_days
         None (Some (Some (lit "out/transactions.csv")))
         (new_parser (lit "/data"))).2
    = [] ++ [(lit "out/transactions.csv",
              [sample_row; row_booked 5 (lit "8M3D2V8O3LSW")])]
  ∧ ∃ entries,
      logger
        (parse_pdfs (U:=ascii_unicode) (Sort:=numpy_argsort) two_days
           None (Some (Some (lit "out/transactions.csv")))
           (new_parser (lit "/data"))).2
      = [] ++ entries
        ++ [Log INFO (lit "Total transactions parsed: " ++ str_of_nat 2)]
        ++ [Log INFO (lit "Saved transactions to "
                      ++ lit "out/transactions.csv")].
Proof.
  apply (parse_pdfs_stores_what_it_returns (U:=ascii_unicode)
           (Sort:=numpy_argsort) two_days None
           (Some (Some (lit "out/transactions.csv")))
           (new_parser (lit "/data"))).
  by vm_compute.
Defined.

Section more_calls.
Context `{U : UnicodeData} `{Sort : Argsort}.

Lemma batch_same_documents (w w' : world) folder tt names :
  (∀ f, f ∈ names → is_pdf_name f = true →
        PdfReader w' (path_join folder f) = PdfReader w (path_join folder f)) →
  batch w' folder tt names = batch w folder tt names.
Proof.
  induction names as [|f names IH]; intros Hr; [done|].
  cbn [batch]. rewrite IH by (intros g Hg; apply Hr; by right).
  destruct (is_pdf_name f) eqn:Hf; [|done].
  by rewrite (Hr f) by (done || left).
Qed.

Lemma finished_resolve (w w' : world) dfs l out σ :
  (∀ path, resolve w' path = resolve w path) →
  finished w' dfs l out σ = finished w dfs l out σ.
Proof. intros Hr. unfold finished. destruct out; by rewrite ?Hr. Qed.

Lemma page_rows_all text :
  page_rows None text
  = page_rows (Some DIRECT_DEBIT) text ++ page_rows (Some TRANSFER) text.
Proof.
  unfold page_rows.
  change (pattern_items None)
    with [(DIRECT_DEBIT, Patterns.direct_debit); (TRANSFER, Patterns.transfer)].
  change (pattern_items (Some DIRECT_DEBIT))
    with [(DIRECT_DEBIT, Patterns.direct_debit)].
  change (pattern_items (Some TRANSFER)) with [(TRANSFER, Patterns.transfer)].
  rewrite !bind_cons. cbn [mbind list_bind]. by rewrite !(right_id_L [] (++)).
Qed.

Lemma page_rows_card text : page_rows (Some CARD_TRANSACTION) text = [].
Proof. done. Qed.

Lemma kept_all_empty (dfs : list DataFrame) :
  Forall (λ df, df = []) dfs → kept dfs = [].
Proof.
  intros Hdfs. unfold kept.
  induction Hdfs as [|d dfs -> _ IH]; [done|].
  rewrite filter_cons, decide_False; [apply IH|]. by vm_compute.
Qed.

Lemma doc_rows_one tt page :
  doc_rows tt [page]
  = if has_text page then page_rows tt (text_of page) else [].
Proof. unfold doc_rows. apply (right_id_L [] (++)). Qed.

Lemma doc_rows_card pages : doc_rows (Some CARD_TRANSACTION) pages = [].
Proof.
  induction pages as [|page pages IH]; [done|].
  rewrite (doc_rows_app _ [page] pages), IH, (right_id_L [] (++)).
  rewrite doc_rows_one, page_rows_card. by destruct (has_text page).
Qed.

Lemma doc_rows_all pages :
  doc_rows None pages
  ≡ₚ doc_rows (Some DIRECT_DEBIT) pages ++ doc_rows (Some TRANSFER) pages.
Proof.
  induction pages as [|page pages IH]; [done|].
  rewrite !(doc_rows_app _ [page] pages). rewrite IH.
  assert (doc_rows None [page]
          = doc_rows (Some DIRECT_DEBIT) [page]
            ++ doc_rows (Some TRANSFER) [page]) as ->.
  { rewrite !doc_rows_one.
    destruct (has_text page); [apply page_rows_all|done]. }
  rewrite <-!(assoc_L (++)). apply Permutation_app_head.
  rewrite !(assoc_L (++)). apply Permutation_app_tail, Permutation_app_comm.
Qed.
End more_calls.

(** X3.  The entries of the folder whose names do not end in [.pdf]
    (in any case of the letters) have no part in a run: two folders
    that list the same PDF names in the same order, with the same
    documents behind them, give the same result, the same log and the
    same files, whatever else they hold. *)
Theorem parse_pdfs_ignores_other_files `{U : UnicodeData} `{Sort : Argsort}
    (w w' : world) (transaction_type : option (option TransactionType))
    (output_csv : option (option str)) (σ : parser) (names names' : list str) :
  listdir w (source_folder σ) = inr names →
  listdir w' (source_folder σ) = inr names' →
  filter (λ f, is_pdf_name f = true) names'
  = filter (λ f, is_pdf_name f = true) names →
  (∀ f, f ∈ names → is_pdf_name f = true →
        PdfReader w' (path_join (source_folder σ) f)
        = PdfReader w (path_join (source_folder σ) f)) →
  (∀ path, resolve w' path = resolve w path) →
  parse_pdfs w' transaction_type output_csv σ
  = parse_pdfs w transaction_type output_csv σ.
Proof.
  intros Hls Hls' Hnames Hread Hres. unfold parse_pdfs.
  rewrite !parse_pdfs_body_cases, Hls, Hls'.
  rewrite <-(batch_filter w' _ _ names'), Hnames.
  rewrite (batch_same_documents w w').
  - rewrite batch_filter.
    destruct (batch w _ _ names) as [[e|dfs] l]; [done|].
    by rewrite (finished_resolve w w') by done.
  - intros f [_ Hin]%list_elem_of_filter Hf. by apply Hread.
Qed.

Lemma parse_pdfs_ignores_other_files_witness :
  parse_pdfs (U:=ascii_unicode) (Sort:=numpy_argsort) two_days_only_pdfs
    None None (new_parser (lit "/data"))
  = parse_pdfs (U:=ascii_unicode) (Sort:=numpy_argsort) two_days
      None None (new_parser (lit "/data")).
Proof.
  apply (parse_pdfs_ignores_other_files (U:=ascii_unicode)
           (Sort:=numpy_argsort) two_days two_days_only_pdfs None None
           (new_parser (lit "/data"))
           [lit "a.pdf"; lit "notes.txt"; lit "b.pdf"]
           [lit "a.pdf"; lit "b.pdf"]).
  - reflexivity.
  - reflexivity.
  - by vm_compute.
  - intros f Hin Hf.
    apply elem_of_cons in Hin as [->|Hin]; [by vm_compute|].
    apply elem_of_cons in Hin as [->|Hin]; [by vm_compute in Hf|].
    apply elem_of_cons in Hin as [->|Hin]; [by vm_compute|].
    by apply elem_of_nil in Hin.
  - reflexivity.
Defined.

(** X4.  A run replaces what an earlier run stored; it does not add to
    it.  When [parse_pdfs] has returned a frame, a second call on the
    same parser over the same folder returns that frame again and
    stores it again, whether or not it is asked to save it. *)
Theorem parse_pdfs_again `{U : UnicodeData} `{Sort : Argsort}
    (w : world) (transaction_type : option (option TransactionType))
    (output_csv output_csv' : option (option str)) (σ σ' : parser)
    (df : DataFrame) :
  parse_pdfs w transaction_type output_csv σ = (inr df, σ') →
  (parse_pdfs w transaction_type output_csv' σ').1 = inr df
  ∧ transactions (parse_pdfs w transaction_type output_csv' σ').2 = df.
Proof.
  unfold parse_pdfs. rewrite !parse_pdfs_body_cases.
  destruct (listdir w (source_folder σ)) as [e|names] eqn:Hls; [done|].
  destruct (batch w (source_folder σ) _ names) as [[e|dfs] l] eqn:Hb; [done|].
  intros [= <- <-].
  assert (source_folder (finished w dfs l (default None output_csv) σ)
          = source_folder σ) as ->
    by (unfold finished; by destruct (default None output_csv)).
  rewrite Hls, Hb. split; [done|].
  unfold finished. by destruct (default None output_csv').
Qed.

Lemma parse_pdfs_again_witness :
  (parse_pdfs (U:=ascii_unicode) (Sort:=numpy_argsort) two_days None
     (Some (Some (lit "transactions.csv")))
     (parse_pdfs (U:=ascii_unicode) (Sort:=numpy_argsort) two_days
        None None (new_parser (lit "/data"))).2).1
  = inr [sample_row; row_booked 5 (lit "8M3D2V8O3LSW")]
  ∧ transactions
      (parse_pdfs (U:=ascii_unicode) (Sort:=numpy_argsort) two_days None
         (Some (Some (lit "transactions.csv")))
         (parse_pdfs (U:=ascii_unicode) (Sort:=numpy_argsort) two_days
            None None (new_parser (lit "/data"))).2).2
    = [sample_row; row_booked 5 (lit "8M3D2V8O3LSW")].
Proof.
  apply (parse_pdfs_again (U:=ascii_unicode) (Sort:=numpy_argsort)
           two_days None None (Some (Some (lit "transactions.csv")))
           (new_parser (lit "/data"))).
  by vm_compute.
Defined.

(** X5.  A folder without an entry that ends in [.pdf], an empty folder
    included, is no error: [parse_pdfs] opens nothing, returns and
    stores the empty frame, logs a total of 0 and, when [output_csv] is
    given, still writes the (empty) frame. *)
Theorem parse_pdfs_without_documents `{U : UnicodeData} `{Sort : Argsort}
    (w : world) (transaction_type : option (option TransactionType))
    (output_csv : option (option str)) (σ : parser) (names : list str) :
  listdir w (source_folder σ) = inr names →
  Forall (λ f, is_pdf_name f = false) names →
  parse_pdfs w transaction_type output_csv σ
  = (inr [],
     Parser (source_folder σ) []
       (logger σ ++ [Log INFO (lit "Total transactions parsed: 0")]
        ++ match default None output_csv with
           | Some path =>
               [Log INFO (lit "Saved transactions to " ++ resolve w path)]
           | None => []
           end)
       (written σ
        ++ match default None output_csv with
           | Some path => [(resolve w path, [])]
           | None => []
           end)).
Proof.
  intros Hls Hnames. unfold parse_pdfs.
  rewrite parse_pdfs_body_cases, Hls, batch_no_pdf by done.
  unfold finished, add_log, total_info, combined. cbn.
  destruct (default None output_csv); cbn;
    by rewrite <-?(assoc_L (++)), ?(right_id_L [] (++)).
Qed.

Lemma parse_pdfs_without_documents_witness :
  parse_pdfs (U:=ascii_unicode) (Sort:=numpy_argsort) no_documents
    None (Some (Some (lit "transactions.csv"))) (new_parser (lit "/data"))
  = (inr [],
     Parser (lit "/data") []
       ([] ++ [Log INFO (lit "Total transactions parsed: 0")]
        ++ [Log INFO (lit "Saved transactions to " ++ lit "transactions.csv")])
       ([] ++ [(lit "transactions.csv", [])])).
Proof.
  apply (parse_pdfs_without_documents (U:=ascii_unicode)
           (Sort:=numpy_argsort) no_documents None
           (Some (Some (lit "transactions.csv"))) (new_parser (lit "/data"))
           [lit "notes.txt"]).
  - reflexivity.
  - by repeat constructor.
Defined.



(** X7.  No pattern is registered for [TransactionType.CARD_TRANSACTION]:
    asked for card transactions, [parse_pdf] returns the empty frame for
    every document it can open, whatever its pages hold, and logs
    "Parsed 0 transactions"; a run of [parse_pdfs] that returns, returns
    the empty frame. *)
Theorem card_transactions_are_never_extracted `{U : UnicodeData}
    `{Sort : Argsort} (w : world) (output_csv : option (option str))
    (σ : parser) :
  (∀ pdf_path pages,
     PdfReader w pdf_path = inr pages →
     ∃ σ',
       parse_pdf w pdf_path (Some (Some CARD_TRANSACTION)) σ = (inr [], σ')
       ∧ last (logger σ')
         = Some (Log INFO (lit "Parsed 0 transactions from "
                           ++ basename pdf_path)))
  ∧ (∀ df,
       (parse_pdfs w (Some (Some CARD_TRANSACTION)) output_csv σ).1 = inr df →
       df = []).
Proof.
  split.
  - intros pdf_path pages Hread. unfold parse_pdf.
    erewrite parse_pdf_body_eq by done. cbn [default].
    rewrite doc_rows_card. eexists. split; [done|].
    unfold add_log, parsed_info. cbn [logger length].
    by rewrite !(assoc_L (++) (logger σ)), last_snoc.
  - intros df (names & dfs & l & _ & Hb & ->)%parse_pdfs_returns.
    cbn [default] in Hb.
    assert (Forall (λ df, df = []) dfs) as Hdfs.
    { clear -Hb. revert dfs l Hb.
      induction names as [|f names IH]; intros dfs l.
      { intros [= <- _]. constructor. }
      cbn [batch]. destruct (is_pdf_name f); [|by apply IH].
      destruct (PdfReader w _) as [e|pages]; [done|].
      destruct (batch w _ _ names) as [[e|dfs'] l'] eqn:Hb'; [done|].
      intros [= <- _]. constructor; [apply doc_rows_card|by eapply IH]. }
    unfold combined. rewrite (kept_all_empty dfs Hdfs). by rewrite bool_decide_eq_false_2 by (by intros ?).
Qed.

Lemma card_transactions_are_never_extracted_witness :
  ∃ σ',
    parse_pdf (U:=ascii_unicode) three_pages (lit "/data/a.pdf")
      (Some (Some CARD_TRANSACTION)) (new_parser (lit "/data"))
    = (inr [], σ')
    ∧ last (logger σ')
      = Some (Log INFO (lit "Parsed 0 transactions from "
                        ++ basename (lit "/data/a.pdf"))).
Proof.
  apply (proj1 (card_transactions_are_never_extracted (U:=ascii_unicode)
                  (Sort:=numpy_argsort) three_pages None
                  (new_parser (lit "/data")))
           (lit "/data/a.pdf")
           [Some (statement_block (lit "31.02.2024") (lit "04.12.2024")
                    (lit "7L2C1U7N2KRV"));
            None;
            Some SAMPLE_TEXT]).
  reflexivity.
Defined.

(** X8.  With [transaction_type=None] a document gives the rows of its
    DirectDebit blocks and the rows of its Transfer blocks and no
    others.  Within a page the DirectDebit rows come first, then the
    Transfer rows, wherever the blocks stand in the text; so on a
    document of one page the frame is the DirectDebit frame followed by
    the Transfer frame. *)
Theorem all_types_are_direct_debit_and_transfer `{U : UnicodeData}
    (w : world) (pdf_path : str) (pages : list (option str)) (σ : parser) :
  PdfReader w pdf_path = inr pages →
  ∃ df dd tr,
    (parse_pdf w pdf_path (Some None) σ).1 = inr df
    ∧ (parse_pdf w pdf_path (Some (Some DIRECT_DEBIT)) σ).1 = inr dd
    ∧ (parse_pdf w pdf_path (Some (Some TRANSFER)) σ).1 = inr tr
    ∧ df ≡ₚ dd ++ tr
    ∧ ((length pages ≤ 1)%nat → df = dd ++ tr).
Proof.
  intros Hread. unfold parse_pdf. cbn [default].
  exists (doc_rows None pages), (doc_rows (Some DIRECT_DEBIT) pages),
    (doc_rows (Some TRANSFER) pages).
  rewrite !(parse_pdf_body_eq w pdf_path _ pages) by done.
  repeat split; [apply doc_rows_all|].
  destruct pages as [|page [|??]]; [done| |cbn; lia]. intros _.
  rewrite !doc_rows_one.
  destruct (has_text page); [apply page_rows_all|done].
Qed.

Lemma all_types_are_direct_debit_and_transfer_witness :
  ∃ df dd tr,
    (parse_pdf (U:=ascii_unicode) mixed_page (lit "/data/a.pdf") (Some None)
       (new_parser (lit "/data"))).1 = inr df
    ∧ (parse_pdf (U:=ascii_unicode) mixed_page (lit "/data/a.pdf")
         (Some (Some DIRECT_DEBIT)) (new_parser (lit "/data"))).1 = inr dd
    ∧ (parse_pdf (U:=ascii_unicode) mixed_page (lit "/data/a.pdf")
         (Some (Some TRANSFER)) (new_parser (lit "/data"))).1 = inr tr
    ∧ df ≡ₚ dd ++ tr
    ∧ ((length [Some (transfer_block ++ SAMPLE_TEXT)] ≤ 1)%nat
       → df = dd ++ tr).
Proof.
  apply (all_types_are_direct_debit_and_transfer (U:=ascii_unicode)
           mixed_page (lit "/data/a.pdf")
           [Some (transfer_block ++ SAMPLE_TEXT)] (new_parser (lit "/data"))).
  reflexivity.
Defined.

(** The page of [mixed_page] holds the Transfer first; the frame holds
    it last. *)
Example transfer_after_direct_debit :
  (parse_pdf (U:=ascii_unicode) mixed_page (lit "/data/a.pdf") (Some None)
     (new_parser (lit "/data"))).1
  = inr [sample_row; transfer_row].
Proof. by vm_compute. Qed.

(** *** What the groups of a match hold *)

Section captures.
Context `{U : UnicodeData}.

Lemma run_groupless_reach r st st' :
  groupless r = true → st' ∈ run r st →
  ∃ u, rest st = u ++ rest st' ∧ matches r u ∧ caps st' = caps st.
Proof.
  intros Hr Hin. pose proof (run_groupless r Hr st st' Hin) as Hcaps.
  apply run_sound in Hin as (u & Hu & Hm & _). by exists u.
Qed.

Lemma match_here_run p ma s st :
  match_here p ma s = Some st →
  st ∈ run (pat_re p) (MState s (replicate (pat_groups p) None)).
Proof.
  unfold match_here. intros Hhd.
  by apply head_Some_elem_of, list_elem_of_filter in Hhd as [_ Hin].
Qed.

(** Every match [findall] reports is the best match at some position of
    the text. *)
Lemma scan_states p s : ∀ skip m,
  m ∈ scan p s skip →
  ∃ pre s' ma st,
    s = pre ++ s' ∧ match_here p ma s' = Some st ∧ m = groups st.
Proof.
  assert (∀ ma s st, match_here p ma s = Some st →
            ∃ pre s' ma st', s = pre ++ s' ∧ match_here p ma s' = Some st'
                             ∧ groups st = groups st') as Hhere.
  { intros ma s0 st Hst. by exists [], s0, ma, st. }
  assert (∀ c t m,
            (∃ pre s' ma st,
               t = pre ++ s' ∧ match_here p ma s' = Some st ∧ m = groups st) →
            ∃ pre s' ma st,
              c :: t = pre ++ s' ∧ match_here p ma s' = Some st
              ∧ m = groups st) as Hstep.
  { intros c t m (pre & s' & ma & st & -> & Hst & ->).
    by exists (c :: pre), s', ma, st. }
  induction s as [|c t IH]; intros skip m; destruct skip as [|k]; simpl.
  - destruct (match_here p false []) as [st|] eqn:Hst; [|by intros ?%elem_of_nil].
    destruct (match_here p true []) as [st'|] eqn:Hst'.
    + rewrite !elem_of_cons, elem_of_nil.
      intros [->|[->|[]]]; [by exists [], [], false, st|by exists [], [], true, st'].
    + rewrite !elem_of_cons, elem_of_nil.
      intros [->|[]]. by exists [], [], false, st.
  - by intros ?%elem_of_nil.
  - destruct (match_here p false (c :: t)) as [st|] eqn:Hst;
      [|intros Hm; by apply Hstep, (IH 0%nat)].
    destruct (length t - length (rest st))%nat eqn:Hn.
    + destruct (S (length t) - length (rest st))%nat eqn:Hn'.
      * destruct (match_here p true (c :: t)) as [st'|] eqn:Hst'.
        -- rewrite !elem_of_cons.
           intros [->|[->|Hm]];
             [by exists [], (c :: t), false, st
             |by exists [], (c :: t), true, st'
             |by eapply Hstep, IH].
        -- rewrite !elem_of_cons.
           intros [->|Hm];
             [by exists [], (c :: t), false, st|by eapply Hstep, IH].
      * rewrite !elem_of_cons.
        intros [->|Hm];
          [by exists [], (c :: t), false, st|by eapply Hstep, IH].
    + destruct (S (length t) - length (rest st))%nat eqn:Hn'; [lia|].
      rewrite !elem_of_cons.
      intros [->|Hm];
        [by exists [], (c :: t), false, st|by eapply Hstep, IH].
  - intros Hm. by eapply Hstep, IH.
Qed.

Lemma findall_states p s m :
  m ∈ findall p s →
  ∃ pre s' st,
    s = pre ++ s'
    ∧ st ∈ run (pat_re p) (MState s' (replicate (pat_groups p) None))
    ∧ m = groups st.
Proof.
  intros (pre & s' & ma & st & -> & Hst & ->)%scan_states.
  exists pre, s', st. eauto using match_here_run.
Qed.

(** The runs of the two registered patterns. *)
Lemma direct_debit_run s st' :
  st' ∈ run (pat_re Patterns.direct_debit) (MState s (replicate 6 None)) →
  ∃ b x1 v x2 t x3 c d a,
    s = b ++ x1 ++ v ++ x2 ++ t ++ x3 ++ c ++ d ++ a ++ rest st'
    ∧ caps st' = [Some b; Some v; Some t; Some c; Some d; Some a]
    ∧ matches Patterns.date_re b ∧ matches Patterns.date_re v
    ∧ matches (plus true (Chr Patterns.upper_or_digit)) t
    ∧ matches Patterns.codes c
    ∧ matches (Seq (Chr Patterns.letter) (Star false (Chr Patterns.anything))) d
    ∧ matches Patterns.amount a.
Proof.
  unfold Patterns.direct_debit. cbn [pat_re replicate]. intros H.
  apply elem_run_Seq in H as (s10 & H & H6).
  apply elem_run_Seq in H as (s9 & H & H5).
  apply elem_run_Seq in H as (s8 & H & H4).
  apply elem_run_Seq in H as (s7 & H & Hn4).
  apply elem_run_Seq in H as (s6 & H & H3).
  apply elem_run_Seq in H as (s5 & H & Hn3).
  apply elem_run_Seq in H as (s4 & H & Hw2).
  apply elem_run_Seq in H as (s3 & H & Hn2).
  apply elem_run_Seq in H as (s2 & H & Hw1).
  apply elem_run_Seq in H as (s1 & H & H2).
  apply elem_run_Seq in H as (s0 & H1 & Hn1).
  apply elem_run_Group_groupless in H1 as (b & Eb & Mb & Cb); [|done].
  apply run_groupless_reach in Hn1 as (n1 & En1 & _ & Cn1); [|done].
  apply elem_run_Group_groupless in H2 as (v & Ev & Mv & Cv); [|done].
  apply run_groupless_reach in Hw1 as (w1 & Ew1 & _ & Cw1); [|done].
  apply run_groupless_reach in Hn2 as (n2 & En2 & _ & Cn2); [|done].
  apply run_groupless_reach in Hw2 as (w2 & Ew2 & _ & Cw2); [|done].
  apply run_groupless_reach in Hn3 as (n3 & En3 & _ & Cn3); [|done].
  apply elem_run_Group_groupless in H3 as (t & Et & Mt & Ct); [|done].
  apply run_groupless_reach in Hn4 as (n4 & En4 & _ & Cn4); [|done].
  apply elem_run_Group_groupless in H4 as (c & Ec & Mc & Cc); [|done].
  apply elem_run_Group_groupless in H5 as (d & Ed & Md & Cd); [|done].
  apply elem_run_Group_groupless in H6 as (a & Ea & Ma & Ca); [|done].
  exists b, n1, v, (w1 ++ n2 ++ w2 ++ n3), t, n4, c, d, a.
  split.
  { cbn [rest] in Eb.
    rewrite Eb, En1, Ev, Ew1, En2, Ew2, En3, Et, En4, Ec, Ed, Ea.
    by rewrite <-!(assoc_L (++)). }
  split; [|done].
  rewrite Ca, Cd, Cc, Cn4, Ct, Cn3, Cw2, Cn2, Cw1, Cv, Cn1, Cb. reflexivity.
Qed.

Lemma transfer_run s st' :
  st' ∈ run (pat_re Patterns.transfer) (MState s (replicate 6 None)) →
  ∃ b x1 v x2 t x3 c d x4 a,
    s = b ++ x1 ++ v ++ x2 ++ t ++ x3 ++ c ++ d ++ x4 ++ a ++ rest st'
    ∧ caps st' = [Some b; Some v; Some t; Some c; Some d; Some a]
    ∧ matches Patterns.date_re b ∧ matches Patterns.date_re v
    ∧ matches (plus true (Chr Patterns.upper_or_digit)) t
    ∧ matches Patterns.codes c
    ∧ matches Patterns.amount a.
Proof.
  unfold Patterns.transfer. cbn [pat_re replicate]. intros H.
  apply elem_run_Seq in H as (s18 & H & H6).
  apply elem_run_Seq in H as (s17 & H & Hd11).
  apply elem_run_Seq in H as (s16 & H & Hzzz).
  apply elem_run_Seq in H as (s15 & H & Hd2).
  apply elem_run_Seq in H as (s14 & H & Hde).
  apply elem_run_Seq in H as (s13 & H & Hn6).
  apply elem_run_Seq in H as (s12 & H & Hgl).
  apply elem_run_Seq in H as (s11 & H & Hn5).
  apply elem_run_Seq in H as (s10 & H & H5).
  apply elem_run_Seq in H as (s9 & H & H4).
  apply elem_run_Seq in H as (s8 & H & Hn4).
  apply elem_run_Seq in H as (s7 & H & H3).
  apply elem_run_Seq in H as (s6 & H & Hn3).
  apply elem_run_Seq in H as (s5 & H & Hw2).
  apply elem_run_Seq in H as (s4 & H & Hn2).
  apply elem_run_Seq in H as (s3 & H & Hw1).
  apply elem_run_Seq in H as (s2 & H & H2).
  apply elem_run_Seq in H as (s1 & H1 & Hn1).
  apply elem_run_Group_groupless in H1 as (b & Eb & Mb & Cb); [|done].
  apply run_groupless_reach in Hn1 as (n1 & En1 & _ & Cn1); [|done].
  apply elem_run_Group_groupless in H2 as (v & Ev & Mv & Cv); [|done].
  apply run_groupless_reach in Hw1 as (w1 & Ew1 & _ & Cw1); [|done].
  apply run_groupless_reach in Hn2 as (n2 & En2 & _ & Cn2); [|done].
  apply run_groupless_reach in Hw2 as (w2 & Ew2 & _ & Cw2); [|done].
  apply run_groupless_reach in Hn3 as (n3 & En3 & _ & Cn3); [|done].
  apply elem_run_Group_groupless in H3 as (t & Et & Mt & Ct); [|done].
  apply run_groupless_reach in Hn4 as (n4 & En4 & _ & Cn4); [|done].
  apply elem_run_Group_groupless in H4 as (c & Ec & Mc & Cc); [|done].
  apply elem_run_Group_groupless in H5 as (d & Ed & Md & Cd); [|done].
  apply run_groupless_reach in Hn5 as (n5 & En5 & _ & Cn5); [|done].
  apply run_groupless_reach in Hgl as (gl & Egl & _ & Cgl); [|done].
  apply run_groupless_reach in Hn6 as (n6 & En6 & _ & Cn6); [|done].
  apply run_groupless_reach in Hde as (de & Ede & _ & Cde); [|done].
  apply run_groupless_reach in Hd2 as (d2 & Ed2 & _ & Cd2); [|done].
  apply run_groupless_reach in Hzzz as (zzz & Ezzz & _ & Czzz); [|done].
  apply run_groupless_reach in Hd11 as (d11 & Ed11 & _ & Cd11); [|done].
  apply elem_run_Group_groupless in H6 as (a & Ea & Ma & Ca); [|done].
  exists b, n1, v, (w1 ++ n2 ++ w2 ++ n3), t, n4, c, d,
    (n5 ++ gl ++ n6 ++ de ++ d2 ++ zzz ++ d11), a.
  split.
  { cbn [rest] in Eb.
    rewrite Eb, En1, Ev, Ew1, En2, Ew2, En3, Et, En4, Ec, Ed,
      En5, Egl, En6, Ede, Ed2, Ezzz, Ed11, Ea.
    by rewrite <-!(assoc_L (++)). }
  split; [|done].
  rewrite Ca, Cd11, Czzz, Cd2, Cde, Cn6, Cgl, Cn5, Cd, Cc, Cn4, Ct, Cn3,
    Cw2, Cn2, Cw1, Cv, Cn1, Cb.
  reflexivity.
Qed.
End captures.

Section fields.
Context `{U : UnicodeData}.









(** The matches of a page, read through the runs of the patterns. *)
Lemma page_match_shape tt text item m :
  item ∈ pattern_items tt → m ∈ findall item.2 text →
  ∃ pre b x1 v x2 t x3 c d x4 a post,
    text = pre ++ b ++ x1 ++ v ++ x2 ++ t ++ x3 ++ c ++ d ++ x4 ++ a ++ post
    ∧ m = [b; v; t; c; d; a]
    ∧ matches Patterns.date_re b ∧ matches Patterns.date_re v
    ∧ matches (plus true (Chr Patterns.upper_or_digit)) t
    ∧ matches Patterns.codes c
    ∧ matches Patterns.amount a
    ∧ (item.1 = DIRECT_DEBIT →
       x4 = []
       ∧ matches (Seq (Chr Patterns.letter)
                    (Star false (Chr Patterns.anything))) d).
Proof.
  intros Hitem (pre & s' & st & -> & Hst & ->)%findall_states.
  assert (item = (DIRECT_DEBIT, Patterns.direct_debit)
          ∨ item = (TRANSFER, Patterns.transfer)) as [->| ->].
  { destruct tt as [[| |]|]; cbn in Hitem;
      repeat (apply elem_of_cons in Hitem as [->|Hitem]; [by auto|]);
      by apply elem_of_nil in Hitem. }
  - apply direct_debit_run in Hst
      as (b & x1 & v & x2 & t & x3 & c & d & a & -> & Hcaps & ?&?&?&?&?&?).
    exists pre, b, x1, v, x2, t, x3, c, d, [], a, (rest st).
    unfold groups. rewrite Hcaps. by repeat split.
  - apply transfer_run in Hst
      as (b & x1 & v & x2 & t & x3 & c & d & x4 & a & -> & Hcaps & ?&?&?&?&?).
    exists pre, b, x1, v, x2, t, x3, c, d, x4, a, (rest st).
    unfold groups. rewrite Hcaps. by repeat split.
Qed.

Lemma elem_of_page_rows tt text r :
  r ∈ page_rows tt text →
  ∃ item m, item ∈ pattern_items tt ∧ m ∈ findall item.2 text
            ∧ record_of_match m = inr r.
Proof.
  unfold page_rows.
  intros (item & (m & Hr & Hm)%list_elem_of_bind & Hitem)%list_elem_of_bind.
  exists item, m. repeat split; [done..|].
  destruct (record_of_match m) as [e|r'];
    [by apply elem_of_nil in Hr|by apply list_elem_of_singleton in Hr as ->].
Qed.

Lemma elem_of_doc_rows tt pages r :
  r ∈ doc_rows tt pages →
  ∃ text, Some text ∈ pages ∧ text ≠ [] ∧ r ∈ page_rows tt text.
Proof.
  unfold doc_rows. intros (page & Hr & Hpage)%list_elem_of_bind.
  destruct page as [[|c text]|]; cbn [has_text text_of default] in Hr;
    [by apply elem_of_nil in Hr| |by apply elem_of_nil in Hr].
  by exists (c :: text).
Qed.

Lemma parse_pdf_returns (w : world) pdf_path tt σ df :
  (parse_pdf w pdf_path tt σ).1 = inr df →
  ∃ pages, PdfReader w pdf_path = inr pages
           ∧ df = doc_rows (default (Some DIRECT_DEBIT) tt) pages.
Proof.
  unfold parse_pdf.
  destruct (PdfReader w pdf_path) as [e|pages] eqn:Hread.
  - by erewrite parse_pdf_body_raises.
  - erewrite parse_pdf_body_eq by done. intros [= <-]. by exists pages.
Qed.
End fields.



(** X10.  The extractor copies: the transaction id and the code of a
    row stand in the text of one page of the document, the id before
    the code, and the description is what directly follows the code
    there, stripped of the whitespace around it. *)
Theorem extracted_fields_come_from_the_page `{U : UnicodeData}
    (w : world) (pdf_path : str)
    (transaction_type : option (option TransactionType)) (σ : parser)
    (df : DataFrame) (r : TransactionRecord) :
  (parse_pdf w pdf_path transaction_type σ).1 = inr df →
  r ∈ df →
  ∃ pages text pre mid desc post,
    PdfReader w pdf_path = inr pages
    ∧ Some text ∈ pages
    ∧ text = pre ++ transaction_id r ++ mid ++ code r ++ desc ++ post
    ∧ description r = strip desc.
Proof.
  intros (pages & Hread & ->)%parse_pdf_returns
    (text & Hpage & _ & Hr)%elem_of_doc_rows.
  apply elem_of_page_rows in Hr as (item & m & Hitem & Hm & Hrec).
  destruct (page_match_shape _ _ _ _ Hitem Hm)
    as (pre & b & x1 & v & x2 & t & x3 & c & d & x4 & a & post
        & -> & -> & _).
  destruct (record_of_match_six [b; v; t; c; d; a] eq_refl)
    as (b' & v' & t' & c' & d' & a' & [= <- <- <- <- <- <-] & Hrow).
  rewrite Hrow in Hrec. injection Hrec as <-. cbn.
  exists pages, (pre ++ b ++ x1 ++ v ++ x2 ++ t ++ x3 ++ c ++ d ++ x4 ++ a ++ post),
    (pre ++ b ++ x1 ++ v ++ x2), x3, d, (x4 ++ a ++ post).
  repeat split; [done..|]. by rewrite <-!(assoc_L (++)).
Qed.

Lemma extracted_fields_come_from_the_page_witness :
  ∃ pages text pre mid desc post,
    PdfReader three_pages (lit "/data/a.pdf") = inr pages
    ∧ Some text ∈ pages
    ∧ text = pre ++ transaction_id sample_row ++ mid ++ code sample_row
             ++ desc ++ post
    ∧ description sample_row = strip desc.
Proof.
  apply (extracted_fields_come_from_the_page (U:=ascii_unicode)
           three_pages (lit "/data/a.pdf") None
           (new_parser (lit "/data")) [undated_row; sample_row]).
  - by vm_compute.
  - right. left.
Defined.

(** *** The test of the pattern *)

Section pattern_test.
Context `{U : UnicodeData}.

Lemma amount_has_comma a : matches Patterns.amount a → 44 ∈ a.
Proof.
  unfold Patterns.amount.
  intros (u & v & -> & Hu & _)%matches_Seq_inv.
  apply matches_Seq_inv in Hu as (u1 & u2 & -> & _ & ->%matches_chr_inv).
  rewrite !elem_of_app. left. right. left.
Qed.

Lemma search_run p : ∀ s m,
  search p s = Some m →
  ∃ pre s', s = pre ++ s'
            ∧ m ∈ run (pat_re p) (MState s' (replicate (pat_groups p) None)).
Proof.
  induction s as [|c t IH]; intros m; cbn [search].
  - destruct (match_here p false []) as [st|] eqn:Hst; [|done].
    intros [= <-]. exists [], []. eauto using match_here_run.
  - destruct (match_here p false (c :: t)) as [st|] eqn:Hst.
    + intros [= <-]. exists [], (c :: t). eauto using match_here_run.
    + intros (pre & s' & -> & Hm)%IH. by exists (c :: pre), s'.
Qed.

Lemma search_groups text m :
  search TRANSACTION_PATTERN_TEST text = Some m →
  ∃ b v t c d a,
    match_groups m = [Some b; Some v; Some t; Some c; Some d; Some a]
    ∧ matches Patterns.amount a.
Proof.
  intros (pre & s' & -> & Hm)%search_run.
  apply direct_debit_run in Hm
    as (b & x1 & v & x2 & t & x3 & c & d & a & _ & Hcaps & Hrest).
  exists b, v, t, c, d, a. split; [done|]. apply Hrest.
Qed.
End pattern_test.

(** X11.  The test shipped with the pattern cannot pass.  A match of the
    expression has six groups and the sixth is the amount, a text with
    a comma; the test compares it with the creditor id
    "DE92ZZZ00000085710" and looks for the amount in a seventh group.
    So on [SAMPLE_TEXT], and on any text whatever, the method ends with
    a failed assertion, at the latest at the sixth group; the seventh,
    which does not exist, is never reached. *)
Theorem test_transaction_pattern_match_fails `{U : UnicodeData} :
  test_transaction_pattern_match = Failed
  ∧ (∀ text, test_transaction_pattern_match_on text = Failed)
  ∧ (∀ text m,
       search TRANSACTION_PATTERN_TEST text = Some m →
       length (match_groups m) = 6%nat
       ∧ match_groups m !! 6%nat = None
       ∧ ∃ a, match_groups m !! 5%nat = Some (Some a)
              ∧ matches Patterns.amount a
              ∧ a ≠ lit "DE92ZZZ00000085710").
Proof.
  assert (∀ a, matches Patterns.amount a → a ≠ lit "DE92ZZZ00000085710")
    as Hne.
  { intros a Ha%amount_has_comma ->. revert Ha. vm_compute.
    intros H. repeat (apply elem_of_cons in H as [H|H]; [done|]).
    by apply elem_of_nil in H. }
  assert (∀ text, test_transaction_pattern_match_on text = Failed) as Hall.
  { intros text. unfold test_transaction_pattern_match_on.
    destruct (search TRANSACTION_PATTERN_TEST text) as [m|] eqn:Hm; [|done].
    destruct (search_groups text m Hm) as (b & v & t & c & d & a & -> & Ha).
    unfold item, assertEqual, assertStartswith. cbn [lookup list_lookup].
    repeat (case_bool_decide; [|done]; cbn [and_then]).
    destruct (startswith d _); [|done]. cbn [and_then].
    rewrite bool_decide_eq_false_2; [done|].
    intros [= ->]. by eapply Hne. }
  split; [apply Hall|]. split; [exact Hall|].
  intros text m Hm.
  destruct (search_groups text m Hm) as (b & v & t & c & d & a & -> & Ha).
  repeat split. exists a. eauto.
Qed.

(** What the groups of the match on [SAMPLE_TEXT] are. *)
Example sample_text_groups :
  match_groups <$> search (U:=ascii_unicode) TRANSACTION_PATTERN_TEST SAMPLE_TEXT
  = Some [Some (lit "04.12.2024"); Some (lit "04.12.2024");
          Some (lit "7L2C1U7N2KRV"); Some (lit "5LYN/35742");
          Some sample_description; Some (lit "-48,40")].
Proof. by vm_compute. Qed.

(** ** More about the normalizer and the loader *)

Lemma subst_char_drop k s : subst_char k [] s = filter (λ c, c ≠ k) s.
Proof.
  induction s as [|c s IH]; [done|]. rewrite filter_cons.
  destruct (N.eqb_spec c k) as [->|Hc].
  - rewrite subst_char_cons_same, decide_False by (by intros ?). exact IH.
  - rewrite subst_char_cons_other, decide_True by done. by rewrite IH.
Qed.

(** X12.  [parse_amount] drops every point before it reads the number,
    wherever the point stands: the amount of a text is the amount of
    the text without its points.  The grouping of the thousands is not
    looked at, so "1.2.3,4" is read like "123,4". *)
Theorem parse_amount_ignores_points `{U : UnicodeData} (amount_str : str) :
  parse_amount amount_str = parse_amount (filter (λ c, c ≠ 46) amount_str).
Proof.
  rewrite !parse_amount_inr. change (lit ".") with [46].
  rewrite !(replace_char _ 46 []), !subst_char_drop.
  by rewrite list_filter_filter_l by done.
Qed.

Example parse_amount_misplaced_points :
  parse_amount (U:=ascii_unicode) (lit "1.2.3,4")
  = inr (Some (Finite false 1234 (-1)))
  ∧ parse_amount (U:=ascii_unicode) (lit "123,4")
    = inr (Some (Finite false 1234 (-1)))
  ∧ parse_amount (U:=ascii_unicode) (lit "1,2,3") = inr None.
Proof. by vm_compute. Qed.


(** The rows [groceries.py] and [rent.py] get from [shops]: the keywords
    are compared with the case of their letters, and the row without a
    description is in neither frame. *)
Example analyses_at_shops :
  load (U:=ascii_unicode) shops (lit "transactions.csv")
    (Some groceries_keywords)
  = Some (inr [(None, described (lit "REWE Markt GmbH/Muenchen"));
               (None, described (lit "1234 WIENER FEINBACKEREI"))])
  ∧ load (U:=ascii_unicode) shops (lit "transactions.csv")
      (Some rent_keywords)
    = Some (inr [(None, described (lit "DWS Alternatives GmbH Miete"))]).
Proof. by vm_compute. Qed.

(** *** Keywords with points and bars *)




Section pattern_search.
Context `{U : UnicodeData}.





End pattern_search.



(** The rows the keywords "A.C|y" and "q" keep of [dotted]: the point
    stands for the B and for itself, not for the line feed, and the y
    after the bar is a keyword of its own. *)
Example points_and_bars_at_dotted :
  load (U:=ascii_unicode) dotted (lit "transactions.csv")
    (Some [lit "A.C|y"; lit "q"])
  = Some (inr [(None, described (lit "ABC")); (None, described (lit "A.C"));
               (None, described (lit "xyz"))])
  ∧ alternatives (str_join (lit "|") [lit "A.C|y"; lit "q"])
    = [lit "A.C"; lit "y"; lit "q"].
Proof. by vm_compute. Qed.

(** An empty keyword keeps every row with a description. *)
Example empty_keyword_keeps_all :
  load (U:=ascii_unicode) dotted (lit "transactions.csv") (Some [[]])
  = Some (inr (zip [None; None; None; None] dotted_rows)).
Proof. by vm_compute. Qed.

(** ** The labels of the plots *)

Lemma ascii_case_laws : UnicodeCaseLaws ascii_case.
Proof. by split. Qed.

Lemma c_isalpha_toupper c : c_isalpha (c_toupper c) = c_isalpha c.
Proof.
  unfold c_isalpha, c_toupper.
  destruct (N.leb_spec 97 c), (N.leb_spec c 122); cbn [andb];
    repeat match goal with
    | |- context [(?a <=? ?b)] => destruct (N.leb_spec a b); try lia
    end; done.
Qed.

Lemma c_toupper_ascii c : c < 128 → c_toupper c < 128.
Proof.
  unfold c_toupper.
  destruct (N.leb_spec 97 c), (N.leb_spec c 122); cbn [andb]; lia.
Qed.

Lemma str_dict_get_long key default :
  (length key ≠ 1)%nat → str_dict_get freq_map key default = default.
Proof.
  intros Hlen. unfold freq_map. cbn [str_dict_get].
  repeat (rewrite bool_decide_eq_false_2; [|by intros <-]). done.
Qed.

Section labels.
Context `{C : UnicodeCase} {L : UnicodeCaseLaws C}.

Lemma base_freq_ascii freq :
  Forall (λ c, c < 128) freq →
  filter (λ c, isalpha c = true) (str_upper freq)
  = c_toupper <$> filter (λ c, c_isalpha c = true) freq.
Proof.
  intros Hfreq. rewrite upper_ascii by done.
  induction Hfreq as [|c freq Hc _ IH]; [done|].
  rewrite fmap_cons, !filter_cons, IH.
  rewrite isalpha_ascii by by apply c_toupper_ascii.
  rewrite c_isalpha_toupper.
  by destruct (c_isalpha c).
Qed.
End labels.

(** X15.  For a frequency code written in ASCII, [frequency_label]
    looks only at the letters of the code, without their case.  A code
    with exactly one letter gets what [freq_map] holds for that letter
    in upper case (Daily, Weekly, Monthly, Quarterly, Yearly for D, W,
    M, Q, Y and A), whatever digits, signs or blanks stand around it;
    a code with no letter, with another letter, or with more than one
    letter, such as "W-MON" or "ME", gets "Every " and the code. *)
Theorem frequency_label_reads_one_letter `{C : UnicodeCase}
    {L : UnicodeCaseLaws C} (freq : str) :
  Forall (λ c, c < 128) freq →
  frequency_label freq
  = match filter (λ c, c_isalpha c = true) freq with
    | [c] => str_dict_get freq_map [c_toupper c] (lit "Every " ++ freq)
    | _ => lit "Every " ++ freq
    end.
Proof.
  intros Hfreq. unfold frequency_label. rewrite base_freq_ascii by done.
  destruct (filter _ freq) as [|c [|c' letters]]; [done..|].
  by apply str_dict_get_long.
Qed.

Lemma frequency_label_reads_one_letter_witness :
  UnicodeCaseLaws ascii_case
  ∧ frequency_label (C:=ascii_case) (lit "2w")
    = match filter (λ c, c_isalpha c = true) (lit "2w") with
      | [c] => str_dict_get freq_map [c_toupper c] (lit "Every " ++ lit "2w")
      | _ => lit "Every " ++ lit "2w"
      end.
Proof.
  split; [exact ascii_case_laws|].
  apply (frequency_label_reads_one_letter (C:=ascii_case)
           (L:=ascii_case_laws) (lit "2w")).
  by repeat constructor.
Defined.

(** The default of [plot_time_series] and some codes of pandas. *)
Example frequency_labels :
  frequency_label (C:=ascii_case) (lit "M") = lit "Monthly"
  ∧ frequency_label (C:=ascii_case) (lit "2w") = lit "Weekly"
  ∧ frequency_label (C:=ascii_case) (lit "W-MON") = lit "Every W-MON"
  ∧ frequency_label (C:=ascii_case) (lit "ME") = lit "Every ME"
  ∧ frequency_label (C:=ascii_case) (lit "15") = lit "Every 15".
Proof. by vm_compute. Qed.

(** ** Constructing parsers *)

Lemma emitted_above_warning log_level calls :
  (30 < log_level)%Z → emitted log_level calls = [].
Proof.
  intros Hl. unfold emitted. induction calls as [|[l m] calls IH]; [done|].
  rewrite filter_cons, decide_False; [exact IH|].
  unfold isEnabledFor. cbn [lvl]. destruct l; cbn [levelno]; lia.
Qed.

Lemma init_returns w source_folder log_level g p g' :
  init w source_folder log_level g = (inr p, g') →
  handlers g'
  = (if bool_decide (handlers g = [])
     then [StreamHandler (lit "%(asctime)s [%(levelname)s] %(message)s")
             (lit "%Y-%m-%d %H:%M:%S")]
     else handlers g)
  ∧ logger_level g' = default 20%Z log_level.
Proof.
  unfold init. destruct (getenv w DATA_FOLDER_ENV) as [[|c base]|]; [done| |done].
  intros [= _ <-]. cbn [handlers logger_level]. split; [|done].
  case_bool_decide as Hh; [by rewrite Hh|done].
Qed.

(** X16.  All parsers of a process log through one logger.  When a
    second parser is constructed after a first, the logger keeps
    exactly the handlers it had: the first construction has installed
    one handler if there was none, the second installs none.  Its level
    becomes the [log_level] of the second parser, for the first parser
    as well: a second parser with a level above WARNING silences every
    info and warning that either of them logs. *)
Theorem second_parser_shares_the_logger (w : init_world)
    (source_folder1 source_folder2 : str) (log_level1 log_level2 : option Z)
    (g g1 g2 : logger_state) (p1 p2 : parser) (calls : list log_entry) :
  init w source_folder1 log_level1 g = (inr p1, g1) →
  init w source_folder2 log_level2 g1 = (inr p2, g2) →
  handlers g1 ≠ []
  ∧ (handlers g = [] → length (handlers g1) = 1%nat)
  ∧ handlers g2 = handlers g1
  ∧ logger_level g2 = default 20%Z log_level2
  ∧ ((30 < default 20 log_level2)%Z → emitted (logger_level g2) calls = []).
Proof.
  intros [Hh1 Hl1]%init_returns [Hh2 Hl2]%init_returns.
  assert (handlers g1 ≠ []) as Hne.
  { rewrite Hh1. destruct (decide (handlers g = [])) as [Hg|Hg].
    - by rewrite bool_decide_eq_true_2.
    - by rewrite bool_decide_eq_false_2. }
  repeat split; [done| | |done|].
  - intros Hg. by rewrite Hh1, bool_decide_eq_true_2.
  - by rewrite Hh2, bool_decide_eq_false_2.
  - intros Hl. rewrite Hl2. by apply emitted_above_warning.
Qed.

Lemma second_parser_shares_the_logger_witness :
  handlers (init data_env (lit "financial_reports") None fresh_logger).2 ≠ []
  ∧ (handlers fresh_logger = [] →
     length (handlers (init data_env (lit "financial_reports") None
                         fresh_logger).2) = 1%nat)
  ∧ handlers
      (init data_env (lit "archive") (Some 40%Z)
         (init data_env (lit "financial_reports") None fresh_logger).2).2
    = handlers (init data_env (lit "financial_reports") None fresh_logger).2
  ∧ logger_level
      (init data_env (lit "archive") (Some 40%Z)
         (init data_env (lit "financial_reports") None fresh_logger).2).2
    = default 20%Z (Some 40%Z)
  ∧ ((30 < default 20 (Some 40))%Z →
     emitted
       (logger_level
          (init data_env (lit "archive") (Some 40%Z)
             (init data_env (lit "financial_reports") None fresh_logger).2).2)
       [Log WARNING (lit "Page 2 in a.pdf has no extractable text.")] = []).
Proof.
  apply (second_parser_shares_the_logger data_env (lit "financial_reports")
           (lit "archive") None (Some 40%Z) fresh_logger _ _
           (new_parser (lit "/data/financial_reports"))
           (new_parser (lit "/data/archive"))).
  - by vm_compute.
  - by vm_compute.
Defined.

(** ** Small frames are sorted stably *)

Section small_sort.
Local Open Scope Z_scope.
Variable v : list date.

Local Abbreviation lt := (NpySort.lt v).
Local Abbreviation get := NpySort.get.
Local Abbreviation set := NpySort.set.
Local Abbreviation le := (index_le v).





End small_sort.




(** ** The engine finds every string of the language *)

Lemma bind_ext_in {A B} (f g : A → list B) (l : list A) :
  (∀ x, x ∈ l → f x = g x) → l ≫= f = l ≫= g.
Proof.
  induction l as [|x l IH]; intros Hfg; [done|].
  rewrite !bind_cons, (Hfg x) by left.
  by rewrite IH by (intros y Hy; apply Hfg; by right).
Qed.

Section completeness.
Context `{U : UnicodeData}.

Lemma loop_self body g fuel st : st ∈ loop body g fuel st.
Proof.
  destruct fuel as [|fuel]; cbn [loop]; [left|].
  destruct g; [apply elem_of_app; right; left|left].
Qed.

(** Fuel beyond the length of the text changes nothing. *)
Lemma loop_one_more body g fuel : ∀ st,
  (length (rest st) ≤ fuel)%nat →
  loop body g (S fuel) st = loop body g fuel st.
Proof.
  induction fuel as [|fuel IH]; intros st Hlen.
  - cbn [loop].
    assert (filter (λ st', progress st st' = true) (body st) = []) as ->.
    { induction (body st) as [|st' l IHl]; [done|].
      rewrite filter_cons, decide_False; [done|].
      unfold progress. rewrite bool_decide_eq_false_2; [done|lia]. }
    by destruct g.
  - change (loop body g (S (S fuel)) st)
      with (let again :=
              filter (λ st', progress st st' = true) (body st)
                ≫= loop body g (S fuel) in
            if g then again ++ [st] else st :: again).
    change (loop body g (S fuel) st)
      with (let again :=
              filter (λ st', progress st st' = true) (body st)
                ≫= loop body g fuel in
            if g then again ++ [st] else st :: again).
    cbv zeta.
    rewrite (bind_ext_in (loop body g (S fuel)) (loop body g fuel)); [done|].
    intros st' [Hp _]%list_elem_of_filter. apply IH.
    unfold progress in Hp. apply bool_decide_eq_true in Hp. lia.
Qed.

Lemma loop_fuel body g st fuel :
  (length (rest st) ≤ fuel)%nat →
  loop body g fuel st = loop body g (length (rest st)) st.
Proof.
  intros Hlen. induction fuel as [|fuel IH].
  - by replace (length (rest st)) with 0%nat by lia.
  - destruct (decide (length (rest st) = S fuel)) as [->|Hne]; [done|].
    rewrite loop_one_more by lia. apply IH. lia.
Qed.

Lemma run_finds r u :
  matches r u → ∀ t cs, ∃ cs', MState t cs' ∈ run r (MState (u ++ t) cs).
Proof.
  induction 1 as [|k c Hc|a b u v _ IHa _ IHb|a b u _ IH|a b u _ IH
                  |g a|g a u v _ IHa _ IHs|n a u _ IH]; intros t cs.
  - exists cs. cbn. by apply list_elem_of_singleton.
  - exists cs. cbn. rewrite Hc. by apply list_elem_of_singleton.
  - destruct (IHa (v ++ t) cs) as [cs1 H1].
    destruct (IHb t cs1) as [cs2 H2].
    exists cs2. apply elem_run_Seq. exists (MState (v ++ t) cs1).
    split; [|done]. by rewrite <-(assoc_L (++)).
  - destruct (IH t cs) as [cs1 H1]. exists cs1.
    cbn. apply elem_of_app. by left.
  - destruct (IH t cs) as [cs1 H1]. exists cs1.
    cbn. apply elem_of_app. by right.
  - exists cs. cbn [run app]. apply loop_self.
  - destruct u as [|c u]; [apply IHs|].
    destruct (IHa (v ++ t) cs) as [cs1 H1].
    destruct (IHs t cs1) as [cs2 H2].
    exists cs2. rewrite <-(assoc_L (++)).
    cbn [run rest app length] in *. cbn [loop].
    assert (MState t cs2
            ∈ filter (λ st', progress (MState (c :: u ++ v ++ t) cs) st' = true)
                (run a (MState (c :: u ++ v ++ t) cs))
              ≫= loop (run a) g (length (u ++ v ++ t))) as Hin.
    { apply list_elem_of_bind. exists (MState (v ++ t) cs1). split.
      - rewrite loop_fuel; [exact H2|]. cbn [rest]. rewrite !length_app. lia.
      - apply list_elem_of_filter. split; [|done].
        unfold progress. apply bool_decide_eq_true. cbn [rest length].
        rewrite !length_app. lia. }
    destruct g; [apply elem_of_app; by left|by right].
  - destruct (IH t cs) as [cs1 H1].
    eexists. apply elem_run_Group. exists (MState t cs1). split; [done|].
    reflexivity.
Qed.

Lemma match_here_finds p u t :
  matches (pat_re p) u → is_Some (match_here p false (u ++ t)).
Proof.
  intros Hm. rewrite match_here_is_head.
  destruct (run_finds _ _ Hm t (replicate (pat_groups p) None)) as [cs' Hin].
  destruct (run _ _) as [|st l]; [by apply elem_of_nil in Hin|by eexists].
Qed.

Lemma scan_finds p : ∀ pre u post,
  matches (pat_re p) u → scan p (pre ++ u ++ post) 0 ≠ [].
Proof.
  assert (∀ s st, match_here p false s = Some st → scan p s 0 ≠ []) as Hfound.
  { intros s st Hst. destruct s as [|c t]; cbn [scan]; rewrite Hst.
    - cbn. by destruct (match_here p true []).
    - destruct (length (c :: t) - length (rest st))%nat;
        [by destruct (match_here p true (c :: t))|done]. }
  induction pre as [|c pre IH]; intros u post Hm.
  - destruct (match_here_finds p u post Hm) as [st Hst]. by eapply Hfound.
  - destruct (match_here p false ((c :: pre) ++ u ++ post)) as [st|] eqn:Hst;
      [by eapply Hfound|].
    cbn [app scan] in *. rewrite Hst. by apply IH.
Qed.
End completeness.

Section finding.
Context `{U : UnicodeData}.

Lemma page_rows_finds tt text item pre u post :
  item ∈ pattern_items tt → text = pre ++ u ++ post →
  matches (pat_re item.2) u → page_rows tt text ≠ [].
Proof.
  intros Hitem -> Hm.
  pose proof (scan_finds item.2 pre u post Hm) as Hne.
  change (scan item.2 (pre ++ u ++ post) 0)
    with (findall item.2 (pre ++ u ++ post)) in Hne.
  destruct (findall item.2 (pre ++ u ++ post)) as [|m ms] eqn:Hfind; [done|].
  assert (m ∈ findall item.2 (pre ++ u ++ post)) as Hin
    by (rewrite Hfind; left).
  pose proof (findall_groups _ _ _ Hin) as Hlen.
  rewrite (registry_six tt item Hitem) in Hlen.
  destruct (record_of_match_six m Hlen) as (?&?&?&?&?&?& _ & Hrow).
  intros Hnil.
  assert (Row (Strptime.strptime_dmY x) (Strptime.strptime_dmY x0) x1 x2
            (strip x3)
            (py_float (replace (replace x4 (lit ".") []) (lit ",") (lit ".")))
          ∈ page_rows tt (pre ++ u ++ post)) as Hr.
  { unfold page_rows. apply list_elem_of_bind. exists item. split; [|done].
    apply list_elem_of_bind. exists m. split; [|done].
    rewrite Hrow. left. }
  rewrite Hnil in Hr. by apply elem_of_nil in Hr.
Qed.
End finding.

(** X18.  [parse_pdf] misses no document that holds a block: it returns
    the empty frame exactly when no page with text holds, anywhere in
    its text, a string of the form that one of the selected patterns
    describes.  So a document with at least one well-formed block always
    gives at least one row. *)
Theorem parse_pdf_finds_blocks `{U : UnicodeData} (w : world)
    (pdf_path : str) (transaction_type : option (option TransactionType))
    (pages : list (option str)) (σ : parser) :
  PdfReader w pdf_path = inr pages →
  (parse_pdf w pdf_path transaction_type σ).1 = inr []
  ↔ ∀ text item pre u post,
      Some text ∈ pages → text ≠ [] →
      item ∈ pattern_items (default (Some DIRECT_DEBIT) transaction_type) →
      text = pre ++ u ++ post →
      ¬ matches (pat_re item.2) u.
Proof.
  intros Hread. unfold parse_pdf.
  erewrite parse_pdf_body_eq by done. cbn [fst].
  set (tt := default (Some DIRECT_DEBIT) transaction_type).
  split.
  - intros [= Hnil] text item pre u post Hpage Htext Hitem Heq Hm.
    apply (page_rows_finds tt text item pre u post Hitem Heq) in Hm.
    apply Hm. apply list_elem_of_split in Hpage as (l1 & l2 & ->).
    rewrite doc_rows_app, (doc_rows_app _ [Some text] l2) in Hnil.
    apply app_eq_nil in Hnil as [_ [Hnil _]%app_eq_nil].
    rewrite doc_rows_one in Hnil. by destruct text.
  - intros Hnone. f_equal.
    destruct (doc_rows tt pages) as [|r rows] eqn:Hrows; [done|]. exfalso.
    assert (r ∈ doc_rows tt pages) as Hr by (rewrite Hrows; left).
    apply elem_of_doc_rows in Hr as (text & Hpage & Htext & Hr).
    apply elem_of_page_rows in Hr as (item & m & Hitem & Hm & _).
    apply findall_states in Hm as (pre & s' & st & -> & Hst & _).
    apply run_sound in Hst as (u & Hu & Hmatch & _). cbn [rest] in Hu.
    by apply (Hnone (pre ++ s') item pre u (rest st) Hpage Htext Hitem);
      [rewrite Hu|].
Qed.

Lemma parse_pdf_finds_blocks_witness :
  (parse_pdf (U:=ascii_unicode) no_blocks (lit "/data/a.pdf") None
     (new_parser (lit "/data"))).1 = inr []
  ↔ ∀ text item pre u post,
      Some text ∈ [Some (lit "Kontoauszug 12/2024"); None] → text ≠ [] →
      item ∈ pattern_items (default (Some DIRECT_DEBIT) None) →
      text = pre ++ u ++ post →
      ¬ matches (U:=ascii_unicode) (pat_re item.2) u.
Proof.
  apply (parse_pdf_finds_blocks (U:=ascii_unicode) no_blocks
           (lit "/data/a.pdf") None
           [Some (lit "Kontoauszug 12/2024"); None] (new_parser (lit "/data"))).
  reflexivity.
Defined.

(** ** The tick labels *)

Example euro_formatter_examples :
  euro_formatter (Binary false 1 (-1)) 0 = 8364 :: lit "0"
  ∧ euro_formatter (Binary false 3 (-1)) 0 = 8364 :: lit "2"
  ∧ euro_formatter (Binary false 5 (-1)) 0 = 8364 :: lit "2"
  ∧ euro_formatter (Binary true 1 (-2)) 0 = 8364 :: lit "-0"
  ∧ euro_formatter (Binary false 1999 (-1)) 0 = 8364 :: lit "1,000"
  ∧ euro_formatter (Binary true 2469 (-1)) 0 = 8364 :: lit "-1,234"
  ∧ euro_formatter (Binary false 9876543 (-3)) 0 = 8364 :: lit "1,234,568"
  ∧ euro_formatter (Binary false (5 ^ 22) 22) 0
    = 8364 :: lit "10,000,000,000,000,000,000,000"
  ∧ euro_formatter (Binary false 123 0) 0 = 8364 :: lit "123"
  ∧ euro_formatter (Inf true) 0 = 8364 :: lit "-inf"
  ∧ euro_formatter NotANumber 0 = 8364 :: lit "nan".
Proof. by vm_compute. Qed.

Lemma of_digits_snoc l v : of_digits (l ++ [v]) = 10 * of_digits l + v.
Proof. unfold of_digits. by rewrite foldl_app. Qed.

Lemma digits_rev_digit fuel : ∀ n, Forall (λ c, 48 ≤ c ≤ 57) (digits_rev fuel n).
Proof.
  induction fuel as [|fuel IH]; intros n; cbn [digits_rev]; [constructor|].
  constructor.
  - pose proof (N.mod_upper_bound n 10 ltac:(lia)) as Hlt.
    revert Hlt. generalize (n mod 10). intros r Hlt. lia.
  - destruct (n <? 10); [constructor|apply IH].
Qed.

Lemma digits_rev_value fuel : ∀ n,
  n < 10 ^ N.of_nat fuel →
  of_digits ((λ c, c - 48) <$> reverse (digits_rev fuel n)) = n.
Proof.
  induction fuel as [|fuel IH]; intros n Hn.
  { cbn in Hn. assert (n = 0) as -> by lia. done. }
  cbn [digits_rev]. rewrite reverse_cons, fmap_app, list_fmap_singleton.
  rewrite of_digits_snoc.
  rewrite (N.add_comm 48), N.add_sub.
  destruct (N.ltb_spec n 10) as [Hsmall|Hbig].
  - cbn. rewrite N.mod_small by done. done.
  - rewrite IH.
    + symmetry. apply N.div_mod. lia.
    + apply N.Div0.div_lt_upper_bound.
      by rewrite Nat2N.inj_succ, N.pow_succ_r' in Hn.
Qed.

Lemma log2_fuel n : n < 10 ^ N.of_nat (S (N.to_nat (N.log2 n))).
Proof.
  rewrite Nat2N.inj_succ, N2Nat.id.
  destruct (decide (n = 0)) as [->|Hn]; [done|].
  pose proof (N.log2_spec n) as [_ Hlt]; [lia|].
  eapply N.lt_le_trans; [exact Hlt|].
  apply N.pow_le_mono_l. lia.
Qed.

Lemma decimal_repr_value n :
  of_digits ((λ c, c - 48) <$> decimal_repr n) = n.
Proof. apply digits_rev_value, log2_fuel. Qed.

Lemma group3_digits k : ∀ ds,
  Forall (λ c, c ≠ 44) ds → filter (λ c, c ≠ 44) (group3 k ds) = ds.
Proof.
  intros ds Hds. revert k. induction Hds as [|c ds Hc _ IH]; intros k; [done|].
  destruct k as [|k]; cbn [group3].
  - rewrite filter_cons, decide_False by (by intros H; apply H).
    rewrite filter_cons, decide_True by done. by rewrite IH.
  - rewrite filter_cons, decide_True by done. by rewrite IH.
Qed.

Section label_form.
Context `{U : UnicodeData}.

Lemma matches_Star_snoc g a v u :
  matches (Star g a) v → matches a u → matches (Star g a) (v ++ u).
Proof.
  intros (pieces & -> & Hp)%matches_Star_inv Hu.
  induction Hp as [|p pieces Hp _ IH]; cbn [concat app].
  - rewrite <-(right_id_L [] (++) u). by repeat constructor.
  - rewrite <-(assoc_L (++)). by constructor.
Qed.

Lemma matches_rep_digits n ds :
  length ds = n → Forall (λ c, 48 ≤ c ≤ 57) ds →
  matches (rep n (Chr (CRange 48 57))) ds.
Proof.
  intros <- Hds. induction Hds as [|c ds Hc _ IH]; cbn [length rep].
  - constructor.
  - change (c :: ds) with ([c] ++ ds). constructor; [|exact IH].
    constructor. by apply cmatch_range.
Qed.

Lemma matches_upto_digits n ds :
  (length ds ≤ n)%nat → Forall (λ c, 48 ≤ c ≤ 57) ds →
  matches (upto n (Chr (CRange 48 57))) ds.
Proof.
  revert ds. induction n as [|n IH]; intros ds Hlen Hds; cbn [upto].
  - destruct ds; [constructor|cbn in Hlen; lia].
  - destruct Hds as [|c ds Hc Hds]; [apply matches_Alt_r; constructor|].
    apply matches_Alt_l. change (c :: ds) with ([c] ++ ds).
    constructor; [constructor; by apply cmatch_range|].
    apply IH; [cbn in Hlen; lia|done].
Qed.

(** The commas stand where they should. *)
Lemma group3_form n : ∀ ds,
  (length ds ≤ n)%nat → ds ≠ [] → Forall (λ c, 48 ≤ c ≤ 57) ds →
  matches label_re (reverse (group3 3 ds)).
Proof.
  induction n as [|n IH]; intros ds Hlen Hne Hds.
  { destruct ds; [done|cbn in Hlen; lia]. }
  destruct ds as [|d0 [|d1 [|d2 [|d3 rest]]]]; [done|..].
  1-3: cbn [group3]; rewrite <-(right_id_L [] (++) (reverse _));
    constructor; [|constructor];
    unfold rep_range;
    match goal with
    | |- matches _ (reverse ?l) =>
        assert (Forall (λ c, 48 ≤ c ≤ 57) (reverse l)) as Hrev
          by (by apply Forall_reverse);
        destruct (reverse l) as [|x xs] eqn:Hx;
          [by apply (f_equal length) in Hx; rewrite length_reverse in Hx|];
        change (x :: xs) with ([x] ++ xs);
        apply (f_equal length) in Hx; rewrite length_reverse in Hx;
        cbn [length] in Hx;
        apply Forall_cons in Hrev as [Hx0 Hxs];
        constructor;
          [apply (matches_rep_digits 1 [x]); [done|by constructor]
          |apply matches_upto_digits; [cbn; lia|done]]
    end.
  change (group3 3 (d0 :: d1 :: d2 :: d3 :: rest))
    with ([d0; d1; d2] ++ 44 :: group3 3 (d3 :: rest)).
  rewrite reverse_app, reverse_cons, <-(assoc_L (++)).
  apply Forall_cons in Hds as [H0 Hds]. apply Forall_cons in Hds as [H1 Hds].
  apply Forall_cons in Hds as [H2 Hds].
  assert (matches label_re (reverse (group3 3 (d3 :: rest)))) as Hrest.
  { apply IH; [cbn in *; lia|done|done]. }
  unfold label_re in *.
  apply matches_Seq_inv in Hrest as (h & s & -> & Hh & Hs).
  rewrite <-(assoc_L (++)). constructor; [done|].
  apply matches_Star_snoc; [done|].
  change ([44] ++ reverse [d0; d1; d2]) with ([44] ++ [d2; d1; d0]).
  constructor; [apply matches_chr|].
  apply (matches_rep_digits 3); [done|].
  repeat (apply Forall_cons; split; [done|]). apply Forall_nil_2.
Qed.
End label_form.

Lemma round_half_even_nearest m p :
  2 * round_half_even m (Z.neg p) * 2 ^ N.pos p ≤ 2 * m + 2 ^ N.pos p
  ∧ 2 * m ≤ 2 * round_half_even m (Z.neg p) * 2 ^ N.pos p + 2 ^ N.pos p
  ∧ (2 * round_half_even m (Z.neg p) * 2 ^ N.pos p = 2 * m + 2 ^ N.pos p
     ∨ 2 * m = 2 * round_half_even m (Z.neg p) * 2 ^ N.pos p + 2 ^ N.pos p →
     N.even (round_half_even m (Z.neg p)) = true).
Proof.
  unfold round_half_even. set (d := 2 ^ N.pos p).
  assert (d ≠ 0) as Hd by (apply N.pow_nonzero; lia).
  pose proof (N.div_mod m d Hd) as Hm.
  pose proof (N.mod_upper_bound m d Hd) as Hr.
  set (q := m / d) in *. set (r := m mod d) in *.
  destruct (N.ltb_spec (2 * r) d) as [Hlow|Hlow'].
  { split; [nia|]. split; [nia|]. intros [?|?]; nia. }
  destruct (N.ltb_spec d (2 * r)) as [Hhigh|Hhigh'].
  { split; [nia|]. split; [nia|]. intros [?|?]; nia. }
  destruct (N.even q) eqn:Hq.
  { split; [nia|]. split; [nia|]. done. }
  split; [nia|]. split; [nia|]. intros _.
  rewrite N.add_1_r, N.even_succ, <-N.negb_even, Hq. done.
Qed.

Lemma group3_chars k : ∀ ds,
  Forall (λ c, 48 ≤ c ≤ 57) ds →
  Forall (λ c, 48 ≤ c ≤ 57 ∨ c = 44) (group3 k ds).
Proof.
  intros ds Hds. revert k. induction Hds as [|c ds Hc _ IH]; intros k;
    [constructor|].
  destruct k as [|k]; cbn [group3].
  - apply Forall_cons. split; [by right|].
    apply Forall_cons. split; [by left|apply IH].
  - apply Forall_cons. split; [by left|apply IH].
Qed.

Lemma read_sign_digits (neg : bool) body :
  body ≠ [] → Forall (λ c, 48 ≤ c ≤ 57 ∨ c = 44) body →
  read_sign (sign_str neg ++ body) = (neg, body).
Proof.
  intros Hne Hbody. destruct neg; [done|]. cbn [sign_str app].
  destruct Hbody as [|c body Hc _]; [done|]. unfold read_sign.
  destruct (N.eqb_spec c 45) as [->|_]; [lia|].
  destruct (N.eqb_spec c 43) as [->|_]; [lia|done].
Qed.

(** X19.  The label of a tick shows whole euros.  For a finite value
    the text is the euro sign, a minus sign if the value is negative
    (also when the number shown is 0), and the digits of the nearest
    integer, of the even one if two are equally near, in groups of
    three with commas between them; read back without the commas it
    gives that integer.  The position [pos] plays no part. *)
Theorem euro_formatter_shows_whole_euros `{U : UnicodeData} {A}
    (neg : bool) (m : N) (e : Z) (pos : A) :
  ∃ body,
    euro_formatter (Binary neg m e) pos = 8364 :: sign_str neg ++ body
    ∧ matches label_re body
    ∧ read_label (euro_formatter (Binary neg m e) pos)
      = Some (neg, round_half_even m e)
    ∧ match e with
      | Z.neg p =>
          2 * round_half_even m e * 2 ^ N.pos p ≤ 2 * m + 2 ^ N.pos p
          ∧ 2 * m ≤ 2 * round_half_even m e * 2 ^ N.pos p + 2 ^ N.pos p
          ∧ (2 * round_half_even m e * 2 ^ N.pos p = 2 * m + 2 ^ N.pos p
             ∨ 2 * m = 2 * round_half_even m e * 2 ^ N.pos p + 2 ^ N.pos p →
             N.even (round_half_even m e) = true)
      | _ => round_half_even m e = m * 2 ^ Z.to_N e
      end.
Proof.
  set (n := round_half_even m e).
  set (ds := digits_rev (S (N.to_nat (N.log2 n))) n).
  assert (Forall (λ c, 48 ≤ c ≤ 57) ds) as Hds by apply digits_rev_digit.
  assert (ds ≠ []) as Hne by done.
  exists (reverse (group3 3 ds)). split; [done|]. split.
  { by apply (group3_form (length ds)). }
  split; [|destruct e; [done..|apply round_half_even_nearest]].
  unfold euro_formatter, format_comma_f0, read_label. fold n. fold ds.
  rewrite N.eqb_refl, read_sign_digits.
  - rewrite filter_reverse, group3_digits
      by (eapply Forall_impl; [exact Hds|]; cbn; intros; lia).
    fold (decimal_repr n). rewrite bool_decide_eq_true_2.
    + do 2 f_equal. exact (decimal_repr_value n).
    + split.
      * unfold decimal_repr. fold ds. intros Hr.
        apply (f_equal reverse) in Hr. by rewrite reverse_involutive in Hr.
      * unfold decimal_repr. fold ds. apply Forall_reverse.
        eapply Forall_impl; [exact Hds|]. cbn. intros c Hc.
        unfold c_isdigit. apply andb_true_iff. split; apply N.leb_le; lia.
  - unfold ds. cbn [digits_rev group3]. rewrite reverse_cons.
    by intros [_ [=]]%app_eq_nil.
  - apply Forall_reverse. by apply group3_chars.
Qed.

(** ** Which amount a DirectDebit row takes *)

Lemma list_bind_assoc {A B C} (f : A → list B) (g : B → list C) (l : list A) :
  (l ≫= f) ≫= g = l ≫= (λ x, f x ≫= g).
Proof.
  induction l as [|x l IH]; [done|]. by rewrite !bind_cons, bind_app, IH.
Qed.

Lemma bind_one {A B} (f : A → list B) (x : A) : [x] ≫= f = f x.
Proof. rewrite bind_cons. apply (right_id_L [] (++)). Qed.

(** The first result of a bind comes from the first element that has
    one. *)
Lemma head_bind_Some {A B} (f : A → list B) (l : list A) y :
  head (l ≫= f) = Some y →
  ∃ l1 x l2, l = l1 ++ x :: l2 ∧ Forall (λ z, f z = []) l1
             ∧ head (f x) = Some y.
Proof.
  induction l as [|x l IH]; [done|]. rewrite bind_cons.
  destruct (f x) as [|y' ys] eqn:Hx.
  - intros (l1 & x' & l2 & -> & Hl1 & Hy)%IH.
    exists (x :: l1), x', l2. split; [done|]. split; [by constructor|done].
  - intros [= ->]. exists [], x, l. split; [done|]. split; [constructor|].
    by rewrite Hx.
Qed.

Section first_amount.
Context `{U : UnicodeData}.

Lemma cmatch_anything c : cmatch Patterns.anything c = true.
Proof.
  unfold Patterns.anything. cbn [cmatch]. by destruct (is_space c).
Qed.

(** A lazy [[\s\S]*] tries the shortest text first. *)
Lemma run_lazy_anything cs : ∀ s,
  run (Star false (Chr Patterns.anything)) (MState s cs)
  = (λ k, MState (drop k s) cs) <$> seq 0 (S (length s)).
Proof.
  intros s. cbn [run rest].
  induction s as [|c t IH]; [done|].
  cbn [length loop]. cbn [run rest caps]. rewrite cmatch_anything.
  rewrite filter_cons_True
    by (unfold progress; apply bool_decide_eq_true; cbn; lia).
  rewrite filter_nil, bind_one.
  cbn [rest caps]. rewrite IH.
  change (seq 0 (S (S (length t)))) with (0%nat :: seq 1 (S (length t))).
  rewrite fmap_cons. f_equal.
  rewrite <-(fmap_S_seq 0), <-list_fmap_compose. done.
Qed.

Lemma run_description s cs :
  run (Group 5 (Seq (Chr Patterns.letter) (Star false (Chr Patterns.anything))))
    (MState s cs)
  = match s with
    | c :: t =>
        if cmatch Patterns.letter c
        then (λ k, MState (drop k t) (<[4%nat := Some (c :: take k t)]> cs))
             <$> seq 0 (S (length t))
        else []
    | [] => []
    end.
Proof.
  destruct s as [|c t]; [done|].
  change (run (Group 5 ?a) ?st)
    with ((λ st', MState (rest st')
                    (<[4%nat := Some (consumed st st')]> (caps st')))
          <$> run a st).
  change (run (Seq (Chr Patterns.letter) ?b) (MState (c :: t) cs))
    with ((if cmatch Patterns.letter c then [MState t cs] else []) ≫= run b).
  destruct (cmatch Patterns.letter c); [|done].
  rewrite bind_one.
  rewrite run_lazy_anything, <-list_fmap_compose.
  apply list_fmap_ext. intros i k [-> Hk]%lookup_seq. cbn.
  f_equal. f_equal. f_equal.
  unfold consumed. cbn [rest length]. rewrite length_drop.
  replace (S (length t) - (length t - i))%nat with (S i) by lia. done.
Qed.
End first_amount.

Section first_amount_run.
Context `{U : UnicodeData}.

Lemma run_amount_nil st a' post' :
  run (Group 6 Patterns.amount) st = [] →
  matches Patterns.amount a' → rest st ≠ a' ++ post'.
Proof.
  intros Hnil Ha Hrest.
  destruct (run_finds _ _ Ha post' (caps st)) as [cs' Hin].
  rewrite <-Hrest in Hin.
  assert (MState (rest st) (caps st) = st) as Hst by by destruct st.
  rewrite Hst in Hin.
  change (run (Group 6 ?a) ?s)
    with ((λ st', MState (rest st')
                    (<[5%nat := Some (consumed s st')]> (caps st')))
          <$> run a s) in Hnil.
  apply fmap_nil_inv in Hnil. rewrite Hnil in Hin.
  by apply elem_of_nil in Hin.
Qed.

(** The best match of the DirectDebit pattern at the head of a text:
    its description is the shortest after which an amount stands. *)
Lemma direct_debit_head s st :
  head (run (pat_re Patterns.direct_debit) (MState s (replicate 6 None)))
  = Some st →
  ∃ b v t c d a front,
    s = front ++ c ++ d ++ a ++ rest st
    ∧ groups st = [b; v; t; c; d; a]
    ∧ ∀ d1 d2 a' post',
        d = d1 ++ d2 → d1 ≠ [] → d2 ≠ [] →
        matches Patterns.amount a' →
        d2 ++ a ++ rest st ≠ a' ++ post'.
Proof.
  unfold Patterns.direct_debit. cbn [pat_re replicate]. intros H.
  change (run (Seq (Seq ?y ?g5) ?g6) ?s0)
    with ((run y s0 ≫= run g5) ≫= run g6) in H.
  rewrite list_bind_assoc in H.
  apply head_bind_Some in H as (la & st4 & lb & HY & _ & H).
  apply head_bind_Some in H as (l1 & st5 & l2 & H5 & Hl1 & H6).
  assert (st4 ∈ run
            (Group 1 Patterns.date_re ⋅ Patterns.newline
             ⋅ Group 2 Patterns.date_re ⋅ word (lit "Lastschrift /")
             ⋅ Patterns.newline ⋅ word (lit "Belastung") ⋅ Patterns.newline
             ⋅ Group 3 (plus true (Chr Patterns.upper_or_digit))
             ⋅ Patterns.newline ⋅ Group 4 Patterns.codes)%re
            (MState s [None; None; None; None; None; None])) as Hin.
  { rewrite HY. apply elem_of_app. right. left. }
  clear HY.
  apply elem_run_Seq in Hin as (s8 & Hin & H4).
  apply elem_run_Seq in Hin as (s7 & Hin & Hn4).
  apply elem_run_Seq in Hin as (s6 & Hin & H3).
  apply elem_run_Seq in Hin as (s5 & Hin & Hn3).
  apply elem_run_Seq in Hin as (s4 & Hin & Hw2).
  apply elem_run_Seq in Hin as (s3 & Hin & Hn2).
  apply elem_run_Seq in Hin as (s2 & Hin & Hw1).
  apply elem_run_Seq in Hin as (s1 & Hin & H2).
  apply elem_run_Seq in Hin as (s0 & H1 & Hn1).
  apply elem_run_Group_groupless in H1 as (b & Eb & Mb & Cb); [|done].
  apply run_groupless_reach in Hn1 as (n1 & En1 & _ & Cn1); [|done].
  apply elem_run_Group_groupless in H2 as (v & Ev & Mv & Cv); [|done].
  apply run_groupless_reach in Hw1 as (w1 & Ew1 & _ & Cw1); [|done].
  apply run_groupless_reach in Hn2 as (n2 & En2 & _ & Cn2); [|done].
  apply run_groupless_reach in Hw2 as (w2 & Ew2 & _ & Cw2); [|done].
  apply run_groupless_reach in Hn3 as (n3 & En3 & _ & Cn3); [|done].
  apply elem_run_Group_groupless in H3 as (t & Et & Mt & Ct); [|done].
  apply run_groupless_reach in Hn4 as (n4 & En4 & _ & Cn4); [|done].
  apply elem_run_Group_groupless in H4 as (c & Ec & Mc & Cc); [|done].
  cbn [rest caps] in Eb, Cb.
  assert (s = (b ++ n1 ++ v ++ w1 ++ n2 ++ w2 ++ n3 ++ t ++ n4) ++ c ++ rest st4)
    as Hs.
  { rewrite Eb, En1, Ev, Ew1, En2, Ew2, En3, Et, En4, Ec.
    by rewrite <-!(assoc_L (++)). }
  assert (caps st4 = [Some b; Some v; Some t; Some c; None; None]) as Hcaps.
  { rewrite Cc, Cn4, Ct, Cn3, Cw2, Cn2, Cw1, Cv, Cn1, Cb. reflexivity. }
  clear Eb En1 Ev Ew1 En2 Ew2 En3 Et En4 Ec Cc Cn4 Ct Cn3 Cw2 Cn2 Cw1 Cv Cn1 Cb.
  destruct st4 as [s4' cs4]. cbn [rest caps] in Hs, Hcaps. subst cs4.
  rewrite run_description in H5.
  destruct s4' as [|c0 t0]; [by destruct l1|].
  destruct (cmatch Patterns.letter c0); [|by destruct l1].
  set (F := λ k, MState (drop k t0)
                   (<[4%nat := Some (c0 :: take k t0)]>
                      [Some b; Some v; Some t; Some c; None; None])) in *.
  assert (∀ i z, (l1 ++ st5 :: l2) !! i = Some z →
                 z = F i ∧ (i ≤ length t0)%nat) as Hat.
  { intros i z Hz. rewrite <-H5, list_lookup_fmap in Hz.
    destruct (seq 0 (S (length t0)) !! i) as [k|] eqn:Hk; [|done].
    apply lookup_seq in Hk as [-> Hi]. injection Hz as <-. split; [done|lia]. }
  destruct (Hat (length l1) st5) as [-> Hk5].
  { by rewrite lookup_app_r, Nat.sub_diag by lia. }
  apply head_Some_elem_of in H6.
  apply elem_run_Group_groupless in H6 as (a & Ea & Ma & Ca); [|done].
  cbn [F rest caps] in Ea, Ca.
  exists b, v, t, c, (c0 :: take (length l1) t0), a,
    (b ++ n1 ++ v ++ w1 ++ n2 ++ w2 ++ n3 ++ t ++ n4).
  split; [|split].
  - rewrite Hs. do 2 f_equal. cbn [app]. f_equal.
    rewrite <-Ea. by rewrite take_drop.
  - unfold groups. rewrite Ca. reflexivity.
  - intros d1 d2 a' post' Hd Hd1 Hd2 Ha' Heq.
    destruct d1 as [|x d1']; [done|]. injection Hd as <- Htake.
    assert (length d1' < length l1)%nat as Hlt.
    { apply (f_equal length) in Htake.
      rewrite length_take, length_app in Htake.
      destruct d2; [done|]. cbn [length] in Htake. lia. }
    destruct (lookup_lt_is_Some_2 l1 (length d1') Hlt) as [z Hz].
    destruct (Hat (length d1') z) as [-> _]; [by rewrite lookup_app_l|].
    pose proof (Forall_lookup_1 _ _ _ _ Hl1 Hz) as Hnil.
    apply (run_amount_nil _ a' post' Hnil Ha'). cbn [F rest].
    rewrite <-Heq, <-Ea.
    rewrite <-(take_drop (length l1) t0) at 1. rewrite Htake.
    rewrite <-(assoc_L (++)). by rewrite drop_app_length.
Qed.
End first_amount_run.

Lemma filter_all {A} (P : A → Prop) `{∀ x, Decision (P x)} (l : list A) :
  Forall P l → filter P l = l.
Proof.
  induction 1 as [|x l Hx _ IH]; [done|]. by rewrite filter_cons_True, IH.
Qed.

Section first_amount_match.
Context `{U : UnicodeData}.

Lemma match_here_direct_debit ma s st :
  match_here Patterns.direct_debit ma s = Some st →
  head (run (pat_re Patterns.direct_debit) (MState s (replicate 6 None)))
  = Some st.
Proof.
  unfold match_here. rewrite filter_all; [done|].
  apply Forall_forall. intros st' Hst' _.
  apply direct_debit_run in Hst'
    as (b & x1 & v & x2 & t & x3 & c & d & a & -> & _ & _ & _ & _ & _ & _ & Ha).
  apply amount_has_comma in Ha.
  unfold progress. apply bool_decide_eq_true. cbn [rest].
  rewrite !length_app. destruct a; [by apply elem_of_nil in Ha|].
  cbn [length]. lia.
Qed.
End first_amount_match.

(** X20.  The amount of a DirectDebit match is the first text after the
    code that reads as an amount.  The description is matched lazily,
    so it ends where, for the first time after its first character, an
    amount can be read: no shorter description is followed by a text of
    the amount's form.  A price named inside the description of a block
    is therefore taken for the amount of the booking, and the
    description is cut off before it. *)
Theorem direct_debit_takes_the_first_amount `{U : UnicodeData}
    (text : str) (m : list str) :
  m ∈ findall Patterns.direct_debit text →
  ∃ b v t c d a pre post,
    m = [b; v; t; c; d; a]
    ∧ text = pre ++ c ++ d ++ a ++ post
    ∧ matches Patterns.amount a
    ∧ ∀ d1 d2 a' post',
        d = d1 ++ d2 → d1 ≠ [] → d2 ≠ [] →
        matches Patterns.amount a' →
        d2 ++ a ++ post ≠ a' ++ post'.
Proof.
  intros (pre & s' & ma & st & -> & Hst & ->)%scan_states.
  apply match_here_direct_debit in Hst.
  pose proof (head_Some_elem_of _ _ Hst) as Hin.
  apply direct_debit_run in Hin
    as (b0 & x1 & v0 & x2 & t0 & x3 & c0 & d0 & a0 & _ & Hcaps & _ & _ & _ & _ & _ & Ha).
  destruct (direct_debit_head s' st Hst)
    as (b & v & t & c & d & a & front & -> & Hg & Hfirst).
  assert (a = a0) as ->.
  { unfold groups in Hg. rewrite Hcaps in Hg. by injection Hg. }
  exists b, v, t, c, d, a0, (pre ++ front), (rest st).
  split; [done|]. split; [by rewrite <-(assoc_L (++))|]. done.
Qed.

Lemma direct_debit_takes_the_first_amount_witness :
  ∃ b v t c d a pre post,
    invoice_match = [b; v; t; c; d; a]
    ∧ invoice_text = pre ++ c ++ d ++ a ++ post
    ∧ matches (U:=ascii_unicode) Patterns.amount a
    ∧ ∀ d1 d2 a' post',
        d = d1 ++ d2 → d1 ≠ [] → d2 ≠ [] →
        matches (U:=ascii_unicode) Patterns.amount a' →
        d2 ++ a ++ post ≠ a' ++ post'.
Proof.
  apply (direct_debit_takes_the_first_amount (U:=ascii_unicode)
           invoice_text invoice_match).
  assert (findall (U:=ascii_unicode) Patterns.direct_debit invoice_text
          = [invoice_match]) as -> by by vm_compute.
  left.
Defined.

(** The row of [invoice_text]: the price of the description is its
    amount. *)
Example price_in_the_description :
  page_rows (U:=ascii_unicode) (Some DIRECT_DEBIT) invoice_text
  = [Row (Some (Date 2024 12 4)) (Some (Date 2024 12 4))
       (lit "7L2C1U7N2KRV") (lit "5LYN/35742") (lit "Rechnung")
       (Some (Finite false 1250 (-2)))].
Proof. by vm_compute. Qed.

(** ** The matches of a page stand in reading order *)

Section places.
Context `{U : UnicodeData}.

Lemma found_gap p gap s ms : found p s ms → found p (gap ++ s) ms.
Proof.
  destruct 1 as [s|gap' u s st ms Hst Hrest Hu Hms]; [constructor|].
  rewrite (assoc_L (++)). by constructor.
Qed.

(** A match at the head of a text, as a piece of it. *)
Lemma match_here_piece p ma s st :
  match_here p ma s = Some st →
  ∃ u, s = u ++ rest st ∧ matches (pat_re p) u
       ∧ st ∈ run (pat_re p) (MState (u ++ rest st)
                                (replicate (pat_groups p) None))
       ∧ length u = (length s - length (rest st))%nat.
Proof.
  intros Hst%match_here_run.
  destruct (run_sound _ _ _ Hst) as (u & Hu & Hm & _). cbn [rest] in Hu.
  exists u. rewrite <-Hu. repeat split; [done..|].
  rewrite Hu, length_app. lia.
Qed.

Lemma scan_found p : ∀ s skip, found p (drop skip s) (scan p s skip).
Proof.
  induction s as [|c t IH]; intros skip.
  - destruct skip as [|k]; cbn [scan]; [|constructor].
    destruct (match_here p false []) as [st|] eqn:Hst; [|constructor].
    destruct (match_here_piece _ _ _ _ Hst) as (u & Hu & Hm & Hin & _).
    assert (u = [] ∧ rest st = []) as [-> Hr] by (by destruct u, (rest st)).
    cbn [length Nat.sub].
    destruct (match_here p true []) as [st'|] eqn:Hst'.
    + destruct (match_here_piece _ _ _ _ Hst') as (u' & Hu' & Hm' & Hin' & _).
      assert (u' = [] ∧ rest st' = []) as [-> Hr']
        by (by destruct u', (rest st')).
      rewrite Hr in Hin. rewrite Hr' in Hin'.
      apply (found_cons p [] [] [] st); [done..|].
      apply (found_cons p [] [] [] st'); [done..|constructor].
    + rewrite Hr in Hin.
      apply (found_cons p [] [] [] st); [done..|constructor].
  - destruct skip as [|k]; cbn [scan drop]; [|apply IH].
    destruct (match_here p false (c :: t)) as [st|] eqn:Hst.
    2:{ apply (found_gap p [c]). apply (IH 0%nat). }
    destruct (match_here_piece _ _ _ _ Hst) as (u & Hu & Hm & Hin & Hlen).
    destruct (length (c :: t) - length (rest st))%nat as [|n] eqn:Hn.
    + assert (u = []) as -> by (by destruct u).
      cbn [app] in Hu, Hin.
      destruct (match_here p true (c :: t)) as [st'|] eqn:Hst'.
      * destruct (match_here_piece _ _ _ _ Hst')
          as (u' & Hu' & Hm' & Hin' & Hlen').
        set (k := pred (length (c :: t) - length (rest st'))).
        assert (rest st' = drop k t) as Hk.
        { unfold k. unfold match_here in Hst'.
          apply head_Some_elem_of, list_elem_of_filter in Hst' as [Hp _].
          specialize (Hp eq_refl). unfold progress in Hp.
          apply bool_decide_eq_true in Hp. cbn [rest] in Hp.
          destruct u' as [|x u']; [cbn in Hu'; rewrite <-Hu' in Hp; lia|].
          rewrite <-Hlen'. injection Hu' as -> ->. cbn [length pred].
          by rewrite drop_app_length. }
        clearbody k.
        change (found p (c :: t) (groups st :: groups st' :: scan p t k)).
        rewrite Hu.
        apply (found_cons p [] [] (rest st) st); [done..|].
        rewrite <-Hu, Hu'.
        apply (found_cons p [] u' (rest st') st'); [done..|].
        rewrite Hk. apply IH.
      * rewrite Hu at 1.
        apply (found_cons p [] [] (rest st) st); [done..|].
        rewrite <-Hu. apply (found_gap p [c]). apply (IH 0%nat).
    + cbn [pred].
      assert (rest st = drop n t) as Hk.
      { destruct u as [|x u]; [done|]. injection Hu as -> ->.
        injection Hlen as <-. by rewrite drop_app_length. }
      change (found p (c :: t) (groups st :: scan p t n)).
      rewrite Hu.
      apply (found_cons p [] u (rest st) st); [done..|].
      rewrite Hk. apply IH.
Qed.
End places.

(** X21.  The matches that [findall] returns for a pattern are read off
    pieces of the text that follow one another from left to right and
    do not overlap: each match is the result of a run of the pattern on
    one piece, which is a string of the pattern's language, and the
    next match lies in the text after that piece.  The rows of a page
    and a pattern therefore stand in the order of their blocks. *)
Theorem findall_reads_left_to_right `{U : UnicodeData} (p : pattern)
    (text : str) :
  found p text (findall p text).
Proof. apply (scan_found p text 0). Qed.
